(** * wasp-os system manager: event dispatch and the awake/asleep machine

    A shallow embedding of [wasp/wasp.py] (classes [EventType], [EventMask],
    [PinHandler] and [Manager]) together with the properties of its
    specification.

    Python objects are mutable and shared: the manager, the watch drivers
    and the applications all live in one store, modelled by the record
    [World], which every method threads explicitly.  Exceptions and the one
    unbounded loop of the source are outcomes of the monad [M]. *)

From Stdlib Require Import ZArith List Bool Lia Arith.
Import ListNotations.
Open Scope Z_scope.

Set Implicit Arguments.

(** ** Event vocabulary *)

Module EventType.
Definition DOWN : Z := 1.
Definition UP : Z := 2.
Definition LEFT : Z := 3.
Definition RIGHT : Z := 4.
Definition TOUCH : Z := 5.
Definition HOME : Z := 256.
End EventType.

Module EventMask.
Definition TOUCH : Z := 0x0001.
Definition SWIPE_LEFTRIGHT : Z := 0x0002.
Definition SWIPE_UPDOWN : Z := 0x0004.
Definition BUTTON : Z := 0x0008.
End EventMask.

(** ** Python values *)

(** Application objects are compared by identity ([in], [index], [!=]);
    a reference is a number. *)
Definition AppId := nat.

(** An instance attribute that [__init__] does not create is unbound until
    its first assignment; reading it raises [AttributeError]. *)
Inductive attr (A : Type) : Type :=
| Unbound
| Bound (a : A).
Arguments Unbound {A}.

Inductive exn : Type :=
| AttributeError
| IndexError
| TypeError
| OtherError (code : nat).

(** Truth value of an optional integer: [None] and [0] are false. *)
Definition truthy (v : option Z) : bool :=
  match v with
  | None => false
  | Some z => negb (z =? 0)
  end.

(** [l[i]] with Python's negative indices. *)
Definition getitem {A : Type} (l : list A) (i : Z) : option A :=
  let n := Z.of_nat (length l) in
  let j := if i <? 0 then i + n else i in
  if (j <? 0) || (n <=? j) then None else nth_error l (Z.to_nat j).

(** [l.index(x)]: position of the first element equal to [x]. *)
Fixpoint index (x : AppId) (l : list AppId) : option nat :=
  match l with
  | [] => None
  | y :: l' => if Nat.eqb y x then Some O
               else option_map S (index x l')
  end.

(** [x in l]. *)
Definition contains (x : AppId) (l : list AppId) : bool :=
  match index x l with Some _ => true | None => false end.

(** A touch event is the sequence [(kind, x, y)]; only [event[0]] is read
    by the manager.  A sequence of three items is true. *)
Record TouchEvent : Type := { ev_kind : Z; ev_x : Z; ev_y : Z }.

(** ** The watch drivers *)

(** Modelled from the spec: the driver objects of module [watch] (display,
    backlight, drawable, touch, rtc, battery, vibrator and the button pin)
    are not part of the sources; section 6 of the specification gives their
    call contract.  Outputs are recorded as the state they leave the
    hardware in; inputs are the answers the drivers give when polled:
    [rtc_advanced] is what [rtc.update()] returns, [rtc_uptime] and
    [rtc_uptime_ms] what [rtc.uptime] and [rtc.get_uptime_ms()] return,
    [touch_pending] the one event [touch.get_event()] hands out (and
    forgets), [battery_charging] and [button_value] the present readings. *)
Record Watch : Type := {
  display_on : bool;
  display_muted : bool;
  backlight_level : Z;
  vibrator_pulses : nat;
  rtc_advanced : bool;
  rtc_uptime : Z;
  rtc_uptime_ms : Z;
  touch_pending : option TouchEvent;
  battery_charging : bool;
  button_value : bool
}.

(** ** Manager state *)

Module PinHandler.
(** [self._pin] is the button of [Watch]; [_value] is the last sample. *)
Record t : Type := { _value : bool }.
End PinHandler.

Record Manager : Type := {
  app : option AppId;
  applications : list AppId;
  blank_after : Z;
  charging : bool;
  launcher : AppId;
  _brightness : Z;
  _button : PinHandler.t;
  sleep_at : attr (option Z);
  event_mask : attr Z;
  tick_period_ms : attr Z;
  tick_expiry : attr (option Z)
}.

(** Calls the manager makes on its collaborators, in the order made. *)
Inductive Capability : Type :=
| Foreground
| Background
| Tick (n : Z)
| Press (kind : Z) (state : bool)
| Swipe (e : TouchEvent)
| Touch (e : TouchEvent)
| Sleep
| Wake.

Inductive Call : Type :=
| DisplayPoweron
| DisplayPoweroff
| DisplayMute (b : bool)
| BacklightSet (level : Z)
| DrawableReset
| VibratorPulse
| TouchGetEvent
| RtcUpdate
| BatteryCharging
| ButtonValue
| GcCollect
| AppCall (a : AppId) (c : Capability).

(** ** Outcomes *)

Inductive result (S A : Type) : Type :=
| Ok (a : A) (s : S)
| Raise (e : exn)
| Diverge.
Arguments Raise {S A} e.
Arguments Diverge {S A}.

Section Store.

(** Private state of the application objects. *)
Variable AppState : Type.

(** What an application method can see and change. *)
Record World : Type := {
  mgr : Manager;
  hw : Watch;
  heap : AppState
}.

(** The store together with the record of the calls the manager made; the
    record is out of the applications' reach. *)
Record Sys : Type := {
  world : World;
  trace : list Call
}.

(** A method of an application object. *)
Definition H (A : Type) : Type := World -> result World A.

(** A method of the manager. *)
Definition M (A : Type) : Type := Sys -> result Sys A.

Definition ret {A : Type} (a : A) : M A := fun s => Ok a s.

Definition bind {A B : Type} (m : M A) (f : A -> M B) : M B :=
  fun s => match m s with
           | Ok a s' => f a s'
           | Raise e => Raise e
           | Diverge => Diverge
           end.

Definition raise {A : Type} (e : exn) : M A := fun _ => Raise e.

Definition diverge {A : Type} : M A := fun _ => Diverge.

Definition lift {A : Type} (h : H A) : M A :=
  fun s => match h (world s) with
           | Ok a w => Ok a {| world := w; trace := trace s |}
           | Raise e => Raise e
           | Diverge => Diverge
           end.

Definition gets {A : Type} (f : World -> A) : M A :=
  fun s => Ok (f (world s)) s.

Definition record (c : Call) : M unit :=
  fun s => Ok tt {| world := world s; trace := trace s ++ [c] |}.

Definition modify_mgr (f : Manager -> Manager) : M unit :=
  fun s => Ok tt {| world := {| mgr := f (mgr (world s));
                                hw := hw (world s);
                                heap := heap (world s) |};
                    trace := trace s |}.

Definition modify_hw (f : Watch -> Watch) : M unit :=
  fun s => Ok tt {| world := {| mgr := mgr (world s);
                                hw := f (hw (world s));
                                heap := heap (world s) |};
                    trace := trace s |}.

(** Reading an attribute that may be unbound. *)
Definition getattr {A : Type} (f : Manager -> attr A) : M A :=
  fun s => match f (mgr (world s)) with
           | Bound a => Ok a s
           | Unbound => Raise AttributeError
           end.

End Store.

Arguments ret {AppState A} a.
Arguments bind {AppState A B} m f.
Arguments raise {AppState A} e.
Arguments diverge {AppState A}.
Arguments lift {AppState A} h.
Arguments gets {AppState A} f.
Arguments record {AppState} c.
Arguments modify_mgr {AppState} f.
Arguments modify_hw {AppState} f.
Arguments getattr {AppState A} f.

Declare Scope manager_scope.
Delimit Scope manager_scope with mgr.
Notation "x <- m ;; k" := (bind m (fun x => k))
  (at level 61, m at next level, right associativity) : manager_scope.
Notation "m ;; k" := (bind m (fun _ => k))
  (at level 61, right associativity) : manager_scope.
Open Scope manager_scope.

(** ** Applications *)

Module App.
(** The capability interface.  A Python object either has a method or
    lacks it; calling a method it lacks raises [AttributeError].  The
    manager only looks at the truth value of what [press], [swipe] and
    [sleep] return. *)
Record t (AppState : Type) : Type := {
  foreground : option (H AppState unit);
  background : option (H AppState unit);
  tick : option (Z -> H AppState unit);
  press : option (Z -> bool -> H AppState bool);
  swipe : option (TouchEvent -> H AppState bool);
  touch : option (TouchEvent -> H AppState unit);
  sleep : option (H AppState bool);
  wake : option (H AppState unit)
}.
End App.

(** ** Field updates *)

Definition with_app (v : option AppId) (m : Manager) : Manager :=
  {| app := v; applications := applications m; blank_after := blank_after m;
     charging := charging m; launcher := launcher m;
     _brightness := _brightness m; _button := _button m;
     sleep_at := sleep_at m; event_mask := event_mask m;
     tick_period_ms := tick_period_ms m; tick_expiry := tick_expiry m |}.

Definition with_applications (v : list AppId) (m : Manager) : Manager :=
  {| app := app m; applications := v; blank_after := blank_after m;
     charging := charging m; launcher := launcher m;
     _brightness := _brightness m; _button := _button m;
     sleep_at := sleep_at m; event_mask := event_mask m;
     tick_period_ms := tick_period_ms m; tick_expiry := tick_expiry m |}.

Definition with_charging (v : bool) (m : Manager) : Manager :=
  {| app := app m; applications := applications m;
     blank_after := blank_after m;
     charging := v; launcher := launcher m;
     _brightness := _brightness m; _button := _button m;
     sleep_at := sleep_at m; event_mask := event_mask m;
     tick_period_ms := tick_period_ms m; tick_expiry := tick_expiry m |}.

Definition with_brightness (v : Z) (m : Manager) : Manager :=
  {| app := app m; applications := applications m;
     blank_after := blank_after m;
     charging := charging m; launcher := launcher m;
     _brightness := v; _button := _button m;
     sleep_at := sleep_at m; event_mask := event_mask m;
     tick_period_ms := tick_period_ms m; tick_expiry := tick_expiry m |}.

Definition with_button (v : PinHandler.t) (m : Manager) : Manager :=
  {| app := app m; applications := applications m;
     blank_after := blank_after m;
     charging := charging m; launcher := launcher m;
     _brightness := _brightness m; _button := v;
     sleep_at := sleep_at m; event_mask := event_mask m;
     tick_period_ms := tick_period_ms m; tick_expiry := tick_expiry m |}.

Definition with_sleep_at (v : option Z) (m : Manager) : Manager :=
  {| app := app m; applications := applications m;
     blank_after := blank_after m;
     charging := charging m; launcher := launcher m;
     _brightness := _brightness m; _button := _button m;
     sleep_at := Bound v; event_mask := event_mask m;
     tick_period_ms := tick_period_ms m; tick_expiry := tick_expiry m |}.

Definition with_event_mask (v : Z) (m : Manager) : Manager :=
  {| app := app m; applications := applications m;
     blank_after := blank_after m;
     charging := charging m; launcher := launcher m;
     _brightness := _brightness m; _button := _button m;
     sleep_at := sleep_at m; event_mask := Bound v;
     tick_period_ms := tick_period_ms m; tick_expiry := tick_expiry m |}.

Definition with_tick_period_ms (v : Z) (m : Manager) : Manager :=
  {| app := app m; applications := applications m;
     blank_after := blank_after m;
     charging := charging m; launcher := launcher m;
     _brightness := _brightness m; _button := _button m;
     sleep_at := sleep_at m; event_mask := event_mask m;
     tick_period_ms := Bound v; tick_expiry := tick_expiry m |}.

Definition with_tick_expiry (v : option Z) (m : Manager) : Manager :=
  {| app := app m; applications := applications m;
     blank_after := blank_after m;
     charging := charging m; launcher := launcher m;
     _brightness := _brightness m; _button := _button m;
     sleep_at := sleep_at m; event_mask := event_mask m;
     tick_period_ms := tick_period_ms m; tick_expiry := Bound v |}.

Definition with_display_on (v : bool) (w : Watch) : Watch :=
  {| display_on := v; display_muted := display_muted w;
     backlight_level := backlight_level w;
     vibrator_pulses := vibrator_pulses w;
     rtc_advanced := rtc_advanced w; rtc_uptime := rtc_uptime w;
     rtc_uptime_ms := rtc_uptime_ms w; touch_pending := touch_pending w;
     battery_charging := battery_charging w;
     button_value := button_value w |}.

Definition with_display_muted (v : bool) (w : Watch) : Watch :=
  {| display_on := display_on w; display_muted := v;
     backlight_level := backlight_level w;
     vibrator_pulses := vibrator_pulses w;
     rtc_advanced := rtc_advanced w; rtc_uptime := rtc_uptime w;
     rtc_uptime_ms := rtc_uptime_ms w; touch_pending := touch_pending w;
     battery_charging := battery_charging w;
     button_value := button_value w |}.

Definition with_backlight_level (v : Z) (w : Watch) : Watch :=
  {| display_on := display_on w; display_muted := display_muted w;
     backlight_level := v;
     vibrator_pulses := vibrator_pulses w;
     rtc_advanced := rtc_advanced w; rtc_uptime := rtc_uptime w;
     rtc_uptime_ms := rtc_uptime_ms w; touch_pending := touch_pending w;
     battery_charging := battery_charging w;
     button_value := button_value w |}.

Definition with_vibrator_pulses (v : nat) (w : Watch) : Watch :=
  {| display_on := display_on w; display_muted := display_muted w;
     backlight_level := backlight_level w;
     vibrator_pulses := v;
     rtc_advanced := rtc_advanced w; rtc_uptime := rtc_uptime w;
     rtc_uptime_ms := rtc_uptime_ms w; touch_pending := touch_pending w;
     battery_charging := battery_charging w;
     button_value := button_value w |}.

Definition with_touch_pending (v : option TouchEvent) (w : Watch) : Watch :=
  {| display_on := display_on w; display_muted := display_muted w;
     backlight_level := backlight_level w;
     vibrator_pulses := vibrator_pulses w;
     rtc_advanced := rtc_advanced w; rtc_uptime := rtc_uptime w;
     rtc_uptime_ms := rtc_uptime_ms w; touch_pending := v;
     battery_charging := battery_charging w;
     button_value := button_value w |}.

(** ** The manager *)

Section Manager.

Variable AppState : Type.

(** The application objects: what each reference answers to. *)
Variable impl : AppId -> App.t AppState.

#[local] Abbreviation M := (M AppState).

(** *** Driver calls *)

Definition display_poweron : M unit :=
  record DisplayPoweron;; modify_hw (with_display_on true).

Definition display_poweroff : M unit :=
  record DisplayPoweroff;; modify_hw (with_display_on false).

Definition display_mute (b : bool) : M unit :=
  record (DisplayMute b);; modify_hw (with_display_muted b).

Definition backlight_set (level : Z) : M unit :=
  record (BacklightSet level);; modify_hw (with_backlight_level level).

Definition drawable_reset : M unit := record DrawableReset.

Definition vibrator_pulse : M unit :=
  record VibratorPulse;;
  modify_hw (fun w => with_vibrator_pulses (S (vibrator_pulses w)) w).

Definition touch_get_event : M (option TouchEvent) :=
  record TouchGetEvent;;
  e <- gets (fun w => touch_pending (hw w));;
  modify_hw (with_touch_pending None);;
  ret e.

Definition rtc_update : M bool :=
  record RtcUpdate;; gets (fun w => rtc_advanced (hw w)).

Definition rtc_get_uptime : M Z := gets (fun w => rtc_uptime (hw w)).

Definition rtc_get_uptime_ms : M Z := gets (fun w => rtc_uptime_ms (hw w)).

Definition battery_get_charging : M bool :=
  record BatteryCharging;; gets (fun w => battery_charging (hw w)).

Definition gc_collect : M unit := record GcCollect.

(** *** PinHandler.get_event (lines 57-71) *)

Definition get_event : M (option bool) :=
  record ButtonValue;;
  new_value <- gets (fun w => button_value (hw w));;
  old_value <- gets (fun w => PinHandler._value (_button (mgr w)));;
  if Bool.eqb old_value new_value then ret None
  else
    modify_mgr (with_button {| PinHandler._value := new_value |});;
    ret (Some new_value).

(** *** Calling into an application *)

(** [a.method(...)]: the attribute lookup fails when the object lacks the
    method. *)
Definition invoke {A : Type} (a : AppId)
    (method : App.t AppState -> option (H AppState A))
    (c : Capability) : M A :=
  match method (impl a) with
  | None => raise AttributeError
  | Some h => record (AppCall a c);; lift h
  end.

(** [self.app.method(...)]; [self.app] may still be [None]. *)
Definition invoke_app {A : Type}
    (method : App.t AppState -> option (H AppState A))
    (c : Capability) : M A :=
  cur <- gets (fun w => app (mgr w));;
  match cur with
  | None => raise AttributeError
  | Some a => invoke a method c
  end.

(** ['name' in dir(obj)]. *)
Definition provides {A : Type} (method : App.t AppState -> option A)
    (a : option AppId) : bool :=
  match a with
  | None => false
  | Some a => match method (impl a) with Some _ => true | None => false end
  end.

(** *** Manager.register (lines 100-105) *)

Definition register (a : AppId) : M unit :=
  modify_mgr (fun m => with_applications (applications m ++ [a]) m).

(** *** Manager.brightness (lines 107-115) *)

Definition brightness : M Z := gets (fun w => _brightness (mgr w)).

Definition set_brightness (value : Z) : M unit :=
  modify_mgr (with_brightness value);;
  b <- gets (fun w => _brightness (mgr w));;
  backlight_set b.

(** *** Manager.switch (lines 117-139)

    Application objects are true ([if self.app:] tests for [None]). *)

Definition switch (target : AppId) : M unit :=
  cur <- gets (fun w => app (mgr w));;
  match cur with
  | Some a =>
      if provides (@App.background _) (Some a)
      then invoke a (@App.background _) Background
      else ret tt
  | None =>
      display_poweron;;
      display_mute true;;
      b <- gets (fun w => _brightness (mgr w));;
      backlight_set b;;
      up <- rtc_get_uptime;;
      modify_mgr (with_sleep_at (Some (up + 90)))
  end;;
  modify_mgr (with_event_mask 0);;
  modify_mgr (with_tick_period_ms 0);;
  modify_mgr (with_tick_expiry None);;
  modify_mgr (with_app (Some target));;
  display_mute true;;
  drawable_reset;;
  invoke target (@App.foreground _) Foreground;;
  display_mute false.

(** *** Manager.request_event, request_tick, keep_awake (lines 186-204)

    [request_tick] is given an integer period. *)

Definition request_event (mask : Z) : M unit :=
  old <- getattr event_mask;;
  modify_mgr (with_event_mask (Z.lor old mask)).

Definition request_tick (period_ms : Z) : M unit :=
  modify_mgr (with_tick_period_ms period_ms);;
  now <- rtc_get_uptime_ms;;
  modify_mgr (with_tick_expiry (Some (now + period_ms))).

Definition keep_awake : M unit :=
  up <- rtc_get_uptime;;
  after <- gets (fun w => blank_after (mgr w));;
  modify_mgr (with_sleep_at (Some (up + after))).

(** *** Manager.sleep (lines 206-215) *)

Definition sleep : M unit :=
  backlight_set 0;;
  cur <- gets (fun w => app (mgr w));;
  slept <- (if provides (@App.sleep _) cur
            then invoke_app (@App.sleep _) Sleep
            else ret false);;
  (if slept then ret tt
   else
     app_list <- gets (fun w => applications (mgr w));;
     match getitem app_list 0 with
     | None => raise IndexError
     | Some first =>
         switch first;;
         _ <- invoke_app (@App.sleep _) Sleep;;
         ret tt
     end);;
  display_poweroff;;
  c <- battery_get_charging;;
  modify_mgr (with_charging c);;
  modify_mgr (with_sleep_at None).

(** *** Manager.wake (lines 217-227) *)

Definition wake : M unit :=
  display_poweron;;
  invoke_app (@App.wake _) Wake;;
  b <- gets (fun w => _brightness (mgr w));;
  backlight_set b;;
  _ <- touch_get_event;;
  keep_awake.

(** *** Manager.navigate (lines 141-184) *)

Definition switch_index (app_list : list AppId) (i : Z) : M unit :=
  match getitem app_list i with
  | None => raise IndexError
  | Some a => switch a
  end.

(** Lines 158-163: the ring position after the current one. *)
Definition next_index (cur : option AppId) (app_list : list AppId) : Z :=
  match cur with
  | Some a =>
      if contains a app_list then
        match index a app_list with
        | Some n =>
            let i := Z.of_nat n + 1 in
            if Z.of_nat (length app_list) <=? i then 0 else i
        | None => 0
        end
      else 0
  | None => 0
  end.

(** Lines 166-171: the ring position before the current one. *)
Definition prev_index (cur : option AppId) (app_list : list AppId) : Z :=
  match cur with
  | Some a =>
      if contains a app_list then
        match index a app_list with
        | Some n =>
            let i := Z.of_nat n - 1 in
            if i <? 0 then Z.of_nat (length app_list) - 1 else i
        | None => 0
        end
      else 0
  | None => 0
  end.

(** [self.app != app_list[0]], once [app_list[0]] exists. *)
Definition differs (cur : option AppId) (first : AppId) : bool :=
  match cur with
  | Some a => negb (Nat.eqb a first)
  | None => true
  end.

Definition navigate (direction : Z) : M unit :=
  app_list <- gets (fun w => applications (mgr w));;
  if direction =? EventType.LEFT then
    cur <- gets (fun w => app (mgr w));;
    switch_index app_list (next_index cur app_list)
  else if direction =? EventType.RIGHT then
    cur <- gets (fun w => app (mgr w));;
    switch_index app_list (prev_index cur app_list)
  else if direction =? EventType.UP then
    l <- gets (fun w => launcher (mgr w));;
    switch l
  else if direction =? EventType.DOWN then
    cur <- gets (fun w => app (mgr w));;
    match getitem app_list 0 with
    | None => raise IndexError
    | Some first =>
        if differs cur first then switch_index app_list 0
        else vibrator_pulse
    end
  else if direction =? EventType.HOME then
    cur <- gets (fun w => app (mgr w));;
    match getitem app_list 0 with
    | None => raise IndexError
    | Some first =>
        if differs cur first then switch_index app_list 0
        else sleep
    end
  else ret tt.

(** *** Manager._handle_button (lines 229-241) *)

(** [bool(mask & bit)]. *)
Definition subscribed (mask bit : Z) : bool := negb (Z.land mask bit =? 0).

Definition _handle_button (state : bool) : M unit :=
  keep_awake;;
  mask <- getattr event_mask;;
  proceed <- (if subscribed mask EventMask.BUTTON
              then invoke_app
                     (fun a => option_map (fun f => f EventType.HOME state)
                                          (App.press a))
                     (Press EventType.HOME state)
              else ret true);;
  if proceed then
    if state then navigate EventType.HOME else ret tt
  else ret tt.

(** *** Manager._handle_touch (lines 243-258) *)

Definition _handle_touch (event : TouchEvent) : M unit :=
  keep_awake;;
  mask <- getattr event_mask;;
  let kind := ev_kind event in
  if kind <? 5 then
    let updown := (kind =? 1) || (kind =? 2) in
    if (subscribed mask EventMask.SWIPE_UPDOWN && updown)
       || (subscribed mask EventMask.SWIPE_LEFTRIGHT && negb updown)
    then
      go <- invoke_app (fun a => option_map (fun f => f event) (App.swipe a))
                       (Swipe event);;
      if go then navigate kind else ret tt
    else navigate kind
  else if kind =? 5 then
    mask' <- getattr event_mask;;
    if subscribed mask' EventMask.TOUCH
    then invoke_app (fun a => option_map (fun f => f event) (App.touch a))
                    (Touch event)
    else ret tt
  else ret tt.

(** *** Manager._tick (lines 260-297) *)

(** Lines 275-277, [while self.tick_expiry <= now].  [fuel] bounds the
    number of tests of the loop condition; a loop that is still running
    when it is used up is reported as [Diverge]. *)
Fixpoint catch_up (fuel : nat) (now ticks : Z) : M Z :=
  match fuel with
  | O => diverge
  | S fuel' =>
      expiry <- getattr tick_expiry;;
      match expiry with
      | None => raise TypeError
      | Some e =>
          if e <=? now then
            period <- getattr tick_period_ms;;
            modify_mgr (with_tick_expiry (Some (e + period)));;
            catch_up fuel' now (ticks + 1)
          else ret ticks
      end
  end.

(** Tests of the loop condition granted to [catch_up]: with a period of at
    least one millisecond the expiry passes [now] within [now - e + 1]
    rounds; with a period of zero or less it never does
    (see [catch_up_enough] and [catch_up_forever]). *)
Definition catch_up_fuel (e now : Z) : nat := Z.to_nat (now - e) + 2.

(** Lines 270-278: tick delivery. *)
Definition deliver_ticks : M unit :=
  advanced <- rtc_update;;
  armed <- (if advanced
            then expiry <- getattr tick_expiry;; ret (truthy expiry)
            else ret false);;
  if armed then
    now <- rtc_get_uptime_ms;;
    expiry <- getattr tick_expiry;;
    match expiry with
    | None => raise TypeError
    | Some e =>
        if e <=? now then
          ticks <- catch_up (catch_up_fuel e now) now 0;;
          invoke_app (fun a => option_map (fun f => f ticks) (App.tick a))
                     (Tick ticks)
        else ret tt
    end
  else ret tt.

(** Lines 280-282: button processing. *)
Definition poll_button : M unit :=
  state <- get_event;;
  match state with
  | Some st => _handle_button st
  | None => ret tt
  end.

(** Lines 284-286: touch processing. *)
Definition poll_touch : M unit :=
  event <- touch_get_event;;
  match event with
  | Some ev => _handle_touch ev
  | None => ret tt
  end.

(** Lines 288-289: blanking after inactivity. *)
Definition check_blank : M unit :=
  deadline <- getattr sleep_at;;
  if truthy deadline then
    up <- rtc_get_uptime;;
    match deadline with
    | Some t => if t <? up then sleep else ret tt
    | None => ret tt
    end
  else ret tt.

(** Lines 293-297: the asleep branch. *)
Definition poll_asleep : M unit :=
  _ <- rtc_update;;
  now_charging <- battery_get_charging;;
  pressed <- get_event;;
  was_charging <- gets (fun w => charging (mgr w));;
  if (match pressed with Some true => true | _ => false end)
     || negb (Bool.eqb was_charging now_charging)
  then wake
  else ret tt.

Definition _tick : M unit :=
  deadline <- getattr sleep_at;;
  if truthy deadline then
    deliver_ticks;;
    poll_button;;
    poll_touch;;
    check_blank;;
    gc_collect
  else poll_asleep.

(** *** Manager.run (lines 306-307), up to the endless loop *)

Definition run_start : M unit :=
  cur <- gets (fun w => app (mgr w));;
  match cur with
  | Some _ => ret tt
  | None =>
      app_list <- gets (fun w => applications (mgr w));;
      switch_index app_list 0
  end.

End Manager.

Arguments display_poweron {AppState}.
Arguments display_poweroff {AppState}.
Arguments display_mute {AppState} b.
Arguments backlight_set {AppState} level.
Arguments drawable_reset {AppState}.
Arguments vibrator_pulse {AppState}.
Arguments touch_get_event {AppState}.
Arguments rtc_update {AppState}.
Arguments rtc_get_uptime {AppState}.
Arguments rtc_get_uptime_ms {AppState}.
Arguments battery_get_charging {AppState}.
Arguments gc_collect {AppState}.
Arguments get_event {AppState}.
Arguments register {AppState} a.
Arguments brightness {AppState}.
Arguments set_brightness {AppState} value.
Arguments request_event {AppState} mask.
Arguments request_tick {AppState} period_ms.
Arguments keep_awake {AppState}.
Arguments catch_up {AppState} fuel now ticks.

(** *** Manager.__init__ (lines 84-98)

    The four application objects are created by the constructor; [pin] is
    the button level sampled by [PinHandler.__init__]. *)
Definition Manager_init (launcher_app clock flashlight test : AppId)
    (pin : bool) : Manager :=
  {| app := None;
     applications := [clock; flashlight; test];
     blank_after := 15;
     charging := true;
     launcher := launcher_app;
     _brightness := 2;
     _button := {| PinHandler._value := pin |};
     sleep_at := Unbound;
     event_mask := Unbound;
     tick_period_ms := Unbound;
     tick_expiry := Unbound |}.

(** ** Example applications

    The application classes are outside the sources, and the theorems hold
    of every application table [impl].  The applications below are inputs
    on which the statements are exercised; their methods only use the
    manager's services, called back through [service]. *)

(** A method body that calls [wasp.system.<service>(...)]. *)
Definition service {AppState A : Type} (m : M AppState A) : H AppState A :=
  fun w => match m {| world := w; trace := [] |} with
           | Ok a s => Ok a (world s)
           | Raise e => Raise e
           | Diverge => Diverge
           end.

Definition quiet {AppState A : Type} (a : A) : H AppState A :=
  fun w => Ok a w.

Module Demo.
Definition launcher_id : AppId := 0%nat.
Definition clock_id : AppId := 1%nat.
Definition flashlight_id : AppId := 2%nat.
Definition test_id : AppId := 3%nat.

(** Subscribes to touch events when it comes up. *)
Definition launcher_app : App.t unit :=
  {| App.foreground := Some (service (request_event EventMask.TOUCH));
     App.background := None;
     App.tick := None;
     App.press := None;
     App.swipe := None;
     App.touch := Some (fun _ => quiet tt);
     App.sleep := None;
     App.wake := None |}.

(** Ticks once a second, sleeps in place. *)
Definition clock_app : App.t unit :=
  {| App.foreground := Some (service (request_tick 1000));
     App.background := None;
     App.tick := Some (fun _ => quiet tt);
     App.press := None;
     App.swipe := None;
     App.touch := None;
     App.sleep := Some (quiet true);
     App.wake := Some (quiet tt) |}.

(** Only the lifecycle methods. *)
Definition flashlight_app : App.t unit :=
  {| App.foreground := Some (quiet tt);
     App.background := Some (quiet tt);
     App.tick := None;
     App.press := None;
     App.swipe := None;
     App.touch := None;
     App.sleep := None;
     App.wake := None |}.

(** Implements every event method and consumes the button itself. *)
Definition test_app : App.t unit :=
  {| App.foreground := Some (quiet tt);
     App.background := Some (quiet tt);
     App.tick := Some (fun _ => quiet tt);
     App.press := Some (fun _ _ => quiet false);
     App.swipe := Some (fun _ => quiet true);
     App.touch := Some (fun _ => quiet tt);
     App.sleep := None;
     App.wake := None |}.

(** Sleeps in place, but has no [wake]. *)
Definition napper_app : App.t unit :=
  {| App.foreground := Some (quiet tt);
     App.background := None;
     App.tick := None;
     App.press := None;
     App.swipe := None;
     App.touch := None;
     App.sleep := Some (quiet true);
     App.wake := None |}.

Definition napper_id : AppId := 4%nat.

Definition apps (a : AppId) : App.t unit :=
  match a with
  | 0%nat => launcher_app
  | 1%nat => clock_app
  | 2%nat => flashlight_app
  | 3%nat => test_app
  | _ => napper_app
  end.

Definition watch0 : Watch :=
  {| display_on := false; display_muted := false; backlight_level := 0;
     vibrator_pulses := 0; rtc_advanced := false; rtc_uptime := 0;
     rtc_uptime_ms := 0; touch_pending := None;
     battery_charging := true; button_value := false |}.

(** The store right after [Manager()]. *)
Definition fresh : Sys unit :=
  {| world := {| mgr := Manager_init launcher_id clock_id flashlight_id
                                     test_id false;
                 hw := watch0; heap := tt |};
     trace := [] |}.

(** A running manager showing [a], with the given subscriptions. *)
Definition showing (a : AppId) (mask : Z) (period : Z)
    (expiry deadline : option Z) (w : Watch) : Sys unit :=
  {| world :=
       {| mgr := with_sleep_at deadline
                   (with_tick_expiry expiry
                      (with_tick_period_ms period
                         (with_event_mask mask
                            (with_app (Some a)
                               (Manager_init launcher_id clock_id
                                             flashlight_id test_id
                                             false)))));
          hw := w; heap := tt |};
     trace := [] |}.
End Demo.

(** ** Example runs

    Stores in which the examples are exercised by the statements below. *)

Definition demo_watch (advanced : bool) (uptime uptime_ms : Z)
    (pending : option TouchEvent) (button : bool) : Watch :=
  {| display_on := true; display_muted := false; backlight_level := 2;
     vibrator_pulses := 0; rtc_advanced := advanced; rtc_uptime := uptime;
     rtc_uptime_ms := uptime_ms; touch_pending := pending;
     battery_charging := true; button_value := button |}.

(** What a run leaves, for runs that return. *)
Definition outcome (r : result (Sys unit) unit) : Sys unit :=
  match r with
  | Ok _ s => s
  | _ => Demo.fresh
  end.

(** The manager as [run] starts it. *)
Definition demo_booted : Sys unit := outcome (run_start Demo.apps Demo.fresh).

(** The clock, subscribed to a tick every second and due at 1000 ms, polled
    at 3200 ms: three periods late. *)
Definition demo_late : Sys unit :=
  Demo.showing Demo.clock_id 0 1000 (Some 1000) (Some 90)
    (demo_watch true 3 3200 None false).

(** The clock with the same subscription, polled at 4000 ms: exactly
    three whole periods past the expiry. *)
Definition demo_three_past : Sys unit :=
  Demo.showing Demo.clock_id 0 1000 (Some 1000) (Some 90)
    (demo_watch true 4 4000 None false).

(** The same, polled at 2000 ms: exactly one whole period past the
    expiry. *)
Definition demo_one_past : Sys unit :=
  Demo.showing Demo.clock_id 0 1000 (Some 1000) (Some 90)
    (demo_watch true 2 2000 None false).

Definition demo_launched : Sys unit :=
  outcome (switch Demo.apps Demo.launcher_id demo_booted).

(** The test application, subscribed to everything, with a tick due, the
    button going down and a touch pending. *)
Definition demo_busy : Sys unit :=
  Demo.showing Demo.test_id 15 1000 (Some 1000) (Some 90)
    (demo_watch true 1 1200
       (Some {| ev_kind := EventType.TOUCH; ev_x := 120; ev_y := 120 |})
       true).

(** The flashlight in the foreground, awake. *)
Definition demo_flashlight : Sys unit :=
  Demo.showing Demo.flashlight_id 0 0 None (Some 90)
    (demo_watch false 5 5000 None false).

(** The launcher in the foreground, subscribed to touch events. *)
Definition demo_launcher : Sys unit :=
  Demo.showing Demo.launcher_id 1 0 None (Some 90)
    (demo_watch false 5 5000 None false).

(** The clock asleep, with the button going down and a stale touch
    pending. *)
Definition demo_asleep : Sys unit :=
  Demo.showing Demo.clock_id 0 1000 (Some 5000) None
    {| display_on := false; display_muted := false; backlight_level := 0;
       vibrator_pulses := 0; rtc_advanced := true; rtc_uptime := 7;
       rtc_uptime_ms := 7000;
       touch_pending :=
         Some {| ev_kind := EventType.TOUCH; ev_x := 1; ev_y := 1 |};
       battery_charging := true; button_value := true |}.

(** The clock awake with nothing pending. *)
Definition demo_clock : Sys unit :=
  Demo.showing Demo.clock_id 0 1000 (Some 6000) (Some 90)
    (demo_watch false 5 5000 None false).

(** The ring as the constructor registers it. *)
Definition demo_ring : list AppId :=
  [Demo.clock_id; Demo.flashlight_id; Demo.test_id].

(** A ring that also holds the launcher, whose [foreground] subscribes to
    touch events. *)
Definition demo_wide_ring : list AppId :=
  [Demo.launcher_id; Demo.clock_id; Demo.flashlight_id; Demo.test_id].

(** The flashlight in the foreground of a manager with that ring. *)
Definition demo_wide : Sys unit :=
  {| world := {| mgr := with_applications demo_wide_ring
                          (mgr (world demo_flashlight));
                 hw := hw (world demo_flashlight); heap := tt |};
     trace := [] |}.

(** The clock registered a second time: the ring is clock, flashlight,
    clock, test, and the test application is in the foreground. *)
Definition demo_twice : Sys unit :=
  outcome (modify_mgr
             (with_applications
                [Demo.clock_id; Demo.flashlight_id; Demo.clock_id;
                 Demo.test_id])
             (Demo.showing Demo.test_id 0 0 None (Some 90)
                (demo_watch false 5 5000 None false))).

(** The flashlight has none of the optional methods but [background]: a
    poll step with the button going down, a switch and a [sleep()] all
    return. *)
Definition demo_pressed : Sys unit :=
  Demo.showing Demo.flashlight_id 0 0 None (Some 90)
    (demo_watch true 5 5000
       (Some {| ev_kind := EventType.LEFT; ev_x := 0; ev_y := 0 |}) true).

(** The napper sleeps in place but has no [wake()].  Shown while the
    inactivity deadline has passed, it is put to sleep by the poll step;
    once the button goes down, the next poll step raises. *)
Definition demo_napping : Sys unit :=
  Demo.showing Demo.napper_id 0 0 None (Some 90)
    (demo_watch true 100 100000 None false).

Definition press_button (s : Sys unit) : Sys unit :=
  {| world := {| mgr := mgr (world s);
                 hw := demo_watch true 101 101000 None true;
                 heap := heap (world s) |};
     trace := trace s |}.

(** The flashlight has no [press()]; with the button bit set in the event
    mask, a press raises. *)
Definition demo_unanswered : Sys unit :=
  Demo.showing Demo.flashlight_id EventMask.BUTTON 0 None (Some 90)
    (demo_watch true 5 5000 None true).

(** The flashlight, which has no [sleep()], registered as the default
    application. *)
Definition demo_sleepless : Sys unit :=
  outcome (modify_mgr
             (with_applications [Demo.flashlight_id; Demo.clock_id])
             demo_flashlight).

(** The clock with a tick due and a period of zero. *)
Definition demo_stuck : Sys unit :=
  Demo.showing Demo.clock_id 0 0 (Some 1000) (Some 90)
    (demo_watch true 3 3200 None false).

(** The clock polled one second before its tick is due. *)
Definition demo_early : Sys unit :=
  Demo.showing Demo.clock_id 0 1000 (Some 6000) (Some 90)
    (demo_watch true 5 5000 None false).

(** The flashlight in the foreground of a manager whose application list
    was emptied. *)
Definition demo_empty : Sys unit :=
  {| world := {| mgr := with_applications [] (mgr (world demo_flashlight));
                 hw := hw (world demo_flashlight); heap := tt |};
     trace := [] |}.

(** The clock asleep with the button being released, the charger as it
    was and a touch pending. *)
Definition demo_dozing : Sys unit :=
  {| world :=
       {| mgr := with_button {| PinHandler._value := true |}
                   (mgr (world demo_asleep));
          hw := {| display_on := false; display_muted := false;
                   backlight_level := 0; vibrator_pulses := 0;
                   rtc_advanced := true; rtc_uptime := 8;
                   rtc_uptime_ms := 8000;
                   touch_pending :=
                     Some {| ev_kind := EventType.TOUCH;
                             ev_x := 1; ev_y := 1 |};
                   battery_charging := true; button_value := false |};
          heap := tt |};
     trace := [] |}.

(** The clock, overdue for blanking, with a touch pending. *)
Definition demo_overdue : Sys unit :=
  Demo.showing Demo.clock_id 0 1000 (Some 600000) (Some 90)
    (demo_watch false 100 100000
       (Some {| ev_kind := EventType.TOUCH; ev_x := 1; ev_y := 1 |})
       false).

(** * Properties

    The vocabulary of the statements comes first, the lemmas and the
    theorems on the claims after it. *)

Unset Implicit Arguments.

Section Properties.

Variable AppState : Type.
Variable impl : AppId -> App.t AppState.

#[local] Abbreviation Sys := (Sys AppState).
#[local] Abbreviation World := (World AppState).
#[local] Abbreviation M := (M AppState).

(** * Vocabulary *)

(** ** Outcomes and stores *)

(** [m] returns from [s], and [Q] holds of what it returns. *)
Definition returns {A : Type} (m : M A) (s : Sys) (Q : A -> Sys -> Prop)
  : Prop :=
  exists a s', m s = Ok a s' /\ Q a s'.

(** If [m] returns from [s], [Q] holds of what it returns. *)
Definition ensures {A : Type} (m : M A) (s : Sys) (Q : A -> Sys -> Prop)
  : Prop :=
  forall a s', m s = Ok a s' -> Q a s'.

Definition on_mgr (f : Manager -> Manager) (s : Sys) : Sys :=
  {| world := {| mgr := f (mgr (world s)); hw := hw (world s);
                 heap := heap (world s) |};
     trace := trace s |}.

Definition on_hw (f : Watch -> Watch) (s : Sys) : Sys :=
  {| world := {| mgr := mgr (world s); hw := f (hw (world s));
                 heap := heap (world s) |};
     trace := trace s |}.

Definition logged (c : Call) (s : Sys) : Sys :=
  {| world := world s; trace := trace s ++ [c] |}.

Definition at_world (w : World) (s : Sys) : Sys :=
  {| world := w; trace := trace s |}.

(** ** The record of calls *)

(** Everything [m] adds to the record of calls satisfies [P]. *)
Definition emits {A : Type} (P : Call -> bool) (m : M A) : Prop :=
  forall s, ensures m s
    (fun _ s' => exists l, trace s' = trace s ++ l /\ forallb P l = true).

(** The three dispatches of a poll step. *)
Definition tick_delivery (c : Call) : bool :=
  match c with
  | AppCall _ (Tick _) => true
  | _ => false
  end.

Definition button_processing (c : Call) : bool :=
  match c with
  | ButtonValue | AppCall _ (Press _ _) => true
  | _ => false
  end.

Definition touch_processing (c : Call) : bool :=
  match c with
  | TouchGetEvent | AppCall _ (Swipe _) | AppCall _ (Touch _) => true
  | _ => false
  end.

(** Calls that belong to none of the three. *)
Definition neutral (c : Call) : bool :=
  negb (tick_delivery c || button_processing c || touch_processing c).

(** What each part of the awake branch may add to the record. *)
Definition tick_part (c : Call) : bool := neutral c || tick_delivery c.
Definition button_part (c : Call) : bool := neutral c || button_processing c.
Definition touch_part (c : Call) : bool := neutral c || touch_processing c.

(** ** Power state and invariants *)

Inductive PowerState : Type := AWAKE | ASLEEP.

(** The test of line 269, [if self.sleep_at:], which selects the branch of
    the poll step. *)
Definition power_state (m : Manager) : option PowerState :=
  match sleep_at m with
  | Unbound => None
  | Bound v => Some (if truthy v then AWAKE else ASLEEP)
  end.

(** The clock counts up from zero and the blanking delay is positive. *)
Definition sane (w : World) : Prop :=
  0 < blank_after (mgr w) /\ 0 <= rtc_uptime (hw w).

(** [sleep_at] is bound, and never to the integer zero. *)
Definition power_inv (w : World) : Prop :=
  sane w /\ exists v, sleep_at (mgr w) = Bound v /\ v <> Some 0.

(** A method that, when it returns, leaves [I] as it found it. *)
Definition method_keeps (I : World -> Prop) {A : Type} (h : H AppState A)
  : Prop :=
  forall w r w', I w -> h w = Ok r w' -> I w'.

Definition app_keeps (I : World -> Prop) (x : App.t AppState) : Prop :=
  (forall h, App.foreground x = Some h -> method_keeps I h) /\
  (forall h, App.background x = Some h -> method_keeps I h) /\
  (forall f n, App.tick x = Some f -> method_keeps I (f n)) /\
  (forall f k st, App.press x = Some f -> method_keeps I (f k st)) /\
  (forall f e, App.swipe x = Some f -> method_keeps I (f e)) /\
  (forall f e, App.touch x = Some f -> method_keeps I (f e)) /\
  (forall h, App.sleep x = Some h -> method_keeps I h) /\
  (forall h, App.wake x = Some h -> method_keeps I h).

(** [m], when it returns, leaves [I] as it found it. *)
Definition preserves (I : World -> Prop) {A : Type} (m : M A) : Prop :=
  forall s, I (world s) -> ensures m s (fun _ s' => I (world s')).

(** ** The two halves of [switch] *)

(** The part of [switch] that does not depend on the outgoing
    application (lines 131-139). *)
Definition enter (target : AppId) : M unit :=
  modify_mgr (with_event_mask 0);;
  modify_mgr (with_tick_period_ms 0);;
  modify_mgr (with_tick_expiry None);;
  modify_mgr (with_app (Some target));;
  display_mute true;;
  drawable_reset;;
  invoke impl target (@App.foreground _) Foreground;;
  display_mute false.

(** The manager's configuration as [switch] leaves it for the incoming
    application (lines 131-135). *)
Definition cleared (target : AppId) (m : Manager) : Manager :=
  with_app (Some target)
    (with_tick_expiry None (with_tick_period_ms 0 (with_event_mask 0 m))).

(** The store handed to [target.foreground()] once the outgoing application
    has been left in [w]. *)
Definition entering (target : AppId) (w : World) : World :=
  {| mgr := cleared target (mgr w);
     hw := with_display_muted true (hw w);
     heap := heap w |}.

(** The store after the closing [display.mute(False)]. *)
Definition unmuted (w : World) : World :=
  {| mgr := mgr w; hw := with_display_muted false (hw w); heap := heap w |}.

(** The part of [switch] that deals with the outgoing application, or with
    the first start (lines 120-128). *)
Definition leave : M unit :=
  cur <- gets (fun w => app (mgr w));;
  match cur with
  | Some a =>
      if provides impl (@App.background _) (Some a)
      then invoke impl a (@App.background _) Background
      else ret tt
  | None =>
      display_poweron;;
      display_mute true;;
      b <- gets (fun w => _brightness (mgr w));;
      backlight_set b;;
      up <- rtc_get_uptime;;
      modify_mgr (with_sleep_at (Some (up + 90)))
  end.

Definition foreground_call (c : Call) : bool :=
  match c with
  | AppCall _ Foreground => true
  | _ => false
  end.

(** ** Reachable states *)

(** The manager's methods, as callers reach them. *)
Inductive Operation : Type :=
| DoSwitch (a : AppId)
| DoNavigate (direction : Z)
| DoSleep
| DoWake
| DoKeepAwake
| DoPoll
| DoRequestEvent (mask : Z)
| DoRequestTick (period_ms : Z)
| DoSetBrightness (value : Z)
| DoRegister (a : AppId).

Definition perform (o : Operation) : M unit :=
  match o with
  | DoSwitch a => switch impl a
  | DoNavigate direction => navigate impl direction
  | DoSleep => sleep impl
  | DoWake => wake impl
  | DoKeepAwake => keep_awake
  | DoPoll => _tick impl
  | DoRequestEvent mask => request_event mask
  | DoRequestTick period_ms => request_tick period_ms
  | DoSetBrightness value => set_brightness value
  | DoRegister a => register a
  end.

(** The states of a running manager: [run] starts it from a store in
    which no application is current yet; from then on the manager's
    methods are called, and between calls the drivers' readings change
    (time passes, the button moves, a touch arrives). *)
Inductive reachable : Sys -> Prop :=
| reach_start (s s' : Sys) :
    app (mgr (world s)) = None ->
    sane (world s) ->
    run_start impl s = Ok tt s' ->
    reachable s'
| reach_call (o : Operation) (s s' : Sys) :
    reachable s ->
    perform o s = Ok tt s' ->
    reachable s'
| reach_input (readings : Watch) (s : Sys) :
    reachable s ->
    0 <= rtc_uptime readings ->
    reachable (on_hw (fun _ => readings) s).

(** The power state is one of the two, and [sleep_at] alone tells which:
    a time when awake, [None] when asleep. *)
Definition discriminated (m : Manager) : Prop :=
  exists v, sleep_at m = Bound v /\
    (power_state m = Some AWAKE \/ power_state m = Some ASLEEP) /\
    (v <> None <-> power_state m = Some AWAKE) /\
    (v = None <-> power_state m = Some ASLEEP).

(** ** The ring *)

(** Ring positions: the one after [i] and the one before it. *)
Definition after (n i : nat) : nat := if (S i <? n)%nat then S i else O.
Definition before (n i : nat) : nat :=
  match i with O => (n - 1)%nat | S j => j end.

(** [m] run [n] times in a row. *)
Fixpoint times (n : nat) (m : M unit) : M unit :=
  match n with
  | O => ret tt
  | S n' => m;; times n' m
  end.

(** The attributes that [switch] creates exist (lines 128-133), as they do
    in a manager that has made its first switch. *)
Definition started (m : Manager) : Prop :=
  (exists v, sleep_at m = Bound v) /\
  (exists mask, event_mask m = Bound mask) /\
  (exists p, tick_period_ms m = Bound p) /\
  (exists e, tick_expiry m = Bound e).

(** A lifecycle method of application [a] that, called on a started
    manager while [a] is the current application, returns and leaves the
    current application, the ring and the existence of those attributes
    as they are.  Nothing is asked of it on other stores. *)
Definition steady (a : AppId) (h : H AppState unit) : Prop :=
  forall w, started (mgr w) -> app (mgr w) = Some a ->
    exists w', h w = Ok tt w' /\
      app (mgr w') = Some a /\
      applications (mgr w') = applications (mgr w) /\
      started (mgr w').

(** ** Stores along [sleep] and [wake] *)

(** The store after [backlight.set(0)] (line 209). *)
Definition dimmed (w : World) : World :=
  {| mgr := mgr w; hw := with_backlight_level 0 (hw w); heap := heap w |}.

(** The store after lines 213-215: display off, charging state cached,
    [sleep_at] cleared. *)
Definition blanked (w : World) : World :=
  {| mgr := with_sleep_at None
              (with_charging (battery_charging (hw w)) (mgr w));
     hw := with_display_on false (hw w);
     heap := heap w |}.

(** The store handed to the application's [wake()]: the press has been
    noted by the edge detector and the display is on (line 220). *)
Definition powered_on (w : World) : World :=
  {| mgr := with_button {| PinHandler._value := true |} (mgr w);
     hw := with_display_on true (hw w);
     heap := heap w |}.

(** The store after lines 222-227: backlight restored, pending touch event
    dropped, inactivity timer reset. *)
Definition woken (w : World) : World :=
  {| mgr := with_sleep_at (Some (rtc_uptime (hw w) + blank_after (mgr w)))
              (mgr w);
     hw := with_touch_pending None
             (with_backlight_level (_brightness (mgr w)) (hw w));
     heap := heap w |}.

(** ** The usage contract *)

(** The usage contract under which the poll step runs: the current
    application has subscribed only to what it implements, the
    attributes set by the first [switch] are bound, the ring is not
    empty and its applications and the launcher can be brought to the
    foreground, and the default application can sleep.  Nothing is
    asked of the tick period. *)
Definition disciplined (w : World) : Prop :=
  (exists mask, event_mask (mgr w) = Bound mask /\
     (subscribed mask EventMask.BUTTON = true ->
      provides impl (@App.press _) (app (mgr w)) = true) /\
     (subscribed mask EventMask.SWIPE_UPDOWN = true \/
      subscribed mask EventMask.SWIPE_LEFTRIGHT = true ->
      provides impl (@App.swipe _) (app (mgr w)) = true) /\
     (subscribed mask EventMask.TOUCH = true ->
      provides impl (@App.touch _) (app (mgr w)) = true)) /\
  (exists e p, tick_expiry (mgr w) = Bound e /\
     tick_period_ms (mgr w) = Bound p /\
     (truthy e = true ->
      provides impl (@App.tick _) (app (mgr w)) = true)) /\
  (exists v, sleep_at (mgr w) = Bound v) /\
  (exists first rest, applications (mgr w) = first :: rest /\
     provides impl (@App.sleep _) (Some first) = true) /\
  (forall x, In x (applications (mgr w)) ->
     provides impl (@App.foreground _) (Some x) = true) /\
  provides impl (@App.foreground _) (Some (launcher (mgr w))) = true.

(** A method of the current application [a] that returns, keeps the
    contract and does not itself switch applications. *)
Definition orderly {A : Type} (a : AppId) (h : H AppState A) : Prop :=
  forall w, app (mgr w) = Some a -> disciplined w ->
    exists r w', h w = Ok r w' /\ disciplined w' /\ app (mgr w') = Some a.

Definition app_orderly (a : AppId) : Prop :=
  (forall h, App.foreground (impl a) = Some h -> orderly a h) /\
  (forall h, App.background (impl a) = Some h -> orderly a h) /\
  (forall f n, App.tick (impl a) = Some f -> orderly a (f n)) /\
  (forall f k st, App.press (impl a) = Some f -> orderly a (f k st)) /\
  (forall f e, App.swipe (impl a) = Some f -> orderly a (f e)) /\
  (forall f e, App.touch (impl a) = Some f -> orderly a (f e)) /\
  (forall h, App.sleep (impl a) = Some h -> orderly a h) /\
  (forall h, App.wake (impl a) = Some h -> orderly a h).

(** The poll step cannot end: awake, with the clock advanced, a tick due
    and a period of zero or less, the loop of lines 275-277 runs for
    ever. *)
Definition hangs (w : World) : bool :=
  match sleep_at (mgr w), tick_expiry (mgr w), tick_period_ms (mgr w) with
  | Bound v, Bound (Some e), Bound p =>
      truthy v && rtc_advanced (hw w) && negb (e =? 0)
      && (e <=? rtc_uptime_ms (hw w)) && (p <=? 0)
  | _, _, _ => false
  end.

(** ** Ticks, start-up and event routing *)

(** A tick is due: the clock advanced, a subscription is armed and its
    expiry is not after the millisecond reading (lines 270-273). *)
Definition tick_due (advanced : bool) (expiry : option Z) (now : Z) : bool :=
  advanced && truthy expiry &&
  match expiry with
  | Some e => e <=? now
  | None => false
  end.

(** The drivers' readings once the clock shows [up] seconds. *)
Definition at_uptime (up : Z) (w : Watch) : Watch :=
  {| display_on := display_on w; display_muted := display_muted w;
     backlight_level := backlight_level w;
     vibrator_pulses := vibrator_pulses w;
     rtc_advanced := rtc_advanced w; rtc_uptime := up;
     rtc_uptime_ms := rtc_uptime_ms w; touch_pending := touch_pending w;
     battery_charging := battery_charging w;
     button_value := button_value w |}.

(** The store right after [Manager()] (lines 84-98): no attribute that
    [switch] creates is bound yet. *)
Definition constructed (l c f t : AppId) (pin : bool) (w : Watch)
    (h : AppState) (tr : list Call) : Sys :=
  {| world := {| mgr := Manager_init l c f t pin; hw := w; heap := h |};
     trace := tr |}.

(** The store after the start-up branch of [switch] (lines 125-128). *)
Definition booted (w : World) : World :=
  {| mgr := with_sleep_at (Some (rtc_uptime (hw w) + 90)) (mgr w);
     hw := with_backlight_level (_brightness (mgr w))
             (with_display_muted true (with_display_on true (hw w)));
     heap := heap w |}.

(** The calls that change the power of the display. *)
Definition power_call (c : Call) : bool :=
  match c with
  | DisplayPoweron | DisplayPoweroff | BacklightSet _ => true
  | _ => false
  end.

(** The store after [keep_awake()]. *)
Definition refreshed (s : Sys) : Sys :=
  on_mgr (with_sleep_at
            (Some (rtc_uptime (hw (world s)) + blank_after (mgr (world s)))))
         s.

(** The subscription that routes a swipe of the given kind to the
    application (lines 250-252): up and down are one axis, everything
    else below 5 counts as left or right. *)
Definition swipe_bit (kind : Z) : Z :=
  if (kind =? 1) || (kind =? 2) then EventMask.SWIPE_UPDOWN
  else EventMask.SWIPE_LEFTRIGHT.

(** Touch events that lead to nothing: kinds above 5, a touch without the
    TOUCH subscription, and kinds below 1 without the left/right
    subscription. *)
Definition stray (mask kind : Z) : bool :=
  (5 <? kind)
  || ((kind =? 5) && negb (subscribed mask EventMask.TOUCH))
  || ((kind <? 1) && negb (subscribed mask EventMask.SWIPE_LEFTRIGHT)).

(** The inactivity deadline, if there is one, has not passed. *)
Definition rested (w : World) : Prop :=
  0 <= blank_after (mgr w) /\
  exists v, sleep_at (mgr w) = Bound v /\
    match v with
    | Some t => rtc_uptime (hw w) <= t
    | None => True
    end.

(** * Lemmas and theorems *)

(** ** Reasoning about outcomes *)

Lemma bind_ok_inv {A B : Type} (m : M A) (f : A -> M B) (s s' : Sys) (b : B) :
  bind m f s = Ok b s' ->
  exists a s1, m s = Ok a s1 /\ f a s1 = Ok b s'.
Proof.
  unfold bind. destruct (m s) as [a s1| |]; try discriminate.
  intros E. exists a, s1. split; [reflexivity | exact E].
Qed.

Lemma bind_ok {A B : Type} (m : M A) (f : A -> M B) (s s1 : Sys) (a : A) :
  m s = Ok a s1 -> bind m f s = f a s1.
Proof. unfold bind. intros ->. reflexivity. Qed.

Section Rules.
Context {A B : Type}.
Implicit Types (Q : A -> Sys -> Prop) (s : Sys).

Lemma returns_bind (m : M A) (k : A -> M B) s (R : B -> Sys -> Prop) :
  returns m s (fun a s1 => returns (k a) s1 R) -> returns (bind m k) s R.
Proof.
  intros (a & s1 & E & b & s2 & E2 & HR).
  exists b, s2. split; [now rewrite (bind_ok m k s s1 a E) | exact HR].
Qed.

Lemma ensures_bind (m : M A) (k : A -> M B) s (R : B -> Sys -> Prop) :
  ensures m s (fun a s1 => ensures (k a) s1 R) -> ensures (bind m k) s R.
Proof.
  intros Hm b s2 E. apply bind_ok_inv in E as (a & s1 & E1 & E2).
  exact (Hm a s1 E1 b s2 E2).
Qed.

Lemma returns_ret (a : A) s Q : Q a s -> returns (ret a) s Q.
Proof. intros HQ. exists a, s. split; [reflexivity | exact HQ]. Qed.

Lemma ensures_ret (a : A) s Q : Q a s -> ensures (ret a) s Q.
Proof. intros HQ a' s' E. injection E as <- <-. exact HQ. Qed.

Lemma returns_gets (f : World -> A) s Q :
  Q (f (world s)) s -> returns (gets f) s Q.
Proof. intros HQ. eexists _, _. split; [reflexivity | exact HQ]. Qed.

Lemma ensures_gets (f : World -> A) s Q :
  Q (f (world s)) s -> ensures (gets f) s Q.
Proof. intros HQ a' s' E. injection E as <- <-. exact HQ. Qed.

Lemma returns_getattr (f : Manager -> attr A) s Q (a : A) :
  f (mgr (world s)) = Bound a -> Q a s -> returns (getattr f) s Q.
Proof.
  intros E HQ. exists a, s. split; [| exact HQ].
  unfold getattr. now rewrite E.
Qed.

Lemma ensures_getattr (f : Manager -> attr A) s Q :
  (forall a, f (mgr (world s)) = Bound a -> Q a s) ->
  ensures (getattr f) s Q.
Proof.
  intros HQ a s'. unfold getattr.
  destruct (f (mgr (world s))) as [|a0] eqn:E; try discriminate.
  intros E'. injection E' as <- <-. now apply HQ.
Qed.

Lemma returns_lift (h : H AppState A) s Q :
  (exists a w, h (world s) = Ok a w /\ Q a (at_world w s)) ->
  returns (lift h) s Q.
Proof.
  intros (a & w & E & HQ). exists a, (at_world w s). split; [| exact HQ].
  unfold lift. now rewrite E.
Qed.

Lemma ensures_lift (h : H AppState A) s Q :
  (forall a w, h (world s) = Ok a w -> Q a (at_world w s)) ->
  ensures (lift h) s Q.
Proof.
  intros HQ a s'. unfold lift.
  destruct (h (world s)) as [a0 w| |] eqn:E; try discriminate.
  intros E'. injection E' as <- <-. now apply HQ.
Qed.

Lemma ensures_raise (e : exn) s Q : ensures (raise e) s Q.
Proof. intros a s' E. discriminate E. Qed.

Lemma ensures_diverge s Q : ensures diverge s Q.
Proof. intros a s' E. discriminate E. Qed.

Lemma returns_weaken (m : M A) s Q (Q' : A -> Sys -> Prop) :
  returns m s Q -> (forall a s', Q a s' -> Q' a s') -> returns m s Q'.
Proof. intros (a & s' & E & HQ) Himp. exists a, s'. auto. Qed.

Lemma ensures_weaken (m : M A) s Q (Q' : A -> Sys -> Prop) :
  ensures m s Q -> (forall a s', Q a s' -> Q' a s') -> ensures m s Q'.
Proof. intros Hm Himp a s' E. auto. Qed.
End Rules.

Lemma returns_record (c : Call) (s : Sys) (Q : unit -> Sys -> Prop) :
  Q tt (logged c s) -> returns (record c) s Q.
Proof. intros HQ. eexists _, _. split; [reflexivity | exact HQ]. Qed.

Lemma ensures_record (c : Call) (s : Sys) (Q : unit -> Sys -> Prop) :
  Q tt (logged c s) -> ensures (record c) s Q.
Proof. intros HQ a' s' E. injection E as <- <-. exact HQ. Qed.

Lemma returns_modify_mgr f (s : Sys) (Q : unit -> Sys -> Prop) :
  Q tt (on_mgr f s) -> returns (modify_mgr f) s Q.
Proof. intros HQ. eexists _, _. split; [reflexivity | exact HQ]. Qed.

Lemma ensures_modify_mgr f (s : Sys) (Q : unit -> Sys -> Prop) :
  Q tt (on_mgr f s) -> ensures (modify_mgr f) s Q.
Proof. intros HQ a' s' E. injection E as <- <-. exact HQ. Qed.

Lemma returns_modify_hw f (s : Sys) (Q : unit -> Sys -> Prop) :
  Q tt (on_hw f s) -> returns (modify_hw f) s Q.
Proof. intros HQ. eexists _, _. split; [reflexivity | exact HQ]. Qed.

Lemma ensures_modify_hw f (s : Sys) (Q : unit -> Sys -> Prop) :
  Q tt (on_hw f s) -> ensures (modify_hw f) s Q.
Proof. intros HQ a' s' E. injection E as <- <-. exact HQ. Qed.

(** ** The record of calls *)

Section Emits.
Context {A B : Type}.
Variable P : Call -> bool.

Lemma emits_nothing (m : M A) :
  (forall s a s', m s = Ok a s' -> trace s' = trace s) -> emits P m.
Proof.
  intros Hm s a s' E. exists []. rewrite app_nil_r.
  split; [exact (Hm s a s' E) | reflexivity].
Qed.

Lemma emits_ret (a : A) : emits P (ret a).
Proof. apply emits_nothing. intros s a' s' E. now injection E as _ <-. Qed.

Lemma emits_gets (f : World -> A) : emits P (gets f).
Proof. apply emits_nothing. intros s a' s' E. now injection E as _ <-. Qed.

Lemma emits_getattr (f : Manager -> attr A) : emits P (getattr f).
Proof.
  apply emits_nothing. intros s a' s'. unfold getattr.
  destruct (f (mgr (world s))); try discriminate.
  intros E. now injection E as _ <-.
Qed.

Lemma emits_lift (h : H AppState A) : emits P (lift h).
Proof.
  apply emits_nothing. intros s a' s'. unfold lift.
  destruct (h (world s)); try discriminate.
  intros E. now injection E as _ <-.
Qed.

Lemma emits_raise (e : exn) : emits P (raise (A := A) e).
Proof. intros s a s' E. discriminate E. Qed.

Lemma emits_diverge : emits P (diverge (A := A)).
Proof. intros s a s' E. discriminate E. Qed.

Lemma emits_bind (m : M A) (k : A -> M B) :
  emits P m -> (forall a, emits P (k a)) -> emits P (bind m k).
Proof.
  intros Hm Hk s b s2 E. apply bind_ok_inv in E as (a & s1 & E1 & E2).
  destruct (Hm s a s1 E1) as (l1 & T1 & F1).
  destruct (Hk a s1 b s2 E2) as (l2 & T2 & F2).
  exists (l1 ++ l2). rewrite T2, T1, app_assoc. split; [reflexivity |].
  rewrite forallb_app, F1, F2. reflexivity.
Qed.

Lemma emits_weaken (P' : Call -> bool) (m : M A) :
  (forall c, P' c = true -> P c = true) -> emits P' m -> emits P m.
Proof.
  intros Himp Hm s a s' E. destruct (Hm s a s' E) as (l & T & F).
  exists l. split; [exact T |].
  rewrite forallb_forall in *. auto.
Qed.
End Emits.

Lemma emits_record (P : Call -> bool) (c : Call) :
  P c = true -> emits P (record c).
Proof.
  intros Hc s a s' E. injection E as _ <-. exists [c].
  split; [reflexivity | cbn; now rewrite Hc].
Qed.

Lemma emits_modify_mgr (P : Call -> bool) f : emits P (modify_mgr f).
Proof. apply emits_nothing. intros s a' s' E. now injection E as _ <-. Qed.

Lemma emits_modify_hw (P : Call -> bool) f : emits P (modify_hw f).
Proof. apply emits_nothing. intros s a' s' E. now injection E as _ <-. Qed.

Ltac emits_step :=
  lazymatch goal with
  | |- emits _ (bind _ _) => apply emits_bind; [| intros ?]
  | |- emits _ (ret _) => apply emits_ret
  | |- emits _ (gets _) => apply emits_gets
  | |- emits _ (getattr _) => apply emits_getattr
  | |- emits _ (lift _) => apply emits_lift
  | |- emits _ (raise _) => apply emits_raise
  | |- emits _ diverge => apply emits_diverge
  | |- emits _ (modify_mgr _) => apply emits_modify_mgr
  | |- emits _ (modify_hw _) => apply emits_modify_hw
  | |- emits _ (record _) => apply emits_record; reflexivity
  | |- emits _ (match ?x with _ => _ end) => destruct x
  end.

Ltac emits_auto := repeat emits_step.

Lemma invoke_emits {A : Type} (P : Call -> bool) a
    (method : App.t AppState -> option (H AppState A)) c :
  P (AppCall a c) = true -> emits P (invoke impl a method c).
Proof.
  intros Hc. unfold invoke. destruct (method (impl a)).
  - apply emits_bind; [now apply emits_record | intros _; apply emits_lift].
  - apply emits_raise.
Qed.

Lemma invoke_app_emits {A : Type} (P : Call -> bool)
    (method : App.t AppState -> option (H AppState A)) c :
  (forall a, P (AppCall a c) = true) -> emits P (invoke_app impl method c).
Proof.
  intros Hc. unfold invoke_app. emits_auto.
  - now apply invoke_emits.
Qed.

Lemma switch_emits target : emits neutral (switch impl target).
Proof.
  unfold switch, display_poweron, display_mute, backlight_set, drawable_reset,
    rtc_get_uptime.
  emits_auto; now apply invoke_emits.
Qed.

Lemma keep_awake_emits P : emits P keep_awake.
Proof. unfold keep_awake, rtc_get_uptime. emits_auto. Qed.

Lemma sleep_emits : emits neutral (sleep impl).
Proof.
  unfold sleep, display_poweroff, battery_get_charging, backlight_set.
  emits_auto; try (now apply invoke_app_emits); apply switch_emits.
Qed.

Lemma switch_index_emits l i : emits neutral (switch_index impl l i).
Proof. unfold switch_index. emits_auto. apply switch_emits. Qed.

Lemma navigate_emits direction : emits neutral (navigate impl direction).
Proof.
  unfold navigate, vibrator_pulse.
  emits_auto;
    solve [apply switch_index_emits | apply switch_emits | apply sleep_emits].
Qed.

Lemma get_event_emits P :
  P ButtonValue = true -> emits P get_event.
Proof.
  intros HP. unfold get_event. apply emits_bind; [now apply emits_record |].
  intros _. emits_auto.
Qed.

Lemma touch_get_event_emits P :
  P TouchGetEvent = true -> emits P touch_get_event.
Proof.
  intros HP. unfold touch_get_event.
  apply emits_bind; [now apply emits_record |]. intros _. emits_auto.
Qed.

Lemma neutral_tick_part c : neutral c = true -> tick_part c = true.
Proof. unfold tick_part. now intros ->. Qed.

Lemma neutral_button_part c : neutral c = true -> button_part c = true.
Proof. unfold button_part. now intros ->. Qed.

Lemma neutral_touch_part c : neutral c = true -> touch_part c = true.
Proof. unfold touch_part. now intros ->. Qed.

Lemma catch_up_emits P fuel now ticks :
  emits P (catch_up fuel now ticks).
Proof.
  revert ticks. induction fuel as [|fuel IH]; intros ticks; cbn [catch_up].
  - apply emits_diverge.
  - emits_auto. apply IH.
Qed.

Lemma deliver_ticks_emits : emits tick_part (deliver_ticks impl).
Proof.
  unfold deliver_ticks, rtc_update, rtc_get_uptime_ms.
  emits_auto; try apply catch_up_emits.
  now apply invoke_app_emits.
Qed.

Lemma _handle_button_emits state :
  emits button_part (_handle_button impl state).
Proof.
  unfold _handle_button.
  emits_auto; try apply keep_awake_emits;
    try (now apply invoke_app_emits);
    apply (emits_weaken _ _ _ neutral_button_part), navigate_emits.
Qed.

Lemma poll_button_emits : emits button_part (poll_button impl).
Proof.
  unfold poll_button. emits_auto.
  - now apply get_event_emits.
  - apply _handle_button_emits.
Qed.

Lemma _handle_touch_emits event :
  emits touch_part (_handle_touch impl event).
Proof.
  unfold _handle_touch.
  emits_auto; try apply keep_awake_emits;
    try (now apply invoke_app_emits);
    apply (emits_weaken _ _ _ neutral_touch_part), navigate_emits.
Qed.

Lemma poll_touch_emits : emits touch_part (poll_touch impl).
Proof.
  unfold poll_touch. emits_auto.
  - now apply touch_get_event_emits.
  - apply _handle_touch_emits.
Qed.

Lemma check_blank_emits : emits touch_part (check_blank impl).
Proof.
  unfold check_blank, rtc_get_uptime. emits_auto.
  apply (emits_weaken _ _ _ neutral_touch_part), sleep_emits.
Qed.

Lemma forallb_weaken {X : Type} (P Q : X -> bool) (l : list X) :
  (forall x, P x = true -> Q x = true) ->
  forallb P l = true -> forallb Q l = true.
Proof. intros Himp. rewrite !forallb_forall. auto. Qed.


(** ** The power state *)

Section Preserves.
Variable I : World -> Prop.

Lemma preserves_bind {A B : Type} (m : M A) (k : A -> M B) :
  preserves I m -> (forall a, preserves I (k a)) -> preserves I (bind m k).
Proof.
  intros Hm Hk s HI b s2 E. apply bind_ok_inv in E as (a & s1 & E1 & E2).
  exact (Hk a s1 (Hm s HI a s1 E1) b s2 E2).
Qed.

Lemma preserves_still {A : Type} (m : M A) :
  (forall s a s', m s = Ok a s' -> world s' = world s) -> preserves I m.
Proof. intros Hm s HI a s' E. now rewrite (Hm s a s' E). Qed.

Lemma preserves_ret {A : Type} (a : A) : preserves I (ret a).
Proof. apply preserves_still. intros s a' s' E. now injection E as _ <-. Qed.

Lemma preserves_gets {A : Type} (f : World -> A) : preserves I (gets f).
Proof. apply preserves_still. intros s a' s' E. now injection E as _ <-. Qed.

Lemma preserves_record (c : Call) : preserves I (record c).
Proof. apply preserves_still. intros s a' s' E. now injection E as _ <-. Qed.

Lemma preserves_getattr {A : Type} (f : Manager -> attr A) :
  preserves I (getattr f).
Proof.
  apply preserves_still. intros s a' s'. unfold getattr.
  destruct (f (mgr (world s))); try discriminate.
  intros E. now injection E as _ <-.
Qed.

Lemma preserves_raise {A : Type} (e : exn) : preserves I (raise (A := A) e).
Proof. intros s _ a s' E. discriminate E. Qed.

Lemma preserves_diverge {A : Type} : preserves I (diverge (A := A)).
Proof. intros s _ a s' E. discriminate E. Qed.

Lemma preserves_lift {A : Type} (h : H AppState A) :
  method_keeps I h -> preserves I (lift h).
Proof.
  intros Hh s HI a s'. unfold lift.
  destruct (h (world s)) as [r w| |] eqn:E; try discriminate.
  intros E'. injection E' as _ <-. exact (Hh _ _ _ HI E).
Qed.

Lemma preserves_modify_mgr f :
  (forall w, I w -> I {| mgr := f (mgr w); hw := hw w; heap := heap w |}) ->
  preserves I (modify_mgr f).
Proof. intros Hf s HI a s' E. injection E as _ <-. now apply Hf. Qed.

Lemma preserves_modify_hw f :
  (forall w, I w -> I {| mgr := mgr w; hw := f (hw w); heap := heap w |}) ->
  preserves I (modify_hw f).
Proof. intros Hf s HI a s' E. injection E as _ <-. now apply Hf. Qed.

Lemma invoke_preserves {A : Type} a
    (method : App.t AppState -> option (H AppState A)) c :
  (forall h, method (impl a) = Some h -> method_keeps I h) ->
  preserves I (invoke impl a method c).
Proof.
  intros Hm. unfold invoke. destruct (method (impl a)) as [h|].
  - apply preserves_bind; [apply preserves_record |].
    intros _. apply preserves_lift. now apply Hm.
  - apply preserves_raise.
Qed.

Lemma invoke_app_preserves {A : Type}
    (method : App.t AppState -> option (H AppState A)) c :
  (forall a h, method (impl a) = Some h -> method_keeps I h) ->
  preserves I (invoke_app impl method c).
Proof.
  intros Hm. unfold invoke_app. apply preserves_bind.
  - apply preserves_gets.
  - intros [a|]; [apply invoke_preserves, Hm | apply preserves_raise].
Qed.
End Preserves.

Ltac pres_step :=
  lazymatch goal with
  | |- preserves _ (bind _ _) => apply preserves_bind; [| intros ?]
  | |- preserves _ (ret _) => apply preserves_ret
  | |- preserves _ (gets _) => apply preserves_gets
  | |- preserves _ (record _) => apply preserves_record
  | |- preserves _ (getattr _) => apply preserves_getattr
  | |- preserves _ (raise _) => apply preserves_raise
  | |- preserves _ diverge => apply preserves_diverge
  | |- preserves _ (modify_hw _) =>
      apply preserves_modify_hw; intros ? Hw; exact Hw
  | |- preserves _ (modify_mgr _) =>
      apply preserves_modify_mgr; intros ? Hw; exact Hw
  | |- preserves _ (match ?x with _ => _ end) => destruct x
  end.

Lemma switch_eq (target : AppId) :
  switch impl target =
  (cur <- gets (fun w => app (mgr w));;
   match cur with
   | Some a =>
       if provides impl (@App.background _) (Some a)
       then invoke impl a (@App.background _) Background
       else ret tt
   | None =>
       display_poweron;;
       display_mute true;;
       b <- gets (fun w => _brightness (mgr w));;
       backlight_set b;;
       up <- rtc_get_uptime;;
       modify_mgr (with_sleep_at (Some (up + 90)))
   end;;
   enter target).
Proof. reflexivity. Qed.

Section PowerInvariant.

(** The application methods keep the invariant, as they do when they
    change the power state through the manager only. *)
Hypothesis apps_keep : forall a, app_keeps power_inv (impl a).

Ltac keeps :=
  intros;
  match goal with
  | E : context [impl ?x] |- method_keeps _ _ =>
      destruct (apps_keep x) as (?&?&?&?&?&?&?&?);
      first
        [ solve [eauto]
        | match type of E with
          | option_map _ ?o = _ =>
              destruct o eqn:?; [| discriminate E];
              cbn in E; injection E as <-; solve [eauto]
          end ]
  end.

Lemma power_inv_armed (w : World) (t : Z) :
  sane w -> 0 < t ->
  power_inv {| mgr := with_sleep_at (Some t) (mgr w); hw := hw w;
               heap := heap w |}.
Proof.
  intros Hs Ht. split; [exact Hs |]. exists (Some t).
  split; [reflexivity |]. intros E. injection E as E. lia.
Qed.

Lemma keep_awake_sane (s : Sys) :
  sane (world s) ->
  ensures keep_awake s (fun _ s' => power_inv (world s')).
Proof.
  intros Hs a s' E. injection E as _ <-.
  apply power_inv_armed; [exact Hs |]. destruct Hs. lia.
Qed.

Lemma keep_awake_power : preserves power_inv keep_awake.
Proof. intros s [Hs _]. now apply keep_awake_sane. Qed.

Lemma bootstrap_sane (s : Sys) :
  sane (world s) ->
  ensures (display_poweron;;
           display_mute true;;
           b <- gets (fun w => _brightness (mgr w));;
           backlight_set b;;
           up <- rtc_get_uptime;;
           modify_mgr (with_sleep_at (Some (up + 90)))) s
          (fun _ s' => power_inv (world s')).
Proof.
  intros Hs a s' E. injection E as _ <-.
  refine (power_inv_armed _ _ _ _); [exact Hs |]. destruct Hs. cbn. lia.
Qed.

Lemma enter_power target : preserves power_inv (enter target).
Proof.
  unfold enter, display_mute, drawable_reset. repeat pres_step.
  apply invoke_preserves. keeps.
Qed.

(** [switch] keeps the invariant, and sets it up on first use. *)
Lemma switch_boots target (s : Sys) :
  sane (world s) ->
  app (mgr (world s)) = None \/ power_inv (world s) ->
  ensures (switch impl target) s (fun _ s' => power_inv (world s')).
Proof.
  intros Hs Hor. rewrite switch_eq. intros r s' E.
  apply bind_ok_inv in E as (cur & s0 & E0 & E). injection E0 as <- <-.
  apply bind_ok_inv in E as ([] & s1 & E1 & E).
  refine (enter_power target s1 _ _ _ E). clear E.
  destruct (app (mgr (world s))) as [a|] eqn:Ha.
  - destruct Hor as [|HI]; [discriminate |].
    destruct (provides impl _ (Some a)).
    + refine (invoke_preserves _ a _ _ _ s HI _ _ E1). keeps.
    + now injection E1 as <-.
  - exact (bootstrap_sane s Hs _ _ E1).
Qed.

Lemma switch_power target : preserves power_inv (switch impl target).
Proof. intros s HI. apply switch_boots; [apply HI | now right]. Qed.

Lemma switch_index_power l i : preserves power_inv (switch_index impl l i).
Proof. unfold switch_index. repeat pres_step. apply switch_power. Qed.

Lemma sleep_power : preserves power_inv (sleep impl).
Proof.
  unfold sleep, backlight_set, display_poweroff, battery_get_charging.
  repeat pres_step;
    try (apply invoke_app_preserves; keeps);
    try apply switch_power.
  apply preserves_modify_mgr. intros w [Hs _]. split; [exact Hs |].
  exists None. split; [reflexivity | discriminate].
Qed.

Lemma wake_power : preserves power_inv (wake impl).
Proof.
  unfold wake, display_poweron, backlight_set, touch_get_event.
  repeat pres_step;
    try (apply invoke_app_preserves; keeps);
    apply keep_awake_power.
Qed.

Lemma navigate_power direction :
  preserves power_inv (navigate impl direction).
Proof.
  unfold navigate, vibrator_pulse.
  repeat pres_step;
    solve [apply switch_index_power | apply switch_power
          | apply sleep_power].
Qed.

Lemma _handle_button_power state :
  preserves power_inv (_handle_button impl state).
Proof.
  unfold _handle_button.
  repeat pres_step;
    try (apply invoke_app_preserves; keeps);
    solve [apply keep_awake_power | apply navigate_power].
Qed.

Lemma _handle_touch_power event :
  preserves power_inv (_handle_touch impl event).
Proof.
  unfold _handle_touch.
  repeat pres_step;
    try (apply invoke_app_preserves; keeps);
    solve [apply keep_awake_power | apply navigate_power].
Qed.

Lemma catch_up_power fuel now ticks :
  preserves power_inv (catch_up fuel now ticks).
Proof.
  revert ticks. induction fuel as [|fuel IH]; intros ticks; cbn [catch_up].
  - apply preserves_diverge.
  - repeat pres_step. apply IH.
Qed.

Lemma _tick_power : preserves power_inv (_tick impl).
Proof.
  unfold _tick, deliver_ticks, poll_button, poll_touch, check_blank,
    poll_asleep, gc_collect, rtc_update, rtc_get_uptime_ms, rtc_get_uptime,
    get_event, touch_get_event, battery_get_charging.
  repeat pres_step;
    try (apply invoke_app_preserves; keeps);
    solve [apply catch_up_power | apply _handle_button_power
          | apply _handle_touch_power | apply sleep_power
          | apply wake_power].
Qed.

Lemma plain_update_power f :
  (forall m, blank_after (f m) = blank_after m) ->
  (forall m, sleep_at (f m) = sleep_at m) ->
  preserves power_inv (modify_mgr f).
Proof.
  intros Hb Hsl. apply preserves_modify_mgr.
  intros w [[Hpos Hup] (v & Hv & Hnz)]. split; [split |]; cbn.
  - now rewrite Hb.
  - exact Hup.
  - exists v. now rewrite Hsl.
Qed.

Lemma perform_power o : preserves power_inv (perform o).
Proof.
  destruct o; cbn [perform].
  - apply switch_power.
  - apply navigate_power.
  - apply sleep_power.
  - apply wake_power.
  - apply keep_awake_power.
  - apply _tick_power.
  - unfold request_event. repeat pres_step.
  - unfold request_tick, rtc_get_uptime_ms. repeat pres_step.
  - unfold set_brightness, backlight_set. repeat pres_step.
  - unfold register. apply plain_update_power; reflexivity.
Qed.

Lemma reachable_power (s : Sys) : reachable s -> power_inv (world s).
Proof.
  induction 1 as [s s' Happ Hs E | o s s' _ IH E | readings s _ IH Hup].
  - unfold run_start in E.
    apply bind_ok_inv in E as (cur & s0 & E0 & E). injection E0 as <- <-.
    rewrite Happ in E.
    apply bind_ok_inv in E as (l & s0 & E0 & E). injection E0 as <- <-.
    unfold switch_index in E.
    destruct (getitem _ 0) as [first|]; [| discriminate E].
    exact (switch_boots first s Hs (or_introl Happ) _ _ E).
  - exact (perform_power o s IH _ _ E).
  - destruct IH as [[Hpos _] Hv]. split; [split |]; assumption.
Qed.

Lemma power_inv_discriminated (w : World) :
  power_inv w -> discriminated (mgr w).
Proof.
  intros [_ (v & Hv & Hnz)]. exists v. unfold power_state. rewrite Hv.
  split; [reflexivity |]. destruct v as [t|]; cbn.
  - assert (Ht : (t =? 0) = false) by (apply Z.eqb_neq; congruence).
    rewrite Ht. cbn. repeat split; try (now left); congruence.
  - repeat split; try (now right); congruence.
Qed.

(** C2: in every state a running manager reaches, the device is in
    exactly one of the power states AWAKE and ASLEEP, which the poll step
    tells apart by [sleep_at]: [sleep_at] holds a time exactly when the
    device is awake and [None] exactly when it is asleep.  Every method
    of the manager ([switch], [navigate], [sleep], [wake], [keep_awake],
    the poll step and the services) leads from such a state to such a
    state. *)
Theorem power_state_invariant (s : Sys) :
  reachable s ->
  discriminated (mgr (world s)) /\
  forall o s', perform o s = Ok tt s' -> discriminated (mgr (world s')).
Proof.
  intros Hr. split.
  - apply power_inv_discriminated, reachable_power, Hr.
  - intros o s' E. apply power_inv_discriminated.
    exact (perform_power o s (reachable_power s Hr) _ _ E).
Qed.

End PowerInvariant.

(** ** The navigation ring *)

Lemma index_lt (a : AppId) (l : list AppId) (i : nat) :
  index a l = Some i -> (i < length l)%nat.
Proof.
  revert i. induction l as [|y l IH]; intros i; cbn; [discriminate |].
  destruct (Nat.eqb y a).
  - intros E. injection E as <-. lia.
  - destruct (index a l) as [j|]; cbn; [| discriminate].
    intros E. injection E as <-. specialize (IH j eq_refl). lia.
Qed.

Lemma index_nth (a : AppId) (l : list AppId) (i : nat) :
  NoDup l -> nth_error l i = Some a -> index a l = Some i.
Proof.
  intros Hnd. revert i. induction Hnd as [|y l Hnotin Hnd IH]; intros i.
  - destruct i; discriminate.
  - destruct i as [|i]; cbn.
    + intros E. injection E as ->. now rewrite Nat.eqb_refl.
    + intros E. destruct (Nat.eqb_spec y a) as [->|_].
      * exfalso. apply Hnotin. eapply nth_error_In, E.
      * now rewrite (IH i E).
Qed.

Lemma getitem_nth {X : Type} (l : list X) (i : nat) :
  (i < length l)%nat -> getitem l (Z.of_nat i) = nth_error l i.
Proof.
  intros Hi. unfold getitem.
  destruct (Z.ltb_spec (Z.of_nat i) 0); [lia |].
  destruct (Z.ltb_spec (Z.of_nat i) 0); [lia |].
  destruct (Z.leb_spec (Z.of_nat (length l)) (Z.of_nat i)); [lia |].
  cbn. now rewrite Nat2Z.id.
Qed.

Lemma after_lt n i : (0 < n)%nat -> (after n i < n)%nat.
Proof. unfold after. destruct (Nat.ltb_spec (S i) n); lia. Qed.

Lemma before_lt n i : (i < n)%nat -> (before n i < n)%nat.
Proof. unfold before. destruct i; lia. Qed.

Lemma before_after n i : (i < n)%nat -> before n (after n i) = i.
Proof.
  unfold after, before. intros Hi.
  destruct (Nat.ltb_spec (S i) n); [reflexivity | lia].
Qed.

Lemma after_mod n i : (i < n)%nat -> after n i = (S i mod n)%nat.
Proof.
  unfold after. intros Hi. destruct (Nat.ltb_spec (S i) n).
  - now rewrite Nat.mod_small.
  - assert (S i = n) as -> by lia. now rewrite Nat.Div0.mod_same.
Qed.

Lemma next_index_after (a : AppId) (l : list AppId) (i : nat) :
  index a l = Some i ->
  next_index (Some a) l = Z.of_nat (after (length l) i).
Proof.
  intros E. unfold next_index, contains, after. rewrite E.
  destruct (Z.leb_spec (Z.of_nat (length l)) (Z.of_nat i + 1));
    destruct (Nat.ltb_spec (S i) (length l)); lia.
Qed.

Lemma prev_index_before (a : AppId) (l : list AppId) (i : nat) :
  index a l = Some i ->
  prev_index (Some a) l = Z.of_nat (before (length l) i).
Proof.
  intros E. pose proof (index_lt _ _ _ E) as Hi.
  unfold prev_index, contains, before. rewrite E.
  destruct (Z.ltb_spec (Z.of_nat i - 1) 0); destruct i; lia.
Qed.

Ltac ret_step :=
  cbv beta;
  lazymatch goal with
  | |- returns (bind _ _) _ _ => apply returns_bind
  | |- returns (ret _) _ _ => apply returns_ret
  | |- returns (gets _) _ _ => apply returns_gets
  | |- returns (record _) _ _ => apply returns_record
  | |- returns (modify_mgr _) _ _ => apply returns_modify_mgr
  | |- returns (modify_hw _) _ _ => apply returns_modify_hw
  end.

(** Methods that do nothing, or only subscribe, are steady. *)
Lemma quiet_steady (a : AppId) : steady a (quiet tt).
Proof.
  intros w Hst Ha. exists w. split; [reflexivity |].
  split; [exact Ha |]. split; [reflexivity | exact Hst].
Qed.

Lemma request_event_steady (a : AppId) (mask : Z) :
  steady a (service (request_event mask)).
Proof.
  intros w (Hs & (old & Hold) & Hp & He) Ha.
  unfold service, request_event, bind, getattr, modify_mgr.
  cbn [world]. rewrite Hold. eexists. split; [reflexivity |].
  cbn. split; [exact Ha |]. split; [reflexivity |].
  split; [exact Hs |]. split; [now eexists |]. split; [exact Hp | exact He].
Qed.

Lemma request_tick_steady (a : AppId) (period : Z) :
  steady a (service (request_tick period)).
Proof.
  intros w (Hs & Hm & Hp & He) Ha.
  eexists. split; [reflexivity |].
  cbn. split; [exact Ha |]. split; [reflexivity |].
  split; [exact Hs |]. split; [exact Hm |]. split; now eexists.
Qed.

(** [switch(target)] lands on [target], from a started manager or from one
    that shows no application yet. *)
Lemma switch_lands (target : AppId) (s : Sys) :
  App.foreground (impl target) <> None ->
  (forall h, App.foreground (impl target) = Some h -> steady target h) ->
  (forall a h, app (mgr (world s)) = Some a ->
     App.background (impl a) = Some h -> steady a h) ->
  (app (mgr (world s)) <> None -> started (mgr (world s))) ->
  returns (switch impl target) s
    (fun _ s' => app (mgr (world s')) = Some target /\
                 applications (mgr (world s')) = applications (mgr (world s)) /\
                 started (mgr (world s'))).
Proof.
  intros Hfg Hsteady Hback Hstarted.
  destruct (App.foreground (impl target)) as [fg|] eqn:Efg;
    [clear Hfg | now destruct Hfg].
  assert (Henter : forall s0,
    (exists v, sleep_at (mgr (world s0)) = Bound v) ->
    returns (enter target) s0
      (fun _ s' => app (mgr (world s')) = Some target /\
         applications (mgr (world s')) = applications (mgr (world s0)) /\
         started (mgr (world s')))).
  { intros s0 Hs0. unfold enter, invoke, display_mute, drawable_reset.
    rewrite Efg.
    repeat ret_step. apply returns_lift.
    match goal with
    | |- exists _ _, fg ?w0 = _ /\ _ =>
        destruct (Hsteady fg eq_refl w0) as (w' & E & Happ & Hring & Hst)
    end.
    { cbn. split; [exact Hs0 |]. repeat split; eexists; reflexivity. }
    { reflexivity. }
    exists tt, w'. split; [exact E |].
    repeat ret_step.
    cbn. split; [exact Happ |]. split; [exact Hring | exact Hst]. }
  rewrite switch_eq. do 2 ret_step.
  destruct (app (mgr (world s))) as [a|] eqn:Ha.
  - assert (Hst : started (mgr (world s))) by (apply Hstarted; discriminate).
    unfold provides, invoke.
    destruct (App.background (impl a)) as [bg|] eqn:Ebg.
    + repeat ret_step. apply returns_lift.
      match goal with
      | |- exists _ _, bg ?w0 = _ /\ _ =>
          destruct (Hback a bg eq_refl Ebg w0 Hst Ha)
            as (w' & E & _ & Hring & Hst')
      end.
      exists tt, w'. split; [exact E |].
      eapply returns_weaken; [apply Henter; apply Hst' |].
      cbn. intros _ s' (H1 & H2 & H3).
      split; [exact H1 |]. split; [now rewrite H2 | exact H3].
    + repeat ret_step. apply Henter. apply Hst.
  - unfold display_poweron, display_mute, backlight_set, rtc_get_uptime.
    repeat ret_step.
    eapply returns_weaken; [apply Henter; cbn; now eexists |].
    cbn. intros _ s' (H1 & H2 & H3). now split.
Qed.

Section Ring.

(** The navigation ring of the manager at hand. *)
Variable ring : list AppId.

(** The applications on the ring can be brought to the foreground, and
    their lifecycle methods are steady. *)
Hypothesis ring_foreground :
  forall a, In a ring -> App.foreground (impl a) <> None.
Hypothesis foreground_steady :
  forall a h, In a ring -> App.foreground (impl a) = Some h -> steady a h.
Hypothesis background_steady :
  forall a h, In a ring -> App.background (impl a) = Some h -> steady a h.

(** One step round the ring, in either direction, from position [i]. *)
Lemma navigate_ring (direction : Z) (pos : nat -> nat -> nat)
    (i : nat) (a : AppId) (s : Sys) :
  (direction = EventType.LEFT /\ pos = after) \/
  (direction = EventType.RIGHT /\ pos = before) ->
  NoDup ring ->
  started (mgr (world s)) ->
  applications (mgr (world s)) = ring ->
  nth_error ring i = Some a ->
  app (mgr (world s)) = Some a ->
  returns (navigate impl direction) s
    (fun _ s' => started (mgr (world s')) /\
                 applications (mgr (world s')) = ring /\
                 exists b, nth_error ring (pos (length ring) i) = Some b /\
                           app (mgr (world s')) = Some b).
Proof.
  intros Hdir Hnd Hst Hl Ha Hcur.
  pose proof (index_nth _ _ _ Hnd Ha) as Hidx.
  pose proof (index_lt _ _ _ Hidx) as Hi.
  assert (Hpos : (pos (length ring) i < length ring)%nat).
  { destruct Hdir as [[_ ->]|[_ ->]];
      [apply after_lt; lia | now apply before_lt]. }
  assert (Hex : exists b, nth_error ring (pos (length ring) i) = Some b).
  { destruct (nth_error ring (pos (length ring) i)) as [b|] eqn:Hb;
      [now exists b | apply nth_error_None in Hb; lia]. }
  destruct Hex as [b Hb].
  assert (Hgo : returns
            (switch_index impl ring (Z.of_nat (pos (length ring) i))) s
            (fun _ s' => started (mgr (world s')) /\
               applications (mgr (world s')) = ring /\
               exists b, nth_error ring (pos (length ring) i) = Some b /\
                         app (mgr (world s')) = Some b)).
  { unfold switch_index. rewrite getitem_nth, Hb by exact Hpos.
    assert (Hin : In b ring) by (eapply nth_error_In, Hb).
    eapply returns_weaken.
    - apply switch_lands.
      + now apply ring_foreground.
      + intros h. now apply foreground_steady.
      + intros a' h Ha'. rewrite Hcur in Ha'. injection Ha' as <-.
        apply background_steady. eapply nth_error_In, Ha.
      + intros _. exact Hst.
    - cbn. intros _ s' (H1 & H2 & H3). split; [exact H3 |].
      split; [congruence |]. exists b. now split. }
  unfold navigate. do 2 ret_step. rewrite Hl.
  destruct Hdir as [[-> ->]|[-> ->]]; cbn [Z.eqb Pos.eqb EventType.LEFT
    EventType.RIGHT]; do 2 ret_step; rewrite Hcur.
  - rewrite (next_index_after _ _ _ Hidx). exact Hgo.
  - rewrite (prev_index_before _ _ _ Hidx). exact Hgo.
Qed.

Lemma left_round :
  NoDup ring ->
  forall (k i : nat) (a : AppId) (s : Sys),
  started (mgr (world s)) ->
  applications (mgr (world s)) = ring ->
  nth_error ring i = Some a ->
  app (mgr (world s)) = Some a ->
  returns (times k (navigate impl EventType.LEFT)) s
    (fun _ s' => applications (mgr (world s')) = ring /\
                 app (mgr (world s')) =
                 nth_error ring ((i + k) mod length ring)).
Proof.
  intros Hnd. induction k as [|k IH]; intros i a s Hst Hl Ha Hcur.
  - cbn [times]. apply returns_ret. split; [exact Hl |].
    rewrite Nat.add_0_r, Nat.mod_small, Ha; [exact Hcur |].
    apply nth_error_Some. congruence.
  - cbn [times]. apply returns_bind.
    eapply returns_weaken.
    + apply (navigate_ring EventType.LEFT after i a s); auto.
    + cbn beta. intros _ s1 (Hst1 & Hl1 & b & Hb & Hcur1).
      eapply returns_weaken; [exact (IH _ b s1 Hst1 Hl1 Hb Hcur1) |].
      cbn beta. intros _ s2 [Hl2 Hcur2]. split; [exact Hl2 |].
      rewrite Hcur2. f_equal.
      assert (Hi : (i < length ring)%nat)
        by (apply nth_error_Some; congruence).
      rewrite (after_mod _ _ Hi), Nat.Div0.add_mod_idemp_l.
      f_equal. lia.
Qed.

(** C7, amended: when the registered applications are pairwise distinct,
    all provide [foreground], and their [foreground] and [background],
    called on a started manager, return without switching applications
    themselves, then from any starting application that is on the ring
    of a started manager, [navigate(LEFT)] repeated [len(applications)]
    times returns, and the current application is the starting one
    again. *)
Theorem ring_closure (s : Sys) (a : AppId) :
  started (mgr (world s)) ->
  applications (mgr (world s)) = ring ->
  NoDup ring ->
  In a ring ->
  app (mgr (world s)) = Some a ->
  exists s',
    times (length (applications (mgr (world s))))
          (navigate impl EventType.LEFT) s = Ok tt s' /\
    app (mgr (world s')) = Some a /\
    applications (mgr (world s')) = applications (mgr (world s)).
Proof.
  intros Hst Hl Hnd Hin Hcur. rewrite Hl.
  destruct (In_nth_error _ _ Hin) as (i & Hi).
  destruct (left_round Hnd (length ring) i a s Hst Hl Hi Hcur)
    as ([] & s' & E & Hl' & Happ).
  exists s'. split; [exact E |]. split; [| exact Hl'].
  rewrite Happ.
  replace ((i + length ring) mod length ring)%nat with i; [exact Hi |].
  assert (Hlt : (i < length ring)%nat)
    by (apply nth_error_Some; congruence).
  rewrite <- (Nat.mul_1_l (length ring)) at 1.
  rewrite Nat.Div0.mod_add. now rewrite Nat.mod_small.
Qed.

(** C8, amended: under the same conditions, [navigate(LEFT)] followed by
    [navigate(RIGHT)] returns and leaves the starting application
    current. *)
Theorem left_then_right (s : Sys) (a : AppId) :
  started (mgr (world s)) ->
  applications (mgr (world s)) = ring ->
  NoDup ring ->
  In a ring ->
  app (mgr (world s)) = Some a ->
  exists s',
    (navigate impl EventType.LEFT;; navigate impl EventType.RIGHT) s
      = Ok tt s' /\
    app (mgr (world s')) = Some a /\
    applications (mgr (world s')) = applications (mgr (world s)).
Proof.
  intros Hst Hl Hnd Hin Hcur. rewrite Hl.
  destruct (In_nth_error _ _ Hin) as (i & Hi).
  assert (Hlt : (i < length ring)%nat)
    by (apply nth_error_Some; congruence).
  destruct (navigate_ring EventType.LEFT after i a s
              (or_introl (conj eq_refl eq_refl)) Hnd Hst Hl Hi Hcur)
    as ([] & s1 & E1 & Hst1 & Hl1 & b & Hb & Hcur1).
  destruct (navigate_ring EventType.RIGHT before _ b s1
              (or_intror (conj eq_refl eq_refl)) Hnd Hst1 Hl1 Hb Hcur1)
    as ([] & s2 & E2 & _ & Hl2 & c & Hc & Hcur2).
  exists s2. split; [now rewrite (bind_ok _ _ _ _ _ E1) |].
  split; [| exact Hl2].
  rewrite (before_after _ _ Hlt) in Hc. congruence.
Qed.

End Ring.

(** ** Switching *)

Lemma switch_split (target : AppId) (s : Sys) :
  switch impl target s = (leave;; enter target) s.
Proof.
  rewrite switch_eq. unfold leave, bind, gets.
  destruct (app (mgr (world s))); reflexivity.
Qed.

Lemma enter_run (target : AppId) (fg : H AppState unit) (s : Sys) :
  App.foreground (impl target) = Some fg ->
  enter target s =
  (lift fg;; display_mute false)
    {| world := entering target (world s);
       trace := trace s ++ [DisplayMute true; DrawableReset;
                            AppCall target Foreground] |}.
Proof.
  intros Hfg. unfold enter, invoke. rewrite Hfg.
  unfold bind, modify_mgr, display_mute, drawable_reset, record, modify_hw.
  cbn. rewrite <- !app_assoc. reflexivity.
Qed.

Lemma enter_inv (target : AppId) (s s' : Sys) :
  enter target s = Ok tt s' ->
  exists fg w1,
    App.foreground (impl target) = Some fg /\
    fg (entering target (world s)) = Ok tt w1 /\
    world s' = unmuted w1 /\
    trace s' = trace s ++ [DisplayMute true; DrawableReset;
                           AppCall target Foreground; DisplayMute false].
Proof.
  destruct (App.foreground (impl target)) as [fg|] eqn:Hfg.
  - rewrite (enter_run _ _ _ Hfg). unfold bind, lift. cbn [world trace].
    destruct (fg (entering target (world s))) as [[] w1| |] eqn:E;
      try discriminate.
    intros E'. injection E' as <-. exists fg, w1.
    cbn. rewrite <- !app_assoc. auto.
  - unfold enter, invoke. rewrite Hfg. discriminate.
Qed.

Lemma leave_emits : emits (fun c => negb (foreground_call c)) leave.
Proof.
  unfold leave, display_poweron, display_mute, backlight_set,
    rtc_get_uptime.
  emits_auto. now apply invoke_emits.
Qed.

(** C4, amended: after [switch(target)] returns, [target] has received
    exactly one [foreground()] call from it, made with [target] as the
    current application, [event_mask == 0] and no tick subscription armed,
    whatever the previous application had configured; the manager state
    the caller finds is the one that call left, so the subscriptions in
    force are exactly those [foreground()] requested (none if it requests
    none). *)
Theorem switch_clean_slate (target : AppId) (s s' : Sys) :
  switch impl target s = Ok tt s' ->
  exists fg w0 w1 before,
    App.foreground (impl target) = Some fg /\
    app (mgr w0) = Some target /\
    event_mask (mgr w0) = Bound 0 /\
    tick_period_ms (mgr w0) = Bound 0 /\
    tick_expiry (mgr w0) = Bound None /\
    fg w0 = Ok tt w1 /\
    mgr (world s') = mgr w1 /\
    trace s' = trace s ++ before ++
               [DisplayMute true; DrawableReset;
                AppCall target Foreground; DisplayMute false] /\
    forallb (fun c => negb (foreground_call c)) before = true.
Proof.
  rewrite switch_split. intros E.
  apply bind_ok_inv in E as ([] & s0 & E0 & E).
  destruct (leave_emits _ _ _ E0) as (before & T0 & F0).
  apply enter_inv in E as (fg & w1 & Hfg & Hrun & Hw & T).
  exists fg, (entering target (world s0)), w1, before.
  repeat split; try assumption.
  - now rewrite Hw.
  - now rewrite T, T0, <- app_assoc.
Qed.

(** C10: [switch] has no guard against the target being current already.
    Called with the current application [a], it calls [a.background()] if
    [a] has one, clears [event_mask] and the tick subscription, and calls
    [a.foreground()] again; [navigate(UP)] with the launcher in the
    foreground is that very call, so the launcher is backgrounded and
    foregrounded again on a cleared configuration. *)
Theorem switch_to_current_repeats (a : AppId) (fg : H AppState unit)
    (s : Sys) :
  app (mgr (world s)) = Some a ->
  App.foreground (impl a) = Some fg ->
  (forall bg w1,
      App.background (impl a) = Some bg ->
      bg (world s) = Ok tt w1 ->
      switch impl a s =
      (lift fg;; display_mute false)
        {| world := entering a w1;
           trace := trace s ++ [AppCall a Background; DisplayMute true;
                                DrawableReset; AppCall a Foreground] |}) /\
  (App.background (impl a) = None ->
      switch impl a s =
      (lift fg;; display_mute false)
        {| world := entering a (world s);
           trace := trace s ++ [DisplayMute true; DrawableReset;
                                AppCall a Foreground] |}) /\
  (launcher (mgr (world s)) = a ->
      navigate impl EventType.UP s = switch impl a s) /\
  (forall w,
      app (mgr (entering a w)) = Some a /\
      event_mask (mgr (entering a w)) = Bound 0 /\
      tick_period_ms (mgr (entering a w)) = Bound 0 /\
      tick_expiry (mgr (entering a w)) = Bound None).
Proof.
  intros Ha Hfg. split; [| split; [| split]].
  - intros bg w1 Hbg Hrun. rewrite switch_split.
    unfold leave, bind at 1, bind at 1, gets at 1. rewrite Ha.
    unfold provides, invoke. rewrite Hbg.
    unfold bind, record, lift. cbn [world trace]. rewrite Hrun.
    rewrite (enter_run _ _ _ Hfg). cbn [world trace].
    now rewrite <- app_assoc.
  - intros Hbg. rewrite switch_split.
    unfold leave, bind at 1, bind at 1, gets at 1. rewrite Ha.
    unfold provides. rewrite Hbg. cbn [ret].
    now rewrite (enter_run _ _ _ Hfg).
  - intros <-. reflexivity.
  - intros w. repeat split.
Qed.

(** ** Tick delivery *)

Lemma on_mgr_same_expiry (s : Sys) (v : option Z) :
  tick_expiry (mgr (world s)) = Bound v ->
  on_mgr (with_tick_expiry v) s = s.
Proof.
  destruct s as [[m h x] tr]. destruct m. cbn. intros ->. reflexivity.
Qed.

(** The loop of lines 275-277 makes [k] rounds when the [k]-th expiry
    point from [e] on is the last one not after [now]. *)
Lemma catch_up_rounds (p now : Z) :
  0 < p ->
  forall (k fuel : nat) (e t : Z) (s : Sys),
  tick_expiry (mgr (world s)) = Bound (Some e) ->
  tick_period_ms (mgr (world s)) = Bound p ->
  now < e + Z.of_nat k * p ->
  ((0 < k)%nat -> e + (Z.of_nat k - 1) * p <= now) ->
  (k < fuel)%nat ->
  catch_up fuel now t s =
  Ok (t + Z.of_nat k) (on_mgr (with_tick_expiry (Some (e + Z.of_nat k * p))) s).
Proof.
  intros Hp. induction k as [|k IH]; intros fuel e t s He Hper Hlt Hge Hfuel;
    (destruct fuel as [|fuel]; [lia |]); cbn [catch_up];
    unfold bind at 1, getattr at 1; rewrite He.
  - destruct (Z.leb_spec e now); [lia |].
    change (Z.of_nat 0) with 0. rewrite Z.mul_0_l, !Z.add_0_r.
    now rewrite on_mgr_same_expiry.
  - rewrite Nat2Z.inj_succ in *.
    assert (e <= now) by nia.
    destruct (Z.leb_spec e now); [| lia].
    unfold bind at 1, getattr at 1. rewrite Hper.
    unfold bind at 1, modify_mgr at 1.
    rewrite (IH fuel (e + p) (t + 1)); try reflexivity.
    + replace (e + Z.succ (Z.of_nat k) * p) with (e + p + Z.of_nat k * p)
        by lia.
      replace (t + Z.succ (Z.of_nat k)) with (t + 1 + Z.of_nat k) by lia.
      reflexivity.
    + exact Hper.
    + lia.
    + intros Hk. specialize (Hge ltac:(lia)). lia.
    + lia.
Qed.

(** With a period of zero or less the loop never ends. *)
Lemma catch_up_forever (p now : Z) :
  p <= 0 ->
  forall (fuel : nat) (e t : Z) (s : Sys),
  tick_expiry (mgr (world s)) = Bound (Some e) ->
  tick_period_ms (mgr (world s)) = Bound p ->
  e <= now ->
  catch_up fuel now t s = Diverge.
Proof.
  intros Hp. induction fuel as [|fuel IH]; intros e t s He Hper Hle;
    cbn [catch_up]; [reflexivity |].
  unfold bind at 1, getattr at 1. rewrite He.
  destruct (Z.leb_spec e now); [| lia].
  unfold bind at 1, getattr at 1. rewrite Hper.
  unfold bind at 1, modify_mgr at 1.
  apply (IH (e + p)); try reflexivity; try lia. exact Hper.
Qed.

(** Tick delivery with a tick due and a period of zero or less does not
    end. *)
Lemma deliver_ticks_forever (s : Sys) (t p : Z) :
  rtc_advanced (hw (world s)) = true ->
  tick_expiry (mgr (world s)) = Bound (Some t) ->
  t <> 0 ->
  t <= rtc_uptime_ms (hw (world s)) ->
  tick_period_ms (mgr (world s)) = Bound p ->
  p <= 0 ->
  deliver_ticks impl s = Diverge.
Proof.
  intros Hadv He Hnz Hle Hper Hp.
  assert (Htrue : truthy (Some t) = true).
  { cbn. now destruct (Z.eqb_spec t 0). }
  unfold deliver_ticks, rtc_update.
  unfold bind at 1, bind at 1, bind at 1, record at 1, gets at 1.
  cbn [world trace]. rewrite Hadv.
  unfold bind at 1, getattr at 1. cbn [world trace mgr].
  rewrite He. cbn [ret]. rewrite Htrue.
  unfold rtc_get_uptime_ms, bind at 1, gets at 1.
  unfold bind at 1, getattr at 1. cbn [world trace mgr hw]. rewrite He.
  destruct (Z.leb_spec t (rtc_uptime_ms (hw (world s)))); [| lia].
  unfold bind at 1.
  now rewrite (catch_up_forever p _ Hp (catch_up_fuel t _) t 0
                 (logged RtcUpdate s)).
Qed.

(** With a positive period the rounds granted by [catch_up_fuel] are
    enough: the loop ends, having advanced the expiry past [now]. *)
Lemma catch_up_enough (p now e : Z) (s : Sys) :
  0 < p ->
  tick_expiry (mgr (world s)) = Bound (Some e) ->
  tick_period_ms (mgr (world s)) = Bound p ->
  e <= now ->
  exists n, 1 <= n /\ e + (n - 1) * p <= now < e + n * p /\
    catch_up (catch_up_fuel e now) now 0 s =
    Ok n (on_mgr (with_tick_expiry (Some (e + n * p))) s).
Proof.
  intros Hp He Hper Hle.
  pose proof (Z.div_pos (now - e) p ltac:(lia) Hp) as Hq.
  pose proof (Z.mul_div_le (now - e) p Hp) as Hlo.
  pose proof (Z.mul_succ_div_gt (now - e) p Hp) as Hhi.
  pose proof (Z.div_le_upper_bound (now - e) p (now - e) Hp ltac:(nia))
    as Hub.
  exists ((now - e) / p + 1). split; [lia |]. split; [nia |].
  rewrite (catch_up_rounds p now Hp (Z.to_nat ((now - e) / p + 1))
             (catch_up_fuel e now) e 0 s He Hper).
  - rewrite Z2Nat.id by lia. reflexivity.
  - rewrite Z2Nat.id by lia. nia.
  - intros _. rewrite Z2Nat.id by lia. nia.
  - unfold catch_up_fuel. lia.
Qed.

(** C3, amended: with a tick subscription armed (non-zero expiry [e],
    period [p]), the clock reporting that time advanced and a current
    application that has [tick], if [n >= 1] expiry points
    [e, e + p, ..., e + (n-1)p] are not after [now] when the poll step
    runs while awake (that is, the expiry has been reached and [n - 1]
    whole periods have elapsed past it), then the step calls [tick(n)] on
    the current application with [tick_expiry] advanced by exactly
    [n * p], and goes on to the button; that call is the only tick the
    step delivers. *)
Theorem tick_catch_up (s : Sys) (deadline : option Z) (a : AppId)
    (f : Z -> H AppState unit) (e p n : Z) :
  sleep_at (mgr (world s)) = Bound deadline ->
  truthy deadline = true ->
  rtc_advanced (hw (world s)) = true ->
  tick_expiry (mgr (world s)) = Bound (Some e) ->
  e <> 0 ->
  tick_period_ms (mgr (world s)) = Bound p ->
  app (mgr (world s)) = Some a ->
  App.tick (impl a) = Some f ->
  1 <= n ->
  e + (n - 1) * p <= rtc_uptime_ms (hw (world s)) < e + n * p ->
  _tick impl s =
  (lift (f n);; poll_button impl;; poll_touch impl;; check_blank impl;;
   gc_collect)
    {| world := {| mgr := with_tick_expiry (Some (e + n * p)) (mgr (world s));
                   hw := hw (world s);
                   heap := heap (world s) |};
       trace := trace s ++ [RtcUpdate; AppCall a (Tick n)] |} /\
  forall s', _tick impl s = Ok tt s' ->
    exists rest,
      trace s' = trace s ++ [RtcUpdate; AppCall a (Tick n)] ++ rest /\
      forallb (fun c => negb (tick_delivery c)) rest = true.
Proof.
  intros Hsa Hawake Hadv He Hnz Hper Ha Htick Hn Hnow.
  assert (Hp : 0 < p) by nia.
  assert (Hrun : _tick impl s =
    (lift (f n);; poll_button impl;; poll_touch impl;; check_blank impl;;
     gc_collect)
      {| world := {| mgr := with_tick_expiry (Some (e + n * p))
                              (mgr (world s));
                     hw := hw (world s);
                     heap := heap (world s) |};
         trace := trace s ++ [RtcUpdate; AppCall a (Tick n)] |}).
  { unfold _tick, bind at 1, getattr at 1. rewrite Hsa, Hawake.
    unfold deliver_ticks, rtc_update.
    unfold bind at 1, bind at 1, bind at 1, record at 1, gets at 1.
    cbn [world trace]. rewrite Hadv.
    unfold bind at 1, bind at 1, getattr at 1. cbn [world trace mgr].
    rewrite He. cbn [truthy ret].
    destruct (Z.eqb_spec e 0) as [|_]; [contradiction |]. cbn [negb].
    unfold rtc_get_uptime_ms, bind at 1, bind at 1, gets at 1.
    unfold bind at 1, getattr at 1. cbn [world trace mgr hw]. rewrite He.
    destruct (Z.leb_spec e (rtc_uptime_ms (hw (world s)))); [| nia].
    unfold bind at 1, bind at 1.
    rewrite (catch_up_rounds p _ Hp (Z.to_nat n) (catch_up_fuel e
               (rtc_uptime_ms (hw (world s)))) e 0 (logged RtcUpdate s));
      try assumption.
    - rewrite Z2Nat.id by lia.
      unfold invoke_app, bind at 1, gets at 1.
      cbn [world mgr on_mgr logged app with_tick_expiry].
      rewrite Ha. unfold invoke. rewrite Htick. cbn [option_map].
      unfold bind at 1, bind at 1, record at 1. cbn.
      rewrite <- app_assoc. reflexivity.
    - rewrite Z2Nat.id by lia. lia.
    - intros _. rewrite Z2Nat.id by lia. lia.
    - unfold catch_up_fuel.
      assert (n - 1 <= rtc_uptime_ms (hw (world s)) - e) by nia. lia. }
  split; [exact Hrun |].
  intros s' E. rewrite Hrun in E.
  apply bind_ok_inv in E as ([] & s1 & E1 & E).
  apply bind_ok_inv in E as ([] & s2 & E2 & E).
  apply bind_ok_inv in E as ([] & s3 & E3 & E).
  apply bind_ok_inv in E as ([] & s4 & E4 & E).
  destruct (emits_lift (fun _ => false) (f n) _ _ _ E1) as (l1 & T1 & F1).
  destruct (poll_button_emits _ _ _ E2) as (l2 & T2 & F2).
  destruct (poll_touch_emits _ _ _ E3) as (l3 & T3 & F3).
  destruct (check_blank_emits _ _ _ E4) as (l4 & T4 & F4).
  injection E as <-.
  exists (l1 ++ l2 ++ l3 ++ l4 ++ [GcCollect]). split.
  - cbn [trace]. rewrite T4, T3, T2, T1. cbn [trace].
    rewrite <- !app_assoc. reflexivity.
  - rewrite !forallb_app. repeat (apply andb_true_iff; split);
      try reflexivity.
    + revert F1. apply forallb_weaken. discriminate.
    + revert F2. apply forallb_weaken.
      intros [| | | | | | | | | | |b []]; cbn; congruence.
    + revert F3. apply forallb_weaken.
      intros [| | | | | | | | | | |b []]; cbn; congruence.
    + revert F4. apply forallb_weaken.
      intros [| | | | | | | | | | |b []]; cbn; congruence.
Qed.

(** ** Going to sleep and waking up *)

Lemma sleep_tail (w : World) (tr : list Call) :
  (display_poweroff;;
   c <- battery_get_charging;;
   modify_mgr (with_charging c);;
   modify_mgr (with_sleep_at None)) {| world := w; trace := tr |} =
  Ok tt {| world := blanked w;
           trace := tr ++ [DisplayPoweroff; BatteryCharging] |}.
Proof. cbn. now rewrite <- app_assoc. Qed.

(** C5: [sleep()] first sets the backlight to 0.  If the current
    application has a [sleep()] that returns true, it stays current;
    if it has none, or its [sleep()] returns false, the manager switches to
    [applications[0]] and calls that application's [sleep()].  In both
    cases the display is then powered off, the charging state is read into
    [charging], and [sleep_at] is set to [None]. *)
Theorem sleep_sequence (s : Sys) :
  (forall a h w1,
      app (mgr (world s)) = Some a ->
      App.sleep (impl a) = Some h ->
      h (dimmed (world s)) = Ok true w1 ->
      sleep impl s =
      Ok tt {| world := blanked w1;
               trace := trace s ++ [BacklightSet 0; AppCall a Sleep;
                                    DisplayPoweroff; BatteryCharging] |}) /\
  (forall s1 first s2 hd r w3,
      (provides impl (@App.sleep _) (app (mgr (world s))) = false /\
       s1 = {| world := dimmed (world s);
               trace := trace s ++ [BacklightSet 0] |}) \/
      (exists a h w1,
          app (mgr (world s)) = Some a /\
          App.sleep (impl a) = Some h /\
          h (dimmed (world s)) = Ok false w1 /\
          s1 = {| world := w1;
                  trace := trace s ++ [BacklightSet 0; AppCall a Sleep] |}) ->
      getitem (applications (mgr (world s1))) 0 = Some first ->
      switch impl first s1 = Ok tt s2 ->
      app (mgr (world s2)) = Some first ->
      App.sleep (impl first) = Some hd ->
      hd (world s2) = Ok r w3 ->
      sleep impl s =
      Ok tt {| world := blanked w3;
               trace := trace s2 ++ [AppCall first Sleep; DisplayPoweroff;
                                     BatteryCharging] |}) /\
  (forall w,
      backlight_level (hw (dimmed w)) = 0 /\
      display_on (hw (blanked w)) = false /\
      charging (mgr (blanked w)) = battery_charging (hw w) /\
      sleep_at (mgr (blanked w)) = Bound None /\
      power_state (mgr (blanked w)) = Some ASLEEP).
Proof.
  split; [| split].
  - intros a h w1 Ha Hh Hrun.
    unfold sleep, backlight_set.
    unfold bind at 1, bind at 1, record at 1, modify_hw at 1.
    unfold bind at 1, gets at 1. cbn [world trace mgr].
    rewrite Ha. unfold provides. rewrite Hh.
    unfold bind at 1, invoke_app, bind at 1, gets at 1. cbn [world trace mgr].
    rewrite Ha. unfold invoke. rewrite Hh.
    unfold bind at 1, record at 1, lift. cbn [world trace].
    fold (dimmed (world s)). rewrite Hrun.
    unfold bind at 1. cbn [ret]. rewrite sleep_tail.
    now rewrite <- !app_assoc.
  - intros s1 first s2 hd r w3 Hfirst Hget Hsw Hcur Hhd Hrun.
    assert (Hphase : forall k : bool -> M unit,
      (slept <- (cur <- gets (fun w => app (mgr w));;
                 if provides impl (@App.sleep _) cur
                 then invoke_app impl (@App.sleep _) Sleep
                 else ret false);;
       k slept)
        {| world := dimmed (world s); trace := trace s ++ [BacklightSet 0] |}
      = k false s1).
    { intros k. unfold bind at 1, bind at 1, gets at 1. cbn [world trace mgr].
      destruct Hfirst as [[Hno ->]|(a & h & w1 & Ha & Hh & Hr & ->)].
      - cbn [dimmed mgr]. rewrite Hno. reflexivity.
      - cbn [dimmed mgr]. rewrite Ha. unfold provides. rewrite Hh.
        unfold invoke_app, bind at 1, gets at 1. cbn [world trace mgr dimmed].
        rewrite Ha. unfold invoke. rewrite Hh.
        unfold bind at 1, record at 1, lift. cbn [world trace].
        fold (dimmed (world s)). rewrite Hr.
        now rewrite <- !app_assoc. }
    unfold sleep, backlight_set.
    unfold bind at 1, bind at 1, record at 1, modify_hw at 1.
    transitivity
      ((slept <- (cur <- gets (fun w => app (mgr w));;
                 if provides impl (@App.sleep _) cur
                 then invoke_app impl (@App.sleep _) Sleep
                 else ret false);;
        (if slept then ret tt
         else
           app_list <- gets (fun w => applications (mgr w));;
           match getitem app_list 0 with
           | None => raise IndexError
           | Some first =>
               switch impl first;;
               _ <- invoke_app impl (@App.sleep _) Sleep;;
               ret tt
           end);;
        display_poweroff;;
        c <- battery_get_charging;;
        modify_mgr (with_charging c);;
        modify_mgr (with_sleep_at None))
         {| world := dimmed (world s);
            trace := trace s ++ [BacklightSet 0] |}).
    { unfold bind, gets. cbn [world trace mgr dimmed].
      destruct (app (mgr (world s))); reflexivity. }
    rewrite Hphase.
    unfold bind at 1, bind at 1, gets at 1. rewrite Hget.
    unfold bind at 1. rewrite Hsw.
    unfold bind at 1, invoke_app, bind at 1, gets at 1. rewrite Hcur.
    unfold invoke. rewrite Hhd.
    unfold bind at 1, record at 1, lift. cbn [world trace]. rewrite Hrun.
    cbn [ret]. rewrite sleep_tail. now rewrite <- !app_assoc.
  - intros w. repeat split.
Qed.

(** C6, amended: asleep, with the edge detector about to report a press
    (last sample released, button now down) and a current application
    whose [wake()] exists and returns, the poll step calls [wake()]: the
    display is powered on, the current application's [wake()] is called,
    the backlight is set to the cached brightness, the touch driver is
    polled and what it held is dropped without being dispatched, and
    [sleep_at] becomes [uptime + blank_after], so that with a clock that
    is not negative and a positive blanking delay the device is awake. *)
Theorem button_press_wakes (s : Sys) (v : option Z) (a : AppId)
    (h : H AppState unit) (w1 : World) :
  sleep_at (mgr (world s)) = Bound v ->
  truthy v = false ->
  PinHandler._value (_button (mgr (world s))) = false ->
  button_value (hw (world s)) = true ->
  app (mgr (world s)) = Some a ->
  App.wake (impl a) = Some h ->
  h (powered_on (world s)) = Ok tt w1 ->
  0 <= rtc_uptime (hw w1) ->
  0 < blank_after (mgr w1) ->
  _tick impl s =
    Ok tt {| world := woken w1;
             trace := trace s ++
                      [RtcUpdate; BatteryCharging; ButtonValue;
                       DisplayPoweron; AppCall a Wake;
                       BacklightSet (_brightness (mgr w1));
                       TouchGetEvent] |} /\
  display_on (hw (powered_on (world s))) = true /\
  backlight_level (hw (woken w1)) = _brightness (mgr w1) /\
  touch_pending (hw (woken w1)) = None /\
  sleep_at (mgr (woken w1)) =
    Bound (Some (rtc_uptime (hw w1) + blank_after (mgr w1))) /\
  power_state (mgr (woken w1)) = Some AWAKE.
Proof.
  intros Hsa Hasleep Hold Hnew Ha Hwake Hrun Hup Hblank.
  split; [| repeat split].
  - unfold _tick, bind at 1, getattr at 1. rewrite Hsa, Hasleep.
    unfold poll_asleep, rtc_update, battery_get_charging, get_event.
    unfold bind, record, gets, modify_mgr, ret. cbn [world trace mgr hw].
    rewrite Hold, Hnew. cbn [Bool.eqb orb].
    unfold wake, display_poweron, invoke_app.
    unfold bind, record, gets, modify_hw. cbn [world trace mgr hw].
    cbn [app with_button]. rewrite Ha. unfold invoke. rewrite Hwake.
    unfold bind, record, lift. cbn [world trace mgr hw heap].
    change (h _) with (h (powered_on (world s))). rewrite Hrun.
    cbn. rewrite <- !app_assoc. reflexivity.
  - unfold power_state. cbn.
    destruct (Z.eqb_spec (rtc_uptime (hw w1) + blank_after (mgr w1)) 0);
      [lia | reflexivity].
Qed.

(** ** Absent capabilities *)

Section Discipline.

Hypothesis apps_orderly : forall a, app_orderly a.

Lemma going_bind {A B : Type} (m : M A) (k : A -> M B) (s : Sys)
    (P : A -> Sys -> Prop) (Q : B -> Sys -> Prop) :
  returns m s P ->
  (forall a s1, P a s1 -> returns (k a) s1 Q) ->
  returns (bind m k) s Q.
Proof.
  intros Hm Hk. apply returns_bind.
  eapply returns_weaken; [exact Hm | exact Hk].
Qed.

Lemma provides_some {A : Type} (method : App.t AppState -> option A)
    (cur : option AppId) :
  provides impl method cur = true ->
  exists a x, cur = Some a /\ method (impl a) = Some x.
Proof.
  unfold provides. destruct cur as [a|]; [| discriminate].
  destruct (method (impl a)) as [x|] eqn:E; [| discriminate].
  intros _. now exists a, x.
Qed.

Lemma disciplined_mgr (w w' : World) :
  mgr w' = mgr w -> disciplined w -> disciplined w'.
Proof. intros E Hd. unfold disciplined in *. rewrite E. exact Hd. Qed.

Lemma disciplined_sleep_at (w : World) (v : option Z) :
  disciplined w ->
  disciplined {| mgr := with_sleep_at v (mgr w); hw := hw w;
                 heap := heap w |}.
Proof.
  intros (Hm & Ht & _ & Hrest). split; [exact Hm |].
  split; [exact Ht |]. split; [now exists v | exact Hrest].
Qed.

Lemma disciplined_entering (target : AppId) (w : World) :
  disciplined w -> disciplined (entering target w).
Proof.
  intros (_ & _ & Hs & Hrest). split; [| split; [| split]].
  - exists 0. cbn. repeat split; intros; try discriminate.
    now destruct H0.
  - exists None, 0. cbn. repeat split. discriminate.
  - exact Hs.
  - exact Hrest.
Qed.

Lemma invoke_going {A : Type} (a : AppId)
    (method : App.t AppState -> option (H AppState A)) (c : Capability)
    (h : H AppState A) (s : Sys) :
  method (impl a) = Some h ->
  orderly a h ->
  app (mgr (world s)) = Some a ->
  disciplined (world s) ->
  returns (invoke impl a method c) s
    (fun _ s' => disciplined (world s') /\ app (mgr (world s')) = Some a).
Proof.
  intros Hm Hh Ha Hd. unfold invoke. rewrite Hm.
  do 2 ret_step. apply returns_lift.
  destruct (Hh _ Ha Hd) as (r & w' & E & Hd' & Ha').
  exists r, w'. split; [exact E |]. now split.
Qed.

Lemma invoke_app_going {A : Type}
    (method : App.t AppState -> option (H AppState A)) (c : Capability)
    (s : Sys) :
  (forall a h, method (impl a) = Some h -> orderly a h) ->
  provides impl method (app (mgr (world s))) = true ->
  disciplined (world s) ->
  returns (invoke_app impl method c) s
    (fun _ s' => disciplined (world s') /\
                 app (mgr (world s')) = app (mgr (world s))).
Proof.
  intros Hord Hp Hd.
  destruct (provides_some _ _ Hp) as (a & h & Ha & Hm).
  unfold invoke_app. do 2 ret_step. rewrite Ha.
  now apply (invoke_going a method c h s Hm (Hord _ _ Hm)).
Qed.

Ltac orderly_method :=
  intros;
  match goal with
  | E : context [impl ?x] |- orderly ?x _ =>
      destruct (apps_orderly x) as (?&?&?&?&?&?&?&?);
      first
        [ solve [eauto]
        | match type of E with
          | option_map _ ?o = _ =>
              destruct o eqn:?; [| discriminate E];
              cbn in E; injection E as <-; solve [eauto]
          end ]
  end.

Lemma keep_awake_going (s : Sys) :
  disciplined (world s) ->
  returns keep_awake s
    (fun _ s' => disciplined (world s') /\
                 app (mgr (world s')) = app (mgr (world s))).
Proof.
  intros Hd. unfold keep_awake, rtc_get_uptime. repeat ret_step.
  split; [now apply disciplined_sleep_at | reflexivity].
Qed.

Lemma enter_going (target : AppId) (s : Sys) :
  provides impl (@App.foreground _) (Some target) = true ->
  disciplined (world s) ->
  returns (enter target) s
    (fun _ s' => disciplined (world s') /\
                 app (mgr (world s')) = Some target).
Proof.
  intros Hp Hd.
  destruct (provides_some _ _ Hp) as (a & fg & Ha & Hfg).
  injection Ha as <-.
  exists tt. rewrite (enter_run _ _ _ Hfg).
  assert (Hord : orderly target fg) by orderly_method.
  destruct (Hord (entering target (world s)) eq_refl
              (disciplined_entering _ _ Hd)) as ([] & w' & E & Hd' & Ha').
  eexists. unfold bind, lift. cbn [world trace]. rewrite E.
  split; [reflexivity |]. cbn. split; [exact Hd' | exact Ha'].
Qed.

Lemma leave_going (s : Sys) :
  disciplined (world s) ->
  returns leave s (fun _ s' => disciplined (world s')).
Proof.
  intros Hd. unfold leave. do 2 ret_step.
  destruct (app (mgr (world s))) as [a|] eqn:Ha.
  - destruct (provides impl _ (Some a)) eqn:Hp.
    + destruct (provides_some _ _ Hp) as (a' & bg & Ea & Hbg).
      injection Ea as <-.
      eapply returns_weaken.
      * apply (invoke_going a _ Background bg s Hbg); try assumption.
        orderly_method.
      * cbn beta. now intros _ s' [Hd' _].
    + now apply returns_ret.
  - unfold display_poweron, display_mute, backlight_set, rtc_get_uptime.
    repeat ret_step. now apply disciplined_sleep_at.
Qed.

Lemma switch_going (target : AppId) (s : Sys) :
  provides impl (@App.foreground _) (Some target) = true ->
  disciplined (world s) ->
  returns (switch impl target) s
    (fun _ s' => disciplined (world s') /\
                 app (mgr (world s')) = Some target).
Proof.
  intros Hp Hd. unfold returns. rewrite switch_split.
  apply (going_bind leave _ s _ _ (leave_going s Hd)).
  intros _ s1 Hd1. now apply enter_going.
Qed.

Lemma provides_map {A B : Type} (method : App.t AppState -> option A)
    (g : A -> B) (cur : option AppId) :
  provides impl (fun a => option_map g (method a)) cur =
  provides impl method cur.
Proof.
  unfold provides. destruct cur as [a|]; [| reflexivity].
  now destruct (method (impl a)).
Qed.

Lemma getitem_in {X : Type} (l : list X) (i : Z) :
  0 <= i < Z.of_nat (length l) ->
  exists x, getitem l i = Some x /\ In x l.
Proof.
  intros Hi. rewrite <- (Z2Nat.id i) by lia.
  rewrite getitem_nth by lia.
  destruct (nth_error l (Z.to_nat i)) as [x|] eqn:E.
  - exists x. split; [reflexivity |]. eapply nth_error_In, E.
  - apply nth_error_None in E. lia.
Qed.

Lemma next_index_range (cur : option AppId) (l : list AppId) :
  l <> [] -> 0 <= next_index cur l < Z.of_nat (length l).
Proof.
  intros Hl. assert (0 < Z.of_nat (length l)) by (destruct l; cbn; [easy | lia]).
  unfold next_index. destruct cur as [a|]; [| lia].
  destruct (contains a l); [| lia].
  destruct (index a l) as [n|]; [| lia].
  destruct (Z.leb_spec (Z.of_nat (length l)) (Z.of_nat n + 1)); lia.
Qed.

Lemma prev_index_range (cur : option AppId) (l : list AppId) :
  l <> [] -> 0 <= prev_index cur l < Z.of_nat (length l).
Proof.
  intros Hl. assert (0 < Z.of_nat (length l)) by (destruct l; cbn; [easy | lia]).
  unfold prev_index. destruct cur as [a|]; [| lia].
  destruct (contains a l); [| lia].
  destruct (index a l) as [n|] eqn:E; [| lia].
  apply index_lt in E.
  destruct (Z.ltb_spec (Z.of_nat n - 1) 0); lia.
Qed.

Lemma disciplined_ring (w : World) :
  disciplined w -> applications (mgr w) <> [].
Proof. intros (_ & _ & _ & (f & r & -> & _) & _). discriminate. Qed.

Lemma switch_index_going (i : Z) (s : Sys) :
  disciplined (world s) ->
  0 <= i < Z.of_nat (length (applications (mgr (world s)))) ->
  returns (switch_index impl (applications (mgr (world s))) i) s
    (fun _ s' => disciplined (world s')).
Proof.
  intros Hd Hi. destruct (getitem_in _ i Hi) as (x & Hx & Hin).
  unfold switch_index. rewrite Hx.
  eapply returns_weaken.
  - apply switch_going; [| exact Hd].
    destruct Hd as (_ & _ & _ & _ & Hfg & _). now apply Hfg.
  - cbn beta. now intros _ s' [Hd' _].
Qed.

Lemma sleep_going (s : Sys) :
  disciplined (world s) ->
  returns (sleep impl) s (fun _ s' => disciplined (world s')).
Proof.
  intros Hd. unfold sleep, backlight_set. do 6 ret_step.
  apply going_bind with (P := fun _ s1 => disciplined (world s1)).
  { cbn [world on_hw logged mgr].
    destruct (provides impl _ (app (mgr (world s)))) eqn:Hp.
    - eapply returns_weaken.
      + apply invoke_app_going; [orderly_method | exact Hp | exact Hd].
      + cbn beta. now intros _ s' [Hd' _].
    - now apply returns_ret. }
  intros slept s1 Hd1.
  apply going_bind with (P := fun _ s2 => disciplined (world s2)).
  { destruct slept; [now apply returns_ret |].
    do 2 ret_step.
    destruct Hd1 as (Hm & Ht & Hs & (first & rest & Hl & Hsl) & Hfg & Hla).
    rewrite Hl. change (getitem (first :: rest) 0) with (Some first).
    apply going_bind with
      (P := fun _ s2 => disciplined (world s2) /\
                        app (mgr (world s2)) = Some first).
    - apply switch_going.
      + apply Hfg. rewrite Hl. now left.
      + repeat split; try assumption. now exists first, rest.
    - intros _ s2 [Hd2 Ha2].
      apply going_bind with (P := fun _ s3 => disciplined (world s3)).
      + eapply returns_weaken.
        * apply invoke_app_going;
            [orderly_method | now rewrite Ha2 | exact Hd2].
        * cbn beta. now intros _ s' [Hd' _].
      + intros _ s3 Hd3. now apply returns_ret. }
  intros _ s2 Hd2. unfold display_poweroff, battery_get_charging.
  repeat ret_step.
  now apply (disciplined_sleep_at
    {| mgr := with_charging _ (mgr (world s2)); hw := _; heap := _ |}).
Qed.

Lemma navigate_going (direction : Z) (s : Sys) :
  disciplined (world s) ->
  returns (navigate impl direction) s (fun _ s' => disciplined (world s')).
Proof.
  intros Hd. pose proof (disciplined_ring _ Hd) as Hne.
  assert (Hfirst : exists first, getitem (applications (mgr (world s))) 0
                                 = Some first).
  { destruct Hd as (_ & _ & _ & (first & rest & -> & _) & _).
    now exists first. }
  assert (Hzero : 0 <= 0 < Z.of_nat (length (applications (mgr (world s))))).
  { destruct (applications (mgr (world s))); [easy | cbn; lia]. }
  unfold navigate. do 2 ret_step.
  destruct (direction =? EventType.LEFT).
  { do 2 ret_step. apply switch_index_going; [exact Hd |].
    now apply next_index_range. }
  destruct (direction =? EventType.RIGHT).
  { do 2 ret_step. apply switch_index_going; [exact Hd |].
    now apply prev_index_range. }
  destruct (direction =? EventType.UP).
  { do 2 ret_step. eapply returns_weaken.
    - apply switch_going; [apply Hd | exact Hd].
    - cbn beta. now intros _ s' [Hd' _]. }
  destruct Hfirst as (first & Hfirst).
  destruct (direction =? EventType.DOWN).
  { do 2 ret_step. rewrite Hfirst.
    destruct (differs _ first).
    - now apply switch_index_going.
    - unfold vibrator_pulse. repeat ret_step. exact Hd. }
  destruct (direction =? EventType.HOME).
  { do 2 ret_step. rewrite Hfirst.
    destruct (differs _ first).
    - now apply switch_index_going.
    - now apply sleep_going. }
  now apply returns_ret.
Qed.

Lemma _handle_button_going (state : bool) (s : Sys) :
  disciplined (world s) ->
  returns (_handle_button impl state) s
    (fun _ s' => disciplined (world s')).
Proof.
  intros Hd. unfold _handle_button.
  apply going_bind with (P := fun _ s1 => disciplined (world s1)).
  { eapply returns_weaken; [now apply keep_awake_going |].
    cbn beta. now intros _ s' [Hd' _]. }
  intros _ s1 Hd1.
  pose proof Hd1 as ((mask & Hmask & Hbutton & _) & _).
  eapply returns_bind, returns_getattr; [exact Hmask |].
  apply going_bind with (P := fun _ s2 => disciplined (world s2)).
  { destruct (subscribed mask EventMask.BUTTON) eqn:Hsub.
    - eapply returns_weaken.
      + apply invoke_app_going;
          [orderly_method | rewrite provides_map; now apply Hbutton
          | exact Hd1].
      + cbn beta. now intros _ s' [Hd' _].
    - now apply returns_ret. }
  intros proceed s2 Hd2.
  destruct proceed; [| now apply returns_ret].
  destruct state; [now apply navigate_going | now apply returns_ret].
Qed.

Lemma _handle_touch_going (event : TouchEvent) (s : Sys) :
  disciplined (world s) ->
  returns (_handle_touch impl event) s
    (fun _ s' => disciplined (world s')).
Proof.
  intros Hd. unfold _handle_touch.
  apply going_bind with (P := fun _ s1 => disciplined (world s1)).
  { eapply returns_weaken; [now apply keep_awake_going |].
    cbn beta. now intros _ s' [Hd' _]. }
  intros _ s1 Hd1.
  pose proof Hd1 as ((mask & Hmask & _ & Hswipe & Htouch) & _).
  eapply returns_bind, returns_getattr; [exact Hmask |]. cbv zeta.
  destruct (ev_kind event <? 5).
  - destruct ((subscribed mask EventMask.SWIPE_UPDOWN &&
               ((ev_kind event =? 1) || (ev_kind event =? 2)))
              || (subscribed mask EventMask.SWIPE_LEFTRIGHT &&
                  negb ((ev_kind event =? 1) || (ev_kind event =? 2))))
      eqn:Hsub.
    + apply going_bind with (P := fun _ s2 => disciplined (world s2)).
      * eapply returns_weaken.
        -- apply invoke_app_going;
             [orderly_method | rewrite provides_map | exact Hd1].
           apply Hswipe.
           apply orb_true_iff in Hsub as [Hsub|Hsub];
             apply andb_true_iff in Hsub as [Hsub _]; auto.
        -- cbn beta. now intros _ s' [Hd' _].
      * intros go s2 Hd2.
        destruct go; [now apply navigate_going | now apply returns_ret].
    + now apply navigate_going.
  - destruct (ev_kind event =? 5); [| now apply returns_ret].
    eapply returns_bind, returns_getattr; [exact Hmask |].
    destruct (subscribed mask EventMask.TOUCH) eqn:Hsub;
      [| now apply returns_ret].
    eapply returns_weaken.
    + apply invoke_app_going;
        [orderly_method | rewrite provides_map; now apply Htouch
        | exact Hd1].
    + cbn beta. now intros _ s' [Hd' _].
Qed.

Lemma disciplined_expiry (w : World) (e : option Z) (t : Z) :
  disciplined w ->
  tick_expiry (mgr w) = Bound e ->
  truthy e = true ->
  disciplined {| mgr := with_tick_expiry (Some t) (mgr w); hw := hw w;
                 heap := heap w |}.
Proof.
  intros (Hm & (e' & p & He & Hp & Harmed) & Hrest) He' Htrue.
  rewrite He in He'. injection He' as ->.
  split; [exact Hm |]. split; [| exact Hrest].
  exists (Some t), p. cbn. split; [reflexivity |]. split; [exact Hp |].
  intros _. now apply Harmed.
Qed.

Lemma deliver_ticks_going (s : Sys) :
  disciplined (world s) ->
  (forall t p,
     rtc_advanced (hw (world s)) = true ->
     tick_expiry (mgr (world s)) = Bound (Some t) ->
     t <> 0 -> t <= rtc_uptime_ms (hw (world s)) ->
     tick_period_ms (mgr (world s)) = Bound p -> 0 < p) ->
  returns (deliver_ticks impl) s (fun _ s' => disciplined (world s')).
Proof.
  intros Hd Hperiod. unfold deliver_ticks, rtc_update, rtc_get_uptime_ms.
  pose proof Hd as (_ & (e & p & He & Hp & Harmed) & _).
  do 4 ret_step. cbn [world logged hw].
  apply going_bind with
    (P := fun armed s1 =>
            s1 = logged RtcUpdate s /\ armed = truthy e /\
            rtc_advanced (hw (world s)) = true \/
            s1 = logged RtcUpdate s /\ armed = false).
  { destruct (rtc_advanced (hw (world s))).
    - eapply returns_bind, returns_getattr; [exact He |].
      apply returns_ret. now left.
    - apply returns_ret. now right. }
  intros armed s1 [(-> & -> & Hadv)|[-> ->]]; [| now apply returns_ret].
  destruct (truthy e) eqn:Htrue; [| now apply returns_ret].
  do 2 ret_step.
  eapply returns_bind, returns_getattr; [exact He |].
  destruct e as [t|]; [| discriminate].
  cbn [world logged hw mgr].
  destruct (Z.leb_spec t (rtc_uptime_ms (hw (world s)))) as [Hdue|];
    [| now apply returns_ret].
  pose proof (Harmed eq_refl) as Htick.
  assert (Hpos : 0 < p).
  { apply (Hperiod t p Hadv He); [| exact Hdue | exact Hp].
    intros ->. discriminate Htrue. }
  destruct (catch_up_enough p (rtc_uptime_ms (hw (world s))) t
              (logged RtcUpdate s) Hpos He Hp Hdue)
    as (n & _ & _ & Hrun).
  apply going_bind with (P := fun _ s2 => disciplined (world s2) /\
      app (mgr (world s2)) = app (mgr (world s))).
  { exists n. eexists. split; [exact Hrun |]. split; [| reflexivity].
    now apply (disciplined_expiry (world s) (Some t)). }
  intros ticks s2 [Hd2 Ha2].
  eapply returns_weaken.
  - apply invoke_app_going;
      [orderly_method | rewrite provides_map; now rewrite Ha2
      | exact Hd2].
  - cbn beta. now intros _ s' [Hd' _].
Qed.

Lemma poll_button_going (s : Sys) :
  disciplined (world s) ->
  returns (poll_button impl) s (fun _ s' => disciplined (world s')).
Proof.
  intros Hd. unfold poll_button.
  apply going_bind with (P := fun _ s1 => disciplined (world s1)).
  { unfold get_event. do 6 ret_step.
    destruct (Bool.eqb _ _); repeat ret_step; exact Hd. }
  intros [st|] s1 Hd1;
    [now apply _handle_button_going | now apply returns_ret].
Qed.

Lemma poll_touch_going (s : Sys) :
  disciplined (world s) ->
  returns (poll_touch impl) s (fun _ s' => disciplined (world s')).
Proof.
  intros Hd. unfold poll_touch.
  apply going_bind with (P := fun _ s1 => disciplined (world s1)).
  { unfold touch_get_event. repeat ret_step. exact Hd. }
  intros [ev|] s1 Hd1;
    [now apply _handle_touch_going | now apply returns_ret].
Qed.

Lemma check_blank_going (s : Sys) :
  disciplined (world s) ->
  returns (check_blank impl) s (fun _ s' => disciplined (world s')).
Proof.
  intros Hd. unfold check_blank, rtc_get_uptime.
  pose proof Hd as (_ & _ & (v & Hv) & _).
  eapply returns_bind, returns_getattr; [exact Hv |].
  destruct (truthy v); [| now apply returns_ret].
  do 2 ret_step. destruct v as [t|]; [| now apply returns_ret].
  destruct (t <? _); [now apply sleep_going | now apply returns_ret].
Qed.

Lemma wake_going (s : Sys) :
  disciplined (world s) ->
  provides impl (@App.wake _) (app (mgr (world s))) = true ->
  returns (wake impl) s (fun _ s' => disciplined (world s')).
Proof.
  intros Hd Hw. unfold wake, display_poweron. do 4 ret_step.
  apply going_bind with (P := fun _ s1 => disciplined (world s1)).
  { eapply returns_weaken.
    - apply invoke_app_going; [orderly_method | exact Hw | exact Hd].
    - cbn beta. now intros _ s' [Hd' _]. }
  intros _ s1 Hd1. unfold backlight_set, touch_get_event.
  do 14 ret_step.
  eapply returns_weaken; [apply keep_awake_going; exact Hd1 |].
  cbn beta. now intros _ s' [Hd' _].
Qed.


End Discipline.

(** ** The edge detector and the services *)


(** X2: [request_event] only adds subscriptions.  Two requests leave the
    union of the old mask and both arguments, in either order; repeating a
    request changes nothing more; a bit that was subscribed stays
    subscribed, and every bit of the argument is subscribed afterwards. *)
Theorem request_event_accumulates (s : Sys) (old m1 m2 : Z) :
  event_mask (mgr (world s)) = Bound old ->
  (request_event m1;; request_event m2) s =
    Ok tt (on_mgr (with_event_mask (Z.lor old (Z.lor m1 m2))) s) /\
  (request_event m1;; request_event m2) s =
    (request_event m2;; request_event m1) s /\
  (request_event m1;; request_event m1) s = request_event m1 s /\
  (forall bit, subscribed old bit = true ->
               subscribed (Z.lor old m1) bit = true) /\
  (forall bit, subscribed m1 bit = true ->
               subscribed (Z.lor old m1) bit = true).
Proof.
  intros Hold.
  assert (Htwo : forall a b,
    (request_event a;; request_event b) s =
    Ok tt (on_mgr (with_event_mask (Z.lor old (Z.lor a b))) s)).
  { intros a b. unfold request_event, bind, getattr, modify_mgr.
    rewrite Hold. cbn. now rewrite Z.lor_assoc. }
  split; [apply Htwo |]. split; [| split; [| split]].
  - rewrite !Htwo. now rewrite (Z.lor_comm m1 m2).
  - rewrite Htwo. unfold request_event, bind, getattr, modify_mgr.
    rewrite Hold. now rewrite Z.lor_diag.
  - intros bit. unfold subscribed. rewrite Z.land_lor_distr_l.
    rewrite !negb_true_iff, !Z.eqb_neq, Z.lor_eq_0_iff. tauto.
  - intros bit. unfold subscribed. rewrite Z.land_lor_distr_l.
    rewrite !negb_true_iff, !Z.eqb_neq, Z.lor_eq_0_iff. tauto.
Qed.

(** X3: [request_tick] holds one subscription: it sets the period and an
    expiry one period from the clock's millisecond reading, touches
    nothing else, and a second request replaces the first. *)
Theorem request_tick_replaces (s : Sys) (p1 p2 : Z) :
  request_tick p2 s =
    Ok tt (on_mgr (fun m =>
             with_tick_expiry (Some (rtc_uptime_ms (hw (world s)) + p2))
               (with_tick_period_ms p2 m)) s) /\
  (request_tick p1;; request_tick p2) s = request_tick p2 s /\
  (forall s', request_tick p2 s = Ok tt s' ->
     tick_period_ms (mgr (world s')) = Bound p2 /\
     tick_expiry (mgr (world s')) =
       Bound (Some (rtc_uptime_ms (hw (world s)) + p2)) /\
     event_mask (mgr (world s')) = event_mask (mgr (world s)) /\
     sleep_at (mgr (world s')) = sleep_at (mgr (world s)) /\
     app (mgr (world s')) = app (mgr (world s)) /\
     hw (world s') = hw (world s) /\
     trace s' = trace s).
Proof.
  split; [reflexivity |]. split; [reflexivity |].
  intros s' E. injection E as <-. repeat split.
Qed.

(** X4: the brightness setter writes the cache and the backlight; the
    getter then returns the value written, and of two writes the last one
    stands. *)
Theorem brightness_round_trip (s : Sys) (v1 v2 : Z) :
  exists s',
    (set_brightness v1;; set_brightness v2;; brightness) s = Ok v2 s' /\
    _brightness (mgr (world s')) = v2 /\
    backlight_level (hw (world s')) = v2 /\
    trace s' = trace s ++ [BacklightSet v1; BacklightSet v2] /\
    sleep_at (mgr (world s')) = sleep_at (mgr (world s)) /\
    display_on (hw (world s')) = display_on (hw (world s)).
Proof.
  eexists. split; [reflexivity |]. cbn. rewrite <- app_assoc. repeat split.
Qed.

(** X5: [register] appends.  The applications registered before keep
    their ring positions, whether looked up by position or by [index]; an
    application that was not on the ring gets the last position; one that
    was keeps its first position, so that registering it again leaves a
    ring entry [index] never finds. *)
Theorem register_appends (s : Sys) (a : AppId) :
  register a s =
    Ok tt (on_mgr (with_applications (applications (mgr (world s)) ++ [a])) s) /\
  (forall i x, nth_error (applications (mgr (world s))) i = Some x ->
     getitem (applications (mgr (world s)) ++ [a]) (Z.of_nat i) = Some x) /\
  (forall x i, index x (applications (mgr (world s))) = Some i ->
     index x (applications (mgr (world s)) ++ [a]) = Some i) /\
  (index a (applications (mgr (world s))) = None ->
     index a (applications (mgr (world s)) ++ [a]) =
     Some (length (applications (mgr (world s))))) /\
  getitem (applications (mgr (world s)) ++ [a])
          (Z.of_nat (length (applications (mgr (world s))))) = Some a.
Proof.
  split; [reflexivity |].
  generalize (applications (mgr (world s))) as l. intros l.
  split; [| split; [| split]].
  - intros i x Hx.
    assert (Hi : (i < length l)%nat) by (apply nth_error_Some; congruence).
    rewrite getitem_nth by (rewrite length_app; lia).
    now rewrite nth_error_app1.
  - induction l as [|y l IH]; intros x i; cbn; [discriminate |].
    destruct (Nat.eqb y x); [trivial |].
    destruct (index x l) as [j|] eqn:Ej; cbn; [| discriminate].
    intros E. now rewrite (IH x j Ej).
  - induction l as [|y l IH]; cbn.
    + now rewrite Nat.eqb_refl.
    + destruct (Nat.eqb y a); [discriminate |].
      destruct (index a l) eqn:Ea; [discriminate |]. intros _.
      now rewrite (IH eq_refl).
  - rewrite getitem_nth by (rewrite length_app; cbn; lia).
    rewrite nth_error_app2 by lia. now rewrite Nat.sub_diag.
Qed.

(** ** Ticks and the inactivity timer *)

(** X6: a period of zero or less hangs the poll step.  With a tick due
    and such a period, the loop of lines 275-277 is still running after any
    number of rounds, and the poll step does not return. *)
Theorem nonpositive_period_hangs (s : Sys) (deadline : option Z) (e p : Z) :
  sleep_at (mgr (world s)) = Bound deadline ->
  truthy deadline = true ->
  tick_expiry (mgr (world s)) = Bound (Some e) ->
  tick_period_ms (mgr (world s)) = Bound p ->
  tick_due (rtc_advanced (hw (world s))) (Some e)
           (rtc_uptime_ms (hw (world s))) = true ->
  p <= 0 ->
  (forall fuel ticks,
     catch_up fuel (rtc_uptime_ms (hw (world s))) ticks (logged RtcUpdate s)
     = Diverge) /\
  _tick impl s = Diverge.
Proof.
  intros Hsa Hawake He Hper Hdue Hp.
  unfold tick_due in Hdue.
  apply andb_true_iff in Hdue as [Hdue Hle].
  apply andb_true_iff in Hdue as [Hadv Htrue].
  apply Z.leb_le in Hle.
  assert (Hloop : forall fuel ticks,
    catch_up fuel (rtc_uptime_ms (hw (world s))) ticks (logged RtcUpdate s)
    = Diverge).
  { intros fuel ticks.
    now apply (catch_up_forever p _ Hp fuel e ticks (logged RtcUpdate s)). }
  split; [exact Hloop |].
  unfold _tick, bind at 1, getattr at 1. rewrite Hsa, Hawake.
  unfold deliver_ticks, rtc_update.
  unfold bind at 1, bind at 1, bind at 1, record at 1, gets at 1.
  cbn [world trace]. rewrite Hadv.
  unfold bind at 1, bind at 1, getattr at 1. cbn [world trace mgr].
  rewrite He. cbn [ret]. rewrite Htrue.
  unfold rtc_get_uptime_ms, bind at 1, bind at 1, gets at 1.
  unfold bind at 1, getattr at 1. cbn [world trace mgr hw]. rewrite He.
  destruct (Z.leb_spec e (rtc_uptime_ms (hw (world s)))); [| lia].
  unfold bind at 1, bind at 1. now rewrite Hloop.
Qed.

(** X7: no tick before its time.  While no tick is due (the clock did not
    advance, or nothing is armed, or the expiry lies ahead), tick delivery
    only polls the clock: the subscription is left as it is and the poll
    step calls no [tick] at all. *)
Theorem no_tick_unless_due (s : Sys) (deadline expiry : option Z) :
  sleep_at (mgr (world s)) = Bound deadline ->
  truthy deadline = true ->
  tick_expiry (mgr (world s)) = Bound expiry ->
  tick_due (rtc_advanced (hw (world s))) expiry
           (rtc_uptime_ms (hw (world s))) = false ->
  deliver_ticks impl s = Ok tt (logged RtcUpdate s) /\
  forall s', _tick impl s = Ok tt s' ->
    exists rest,
      trace s' = trace s ++ RtcUpdate :: rest /\
      forallb (fun c => negb (tick_delivery c)) rest = true.
Proof.
  intros Hsa Hawake He Hdue.
  assert (Hrun : deliver_ticks impl s = Ok tt (logged RtcUpdate s)).
  { unfold deliver_ticks, rtc_update.
    unfold bind at 1, bind at 1, record at 1, gets at 1.
    cbn [world trace]. unfold tick_due in Hdue.
    destruct (rtc_advanced (hw (world s))); [| reflexivity].
    unfold bind at 1, bind at 1, getattr at 1. cbn [world trace mgr].
    rewrite He. cbn [ret]. cbn [andb] in Hdue.
    destruct (truthy expiry) eqn:Htrue; [| reflexivity].
    unfold rtc_get_uptime_ms, bind at 1, gets at 1.
    unfold bind at 1, getattr at 1. cbn [world trace mgr hw]. rewrite He.
    destruct expiry as [e|]; [| discriminate Htrue].
    cbn [andb] in Hdue. now rewrite Hdue. }
  split; [exact Hrun |].
  intros s' E. unfold _tick in E.
  apply bind_ok_inv in E as (d & s0 & E0 & E).
  unfold getattr in E0. rewrite Hsa in E0. injection E0 as <- <-.
  rewrite Hawake in E.
  apply bind_ok_inv in E as ([] & s1 & E1 & E).
  rewrite Hrun in E1. injection E1 as <-.
  apply bind_ok_inv in E as ([] & s2 & E2 & E).
  apply bind_ok_inv in E as ([] & s3 & E3 & E).
  apply bind_ok_inv in E as ([] & s4 & E4 & E).
  destruct (poll_button_emits _ _ _ E2) as (l2 & T2 & F2).
  destruct (poll_touch_emits _ _ _ E3) as (l3 & T3 & F3).
  destruct (check_blank_emits _ _ _ E4) as (l4 & T4 & F4).
  injection E as <-.
  exists (l2 ++ l3 ++ l4 ++ [GcCollect]). split.
  - cbn [trace]. rewrite T4, T3, T2. cbn [trace logged].
    rewrite <- !app_assoc. reflexivity.
  - rewrite !forallb_app. repeat (apply andb_true_iff; split);
      try reflexivity.
    + revert F2. apply forallb_weaken.
      intros [| | | | | | | | | | |b []]; cbn; congruence.
    + revert F3. apply forallb_weaken.
      intros [| | | | | | | | | | |b []]; cbn; congruence.
    + revert F4. apply forallb_weaken.
      intros [| | | | | | | | | | |b []]; cbn; congruence.
Qed.

(** X8: [keep_awake] is not [wake].  It sets [sleep_at] to
    [uptime + blank_after] whatever the power state was, and nothing else:
    no driver is called and the display stays as it is.  Called on a
    sleeping manager it therefore makes the next poll step take the awake
    branch with the display still off. *)
Theorem keep_awake_is_not_wake (s : Sys) :
  sane (world s) ->
  exists s',
    keep_awake s = Ok tt s' /\
    sleep_at (mgr (world s')) =
      Bound (Some (rtc_uptime (hw (world s)) + blank_after (mgr (world s)))) /\
    power_state (mgr (world s')) = Some AWAKE /\
    hw (world s') = hw (world s) /\
    trace s' = trace s /\
    app (mgr (world s')) = app (mgr (world s)) /\
    event_mask (mgr (world s')) = event_mask (mgr (world s)) /\
    tick_expiry (mgr (world s')) = tick_expiry (mgr (world s)).
Proof.
  intros [Hpos Hup]. eexists. split; [reflexivity |].
  cbn. unfold power_state. cbn.
  destruct (Z.eqb_spec (rtc_uptime (hw (world s)) + blank_after (mgr (world s)))
              0); [lia |].
  repeat split.
Qed.

(** X9: the inactivity timeout is strict.  After [keep_awake] at uptime
    [u0], a later blanking check with the clock at [up] does nothing while
    [up <= u0 + blank_after] and is [sleep()] as soon as
    [up > u0 + blank_after]. *)
Theorem blanking_is_strict (s : Sys) :
  sane (world s) ->
  exists s1,
    keep_awake s = Ok tt s1 /\
    forall up,
      (up <= rtc_uptime (hw (world s)) + blank_after (mgr (world s)) ->
       check_blank impl (on_hw (at_uptime up) s1) =
       Ok tt (on_hw (at_uptime up) s1)) /\
      (rtc_uptime (hw (world s)) + blank_after (mgr (world s)) < up ->
       check_blank impl (on_hw (at_uptime up) s1) =
       sleep impl (on_hw (at_uptime up) s1)).
Proof.
  intros [Hpos Hup]. eexists. split; [reflexivity |]. intros up.
  unfold check_blank, bind, getattr, rtc_get_uptime, gets. cbn.
  destruct (Z.eqb_spec (rtc_uptime (hw (world s)) + blank_after (mgr (world s)))
              0); [lia |]. cbn.
  split; intros H;
    destruct (Z.ltb_spec
                (rtc_uptime (hw (world s)) + blank_after (mgr (world s))) up);
    try lia; reflexivity.
Qed.

(** ** Start-up *)

(** X10: a manager that was constructed but not started cannot be polled.
    [sleep_at] and [event_mask] come into being in [switch]; before the
    first switch the poll step, the two event handlers and
    [request_event] raise [AttributeError], whereas [run] starts with the
    switch to the first registered application, the clock. *)
Theorem unstarted_manager_raises (l c f t : AppId) (pin : bool) (w : Watch)
    (h : AppState) (tr : list Call) (mask : Z) (st : bool)
    (ev : TouchEvent) :
  _tick impl (constructed l c f t pin w h tr) = Raise AttributeError /\
  _handle_button impl st (constructed l c f t pin w h tr)
    = Raise AttributeError /\
  _handle_touch impl ev (constructed l c f t pin w h tr)
    = Raise AttributeError /\
  request_event mask (constructed l c f t pin w h tr)
    = Raise AttributeError /\
  run_start impl (constructed l c f t pin w h tr)
    = switch impl c (constructed l c f t pin w h tr).
Proof. repeat split. Qed.

(** X11: the first switch powers the watch up.  With no application
    shown yet, [switch(target)] turns the display on, mutes it, sets the
    backlight to the cached brightness and arms the inactivity timer 90
    seconds ahead (not [blank_after]), before [target.foreground()] runs
    on the cleared configuration; the calls made are exactly these
    seven. *)
Theorem first_switch_boots (target : AppId) (fg : H AppState unit)
    (s : Sys) (w1 : World) :
  app (mgr (world s)) = None ->
  App.foreground (impl target) = Some fg ->
  fg (entering target (booted (world s))) = Ok tt w1 ->
  switch impl target s =
    Ok tt {| world := unmuted w1;
             trace := trace s ++
               [DisplayPoweron; DisplayMute true;
                BacklightSet (_brightness (mgr (world s)));
                DisplayMute true; DrawableReset;
                AppCall target Foreground; DisplayMute false] |} /\
  sleep_at (mgr (entering target (booted (world s)))) =
    Bound (Some (rtc_uptime (hw (world s)) + 90)) /\
  display_on (hw (entering target (booted (world s)))) = true /\
  backlight_level (hw (entering target (booted (world s)))) =
    _brightness (mgr (world s)).
Proof.
  intros Hnone Hfg Hrun. split; [| repeat split].
  rewrite switch_split. unfold leave, bind at 1, bind at 1, gets at 1.
  rewrite Hnone.
  unfold display_poweron, display_mute, backlight_set, rtc_get_uptime,
    bind at 1, bind at 1, bind at 1, bind at 1, bind at 1, bind at 1,
    bind at 1, bind at 1, record, modify_hw, gets, modify_mgr.
  cbn [world trace mgr hw heap].
  rewrite (enter_run target fg _ Hfg). cbn [world trace].
  unfold bind, lift. cbn [world trace].
  change (entering target _) with (entering target (booted (world s))).
  rewrite Hrun. unfold display_mute, bind, record, modify_hw.
  cbn [world trace]. unfold unmuted. rewrite <- !app_assoc. reflexivity.
Qed.

(** X12: later switches leave the power alone.  Once an application is
    shown, [switch] itself makes no call that powers the display on or
    off or sets the backlight. *)
Theorem later_switch_keeps_power (target a : AppId) (s s' : Sys) :
  app (mgr (world s)) = Some a ->
  switch impl target s = Ok tt s' ->
  exists calls,
    trace s' = trace s ++ calls /\
    forallb (fun c => negb (power_call c)) calls = true.
Proof.
  intros Ha E. rewrite switch_eq in E.
  apply bind_ok_inv in E as (cur & s0 & E0 & E).
  injection E0 as <- <-. rewrite Ha in E.
  apply bind_ok_inv in E as ([] & s1 & E1 & E).
  assert (H1 : exists l1, trace s1 = trace s ++ l1 /\
                 forallb (fun c => negb (power_call c)) l1 = true).
  { destruct (provides impl _ (Some a)).
    - refine (invoke_emits _ a _ Background _ s _ _ E1). reflexivity.
    - injection E1 as <-. exists []. now rewrite app_nil_r. }
  destruct H1 as (l1 & T1 & F1).
  assert (H2 : emits (fun c => negb (power_call c)) (enter target)).
  { unfold enter, display_mute, drawable_reset. emits_auto.
    now apply invoke_emits. }
  destruct (H2 s1 _ _ E) as (l2 & T2 & F2).
  exists (l1 ++ l2). split.
  - now rewrite T2, T1, app_assoc.
  - now rewrite forallb_app, F1, F2.
Qed.

(** X13: an empty application list.  With nothing registered every
    navigation that indexes the list (left, right, down, home) raises
    [IndexError], as do [run] before the first switch and [sleep] when
    the current application does not sleep in place; only the launcher
    can still be reached. *)
Theorem empty_ring_raises (s : Sys) (d : Z) :
  applications (mgr (world s)) = [] ->
  (In d [EventType.LEFT; EventType.RIGHT; EventType.DOWN; EventType.HOME] ->
   navigate impl d s = Raise IndexError) /\
  navigate impl EventType.UP s = switch impl (launcher (mgr (world s))) s /\
  (app (mgr (world s)) = None -> run_start impl s = Raise IndexError) /\
  (provides impl (@App.sleep _) (app (mgr (world s))) = false ->
   sleep impl s = Raise IndexError).
Proof.
  intros Hnil. split; [| split; [| split]].
  - intros [<- | [<- | [<- | [<- | []]]]];
      unfold navigate, bind, gets; rewrite Hnil; cbn;
      destruct (app (mgr (world s))); reflexivity.
  - unfold navigate, bind, gets. reflexivity.
  - intros Hnone. unfold run_start, bind, gets. now rewrite Hnone, Hnil.
  - intros Hno. unfold sleep, backlight_set, bind at 1, bind at 1.
    unfold record at 1, modify_hw at 1, bind at 1, bind at 1, gets at 1.
    cbn [world trace mgr]. rewrite Hno.
    unfold bind at 1, bind at 1, ret at 1, bind at 1, gets at 1.
    cbn [world trace mgr]. now rewrite Hnil.
Qed.

(** ** Event dispatch *)

(** X14: a touch is never a navigation.  An event of kind 5 reaches the
    application's [touch] exactly when the TOUCH bit is subscribed, and
    that call is all that happens; a stray event (see [stray]) does
    nothing but restart the inactivity timer. *)
Theorem touch_dispatch (s : Sys) (ev : TouchEvent) (mask : Z) :
  event_mask (mgr (world s)) = Bound mask ->
  (stray mask (ev_kind ev) = true ->
   _handle_touch impl ev s = Ok tt (refreshed s)) /\
  (ev_kind ev = 5 -> subscribed mask EventMask.TOUCH = true ->
   forall a f w',
     app (mgr (world s)) = Some a ->
     App.touch (impl a) = Some f ->
     f ev (world (refreshed s)) = Ok tt w' ->
     _handle_touch impl ev s =
       Ok tt {| world := w'; trace := trace s ++ [AppCall a (Touch ev)] |}).
Proof.
  intros Hmask. split.
  - intros Hstray. unfold stray in Hstray.
    unfold _handle_touch, bind at 1, bind at 1.
    change (keep_awake s) with (Ok tt (refreshed s)). cbv iota beta.
    unfold getattr at 1. cbn [refreshed on_mgr world mgr with_sleep_at
      event_mask]. rewrite Hmask. cbv iota beta zeta.
    destruct (Z.ltb_spec (ev_kind ev) 5) as [Hlt | Hge].
    + destruct (Z.ltb_spec 5 (ev_kind ev)); [lia |].
      destruct (Z.eqb_spec (ev_kind ev) 5); [lia |].
      cbn [orb andb] in Hstray.
      apply andb_true_iff in Hstray as [Hneg Hsub].
      apply Z.ltb_lt in Hneg. apply negb_true_iff in Hsub.
      destruct (Z.eqb_spec (ev_kind ev) 1); [lia |].
      destruct (Z.eqb_spec (ev_kind ev) 2); [lia |].
      cbn [orb andb negb]. rewrite Hsub, andb_false_r. cbn [orb andb].
      unfold navigate, bind, gets.
      destruct (Z.eqb_spec (ev_kind ev) EventType.LEFT) as [E|_];
        [unfold EventType.LEFT in E; lia |].
      destruct (Z.eqb_spec (ev_kind ev) EventType.RIGHT) as [E|_];
        [unfold EventType.RIGHT in E; lia |].
      destruct (Z.eqb_spec (ev_kind ev) EventType.UP) as [E|_];
        [unfold EventType.UP in E; lia |].
      destruct (Z.eqb_spec (ev_kind ev) EventType.DOWN) as [E|_];
        [unfold EventType.DOWN in E; lia |].
      destruct (Z.eqb_spec (ev_kind ev) EventType.HOME) as [E|_];
        [unfold EventType.HOME in E; lia |].
      reflexivity.
    + destruct (Z.eqb_spec (ev_kind ev) 5) as [E5 | N5].
      * destruct (Z.ltb_spec 5 (ev_kind ev)); [lia |].
        destruct (Z.ltb_spec (ev_kind ev) 1); [lia |].
        cbn [orb andb] in Hstray. rewrite ?andb_false_r, ?orb_false_r in Hstray.
        apply negb_true_iff in Hstray.
        unfold bind, getattr. cbn [refreshed on_mgr world mgr with_sleep_at
          event_mask]. rewrite Hmask, Hstray. reflexivity.
      * reflexivity.
  - intros E5 Hsub a f w' Ha Hf Hrun.
    unfold _handle_touch, bind at 1, bind at 1.
    change (keep_awake s) with (Ok tt (refreshed s)). cbv iota beta.
    unfold getattr at 1. cbn [refreshed on_mgr world mgr with_sleep_at
      event_mask]. rewrite Hmask. cbv iota beta zeta. rewrite E5.
    cbn [Z.ltb Z.eqb Z.compare Pos.compare Pos.compare_cont Pos.eqb].
    unfold bind at 1, getattr at 1.
    cbn [refreshed on_mgr world mgr with_sleep_at event_mask].
    rewrite Hmask, Hsub.
    unfold invoke_app, bind at 1, gets at 1.
    change (app (mgr (world (refreshed s)))) with (app (mgr (world s))).
    rewrite Ha. unfold invoke. rewrite Hf. cbn [option_map].
    unfold bind, record, lift. cbn [world trace].
    now rewrite Hrun.
Qed.

(** X15: swipes are routed by axis and can be vetoed.  A swipe whose
    axis the application has not subscribed to navigates at once, without
    the application being asked; a subscribed one is handed to
    [app.swipe] first, and navigation follows only if that returns true. *)
Theorem swipe_veto (s : Sys) (ev : TouchEvent) (mask : Z) :
  event_mask (mgr (world s)) = Bound mask ->
  ev_kind ev < 5 ->
  (subscribed mask (swipe_bit (ev_kind ev)) = false ->
   _handle_touch impl ev s = navigate impl (ev_kind ev) (refreshed s)) /\
  (subscribed mask (swipe_bit (ev_kind ev)) = true ->
   forall a f go w',
     app (mgr (world s)) = Some a ->
     App.swipe (impl a) = Some f ->
     f ev (world (refreshed s)) = Ok go w' ->
     _handle_touch impl ev s =
       (if go then navigate impl (ev_kind ev) else ret tt)
         {| world := w'; trace := trace s ++ [AppCall a (Swipe ev)] |}).
Proof.
  intros Hmask Hlt.
  assert (Hgate :
    (subscribed mask EventMask.SWIPE_UPDOWN
       && ((ev_kind ev =? 1) || (ev_kind ev =? 2)))
    || (subscribed mask EventMask.SWIPE_LEFTRIGHT
          && negb ((ev_kind ev =? 1) || (ev_kind ev =? 2)))
    = subscribed mask (swipe_bit (ev_kind ev))).
  { unfold swipe_bit.
    destruct ((ev_kind ev =? 1) || (ev_kind ev =? 2)); cbn [negb];
      now rewrite ?andb_true_r, ?andb_false_r, ?orb_false_r. }
  assert (Hstart : _handle_touch impl ev s =
    (if subscribed mask (swipe_bit (ev_kind ev))
     then go <- invoke_app impl
                  (fun a => option_map (fun f => f ev) (App.swipe a))
                  (Swipe ev);;
          if go then navigate impl (ev_kind ev) else ret tt
     else navigate impl (ev_kind ev)) (refreshed s)).
  { unfold _handle_touch, bind at 1, bind at 1.
    change (keep_awake s) with (Ok tt (refreshed s)). cbv iota beta.
    unfold getattr at 1. cbn [refreshed on_mgr world mgr with_sleep_at
      event_mask]. rewrite Hmask. cbv iota beta zeta.
    destruct (Z.ltb_spec (ev_kind ev) 5); [| lia].
    now rewrite Hgate. }
  rewrite Hstart. split.
  - intros ->. reflexivity.
  - intros -> a f go w' Ha Hf Hrun.
    unfold bind at 1, invoke_app, bind at 1, gets at 1.
    change (app (mgr (world (refreshed s)))) with (app (mgr (world s))).
    rewrite Ha. unfold invoke. rewrite Hf. cbn [option_map].
    unfold bind at 1, record at 1, lift. cbn [world trace].
    now rewrite Hrun.
Qed.

(** X16: what the button does.  Without the BUTTON subscription a press
    is a HOME navigation and a release only restarts the inactivity
    timer.  With it the event goes to [app.press(HOME, state)] first: a
    false answer consumes it, and even after a true answer a release never
    navigates. *)
Theorem button_dispatch (s : Sys) (mask : Z) :
  event_mask (mgr (world s)) = Bound mask ->
  (subscribed mask EventMask.BUTTON = false ->
   _handle_button impl false s = Ok tt (refreshed s) /\
   _handle_button impl true s = navigate impl EventType.HOME (refreshed s)) /\
  (subscribed mask EventMask.BUTTON = true ->
   forall st a f go w',
     app (mgr (world s)) = Some a ->
     App.press (impl a) = Some f ->
     f EventType.HOME st (world (refreshed s)) = Ok go w' ->
     _handle_button impl st s =
       (if go && st then navigate impl EventType.HOME else ret tt)
         {| world := w';
            trace := trace s ++ [AppCall a (Press EventType.HOME st)] |}).
Proof.
  intros Hmask.
  assert (Hstart : forall st, _handle_button impl st s =
    (proceed <- (if subscribed mask EventMask.BUTTON
                 then invoke_app impl
                        (fun a => option_map (fun f => f EventType.HOME st)
                                             (App.press a))
                        (Press EventType.HOME st)
                 else ret true);;
     if proceed then
       if st then navigate impl EventType.HOME else ret tt
     else ret tt) (refreshed s)).
  { intros st. unfold _handle_button, bind at 1, bind at 1.
    change (keep_awake s) with (Ok tt (refreshed s)). cbv iota beta.
    unfold getattr at 1. cbn [refreshed on_mgr world mgr with_sleep_at
      event_mask]. now rewrite Hmask. }
  split.
  - intros Hoff. rewrite !Hstart, Hoff. split; reflexivity.
  - intros Hon st a f go w' Ha Hf Hrun. rewrite Hstart, Hon.
    unfold bind at 1, invoke_app, bind at 1, gets at 1.
    change (app (mgr (world (refreshed s)))) with (app (mgr (world s))).
    rewrite Ha. unfold invoke. rewrite Hf. cbn [option_map].
    unfold bind at 1, record at 1, lift. cbn [world trace].
    rewrite Hrun. destruct go, st; reflexivity.
Qed.

(** X17: what wakes a sleeping watch.  Asleep, the poll step updates the
    clock, reads the charger and samples the button; it calls [wake()]
    exactly when the button went from released to pressed or the charger
    state differs from the one saved on going to sleep.  Otherwise it
    returns with the watch asleep: a release is absorbed, a pending touch
    stays pending, no tick is delivered and the subscription is not
    advanced. *)
Theorem asleep_poll_wakes_iff (s : Sys) (deadline : option Z) :
  sleep_at (mgr (world s)) = Bound deadline ->
  truthy deadline = false ->
  exists r s2,
    get_event (logged BatteryCharging (logged RtcUpdate s)) = Ok r s2 /\
    (r = Some true <->
     PinHandler._value (_button (mgr (world s))) = false /\
     button_value (hw (world s)) = true) /\
    (r = Some true \/
     charging (mgr (world s)) <> battery_charging (hw (world s)) ->
     _tick impl s = wake impl s2) /\
    (r <> Some true ->
     charging (mgr (world s)) = battery_charging (hw (world s)) ->
     _tick impl s = Ok tt s2) /\
    trace s2 = trace s ++ [RtcUpdate; BatteryCharging; ButtonValue] /\
    hw (world s2) = hw (world s) /\
    sleep_at (mgr (world s2)) = Bound deadline /\
    tick_expiry (mgr (world s2)) = tick_expiry (mgr (world s)) /\
    app (mgr (world s2)) = app (mgr (world s)).
Proof.
  intros Hsa Hasleep.
  assert (Hstart : forall r s2,
    get_event (logged BatteryCharging (logged RtcUpdate s)) = Ok r s2 ->
    charging (mgr (world s2)) = charging (mgr (world s)) ->
    _tick impl s =
    (if (match r with Some true => true | _ => false end)
        || negb (Bool.eqb (charging (mgr (world s)))
                          (battery_charging (hw (world s))))
     then wake impl s2 else Ok tt s2)).
  { intros r s2 E Hc. unfold _tick, bind at 1, getattr at 1.
    rewrite Hsa, Hasleep. unfold poll_asleep, rtc_update,
      battery_get_charging.
    unfold bind at 1, bind at 1, record at 1, gets at 1.
    unfold bind at 1, bind at 1, record at 1, gets at 1.
    cbn [world trace]. unfold bind at 1.
    change {| world := world s; trace := (trace s ++ [RtcUpdate]) ++ _ |}
      with (logged BatteryCharging (logged RtcUpdate s)).
    rewrite E. unfold bind at 1, gets at 1. rewrite Hc.
    now destruct (_ || _). }
  unfold get_event, bind, record, gets, modify_mgr in *.
  cbn [world trace logged mgr hw] in *.
  destruct (PinHandler._value (_button (mgr (world s)))) eqn:Hold,
           (button_value (hw (world s))) eqn:Hnew; cbn [Bool.eqb ret] in *;
    eexists; eexists;
    (split; [reflexivity |]);
    (split; [split; [intros E; try discriminate E; auto
                    | intros [E1 E2]; try discriminate; reflexivity] |]);
    (split; [intros Hw; rewrite (Hstart _ _ eq_refl eq_refl);
             destruct Hw as [E | Hneq]; [try discriminate E; reflexivity |];
             destruct (charging (mgr (world s))),
                      (battery_charging (hw (world s)));
             try reflexivity; try (now elim Hneq);
             cbn [Bool.eqb negb orb]; reflexivity |]);
    (split; [intros Hr Hc; rewrite (Hstart _ _ eq_refl eq_refl), Hc,
               Bool.eqb_reflx; cbn [negb orb];
             try reflexivity; now elim Hr |]);
    cbn; rewrite <- ?app_assoc; repeat split; assumption.
Qed.

(** ** Going home *)

(** X18: a swipe down leads to the default application.  On a started
    manager, or on one that shows no application yet, with a non-empty
    ring whose first application can be brought to the foreground and
    steady lifecycle methods of that application and of the current one,
    [navigate(DOWN)] returns with [applications[0]] current, wherever it
    starts: on the ring, off it, or nowhere.  Repeated there it changes
    nothing but one more pulse of the vibrator. *)
Theorem down_goes_home (first : AppId) (rest : list AppId) (s : Sys) :
  App.foreground (impl first) <> None ->
  (forall h, App.foreground (impl first) = Some h -> steady first h) ->
  (forall a h, app (mgr (world s)) = Some a ->
     App.background (impl a) = Some h -> steady a h) ->
  (app (mgr (world s)) <> None -> started (mgr (world s))) ->
  applications (mgr (world s)) = first :: rest ->
  exists s1,
    navigate impl EventType.DOWN s = Ok tt s1 /\
    app (mgr (world s1)) = Some first /\
    applications (mgr (world s1)) = first :: rest /\
    navigate impl EventType.DOWN s1 =
      Ok tt (on_hw (fun w => with_vibrator_pulses (S (vibrator_pulses w)) w)
                   (logged VibratorPulse s1)).
Proof.
  intros Hfg Hsteady Hback Hstarted Hring.
  assert (Hdown : forall s0,
    applications (mgr (world s0)) = first :: rest ->
    navigate impl EventType.DOWN s0 =
    (if differs (app (mgr (world s0))) first
     then switch impl first s0 else vibrator_pulse s0)).
  { intros s0 H0. unfold navigate, bind, gets. rewrite H0. cbn.
    now destruct (differs _ _). }
  assert (Hthere : forall s0,
    applications (mgr (world s0)) = first :: rest ->
    app (mgr (world s0)) = Some first ->
    navigate impl EventType.DOWN s0 =
      Ok tt (on_hw (fun w => with_vibrator_pulses (S (vibrator_pulses w)) w)
                   (logged VibratorPulse s0))).
  { intros s0 H0 H1. rewrite (Hdown s0 H0), H1. cbn [differs].
    now rewrite Nat.eqb_refl. }
  rewrite (Hdown s Hring).
  destruct (differs (app (mgr (world s))) first) eqn:Hd.
  - destruct (switch_lands first s Hfg Hsteady Hback Hstarted)
      as ([] & s1 & E & Happ & Hl & _).
    exists s1. rewrite Hring in Hl.
    split; [exact E |]. split; [exact Happ |]. split; [exact Hl |].
    now apply Hthere.
  - assert (Happ : app (mgr (world s)) = Some first).
    { unfold differs in Hd. destruct (app (mgr (world s))) as [a|];
        [| discriminate Hd].
      apply negb_false_iff, Nat.eqb_eq in Hd. now subst. }
    eexists. split; [reflexivity |]. split; [exact Happ |].
    split; [exact Hring |]. now apply Hthere.
Qed.

(** ** Input and the inactivity timer *)

Section Rested.

(** The application methods do not let the deadline pass, as when they
    change it through the manager only and leave the clock alone. *)
Hypothesis apps_rest : forall a, app_keeps rested (impl a).

Ltac rests :=
  intros;
  match goal with
  | E : context [impl ?x] |- method_keeps _ _ =>
      destruct (apps_rest x) as (?&?&?&?&?&?&?&?);
      first
        [ solve [eauto]
        | match type of E with
          | option_map _ ?o = _ =>
              destruct o eqn:?; [| discriminate E];
              cbn in E; injection E as <-; solve [eauto]
          end ]
  end.

Lemma keep_awake_rests (s : Sys) :
  0 <= blank_after (mgr (world s)) -> rested (world (refreshed s)).
Proof.
  intros Hb. split; [exact Hb |]. cbn. eexists. split; [reflexivity |].
  cbn. lia.
Qed.

Lemma keep_awake_rested : preserves rested keep_awake.
Proof.
  intros s [Hb _] r s' E. injection E as _ <-.
  exact (keep_awake_rests s Hb).
Qed.

Lemma enter_rested target : preserves rested (enter target).
Proof.
  unfold enter, display_mute, drawable_reset. repeat pres_step.
  apply invoke_preserves. rests.
Qed.

Lemma switch_rested target : preserves rested (switch impl target).
Proof.
  intros s HI r s' E. rewrite switch_eq in E.
  apply bind_ok_inv in E as (cur & s0 & E0 & E). injection E0 as <- <-.
  apply bind_ok_inv in E as ([] & s1 & E1 & E).
  refine (enter_rested target s1 _ _ _ E). clear E.
  destruct (app (mgr (world s))) as [a|] eqn:Ha.
  - destruct (provides impl _ (Some a)).
    + refine (invoke_preserves _ a _ _ _ s HI _ _ E1). rests.
    + now injection E1 as <-.
  - injection E1 as <-. destruct HI as [Hb _]. split; [exact Hb |].
    cbn. eexists. split; [reflexivity |]. cbn. lia.
Qed.

Lemma switch_index_rested l i : preserves rested (switch_index impl l i).
Proof. unfold switch_index. repeat pres_step. apply switch_rested. Qed.

Lemma sleep_rested : preserves rested (sleep impl).
Proof.
  unfold sleep, backlight_set, display_poweroff, battery_get_charging.
  repeat pres_step;
    try (apply invoke_app_preserves; rests);
    try apply switch_rested.
  apply preserves_modify_mgr. intros w [Hb _]. split; [exact Hb |].
  exists None. split; [reflexivity | exact I].
Qed.

Lemma navigate_rested direction :
  preserves rested (navigate impl direction).
Proof.
  unfold navigate, vibrator_pulse.
  repeat pres_step;
    solve [apply switch_index_rested | apply switch_rested
          | apply sleep_rested].
Qed.

Lemma _handle_button_rests (state : bool) (s : Sys) :
  0 <= blank_after (mgr (world s)) ->
  ensures (_handle_button impl state) s (fun _ s' => rested (world s')).
Proof.
  intros Hb r s' E. unfold _handle_button in E.
  apply bind_ok_inv in E as ([] & s1 & E1 & E).
  change (keep_awake s) with (Ok tt (refreshed s)) in E1.
  injection E1 as <-.
  match type of E with
  | ?m _ = _ => assert (Hp : preserves rested m)
  end.
  { repeat pres_step;
      try (apply invoke_app_preserves; rests);
      apply navigate_rested. }
  exact (Hp _ (keep_awake_rests s Hb) _ _ E).
Qed.

Lemma _handle_touch_rests (event : TouchEvent) (s : Sys) :
  0 <= blank_after (mgr (world s)) ->
  ensures (_handle_touch impl event) s (fun _ s' => rested (world s')).
Proof.
  intros Hb r s' E. unfold _handle_touch in E.
  apply bind_ok_inv in E as ([] & s1 & E1 & E).
  change (keep_awake s) with (Ok tt (refreshed s)) in E1.
  injection E1 as <-.
  match type of E with
  | ?m _ = _ => assert (Hp : preserves rested m)
  end.
  { repeat pres_step;
      try (apply invoke_app_preserves; rests);
      apply navigate_rested. }
  exact (Hp _ (keep_awake_rests s Hb) _ _ E).
Qed.

Lemma poll_touch_rested : preserves rested (poll_touch impl).
Proof.
  unfold poll_touch, touch_get_event. repeat pres_step.
  intros s HI. apply _handle_touch_rests, HI.
Qed.

Lemma check_blank_rested (s : Sys) :
  rested (world s) -> check_blank impl s = Ok tt s.
Proof.
  intros (_ & v & Hv & Hle). unfold check_blank, bind, getattr.
  rewrite Hv. destruct v as [t|]; [| reflexivity].
  destruct (truthy (Some t)); [| reflexivity].
  unfold rtc_get_uptime, gets.
  now destruct (Z.ltb_spec t (rtc_uptime (hw (world s)))); [lia |].
Qed.

Lemma poll_button_idle (s : Sys) :
  PinHandler._value (_button (mgr (world s))) = button_value (hw (world s)) ->
  poll_button impl s = Ok tt (logged ButtonValue s).
Proof.
  intros Hsame. unfold poll_button, get_event, bind, record, gets.
  cbn [world trace mgr hw]. now rewrite Hsame, Bool.eqb_reflx.
Qed.

Lemma poll_button_rests (s : Sys) :
  PinHandler._value (_button (mgr (world s))) <> button_value (hw (world s)) ->
  0 <= blank_after (mgr (world s)) ->
  ensures (poll_button impl) s (fun _ s' => rested (world s')).
Proof.
  intros Hedge Hb r s' E. unfold poll_button in E.
  apply bind_ok_inv in E as (st & s1 & E1 & E).
  unfold get_event, bind, record, gets, modify_mgr in E1.
  cbn [world trace mgr hw] in E1.
  destruct (Bool.eqb _ _) eqn:Heq in E1.
  - apply Bool.eqb_prop in Heq. now elim Hedge.
  - injection E1 as <- <-.
    refine (_handle_button_rests _ _ _ _ _ E). exact Hb.
Qed.

Lemma poll_touch_rests (s : Sys) :
  touch_pending (hw (world s)) <> None ->
  0 <= blank_after (mgr (world s)) ->
  ensures (poll_touch impl) s (fun _ s' => rested (world s')).
Proof.
  intros Hpending Hb r s' E. unfold poll_touch in E.
  apply bind_ok_inv in E as (ev & s1 & E1 & E).
  unfold touch_get_event, bind, record, gets, modify_hw in E1.
  cbn [world trace mgr hw] in E1. injection E1 as <- <-.
  destruct (touch_pending (hw (world s))) as [ev|]; [| now elim Hpending].
  refine (_handle_touch_rests ev _ _ _ _ E). exact Hb.
Qed.

(** X19: input puts blanking off.  A poll step that finds a button edge
    or a pending touch does not blank the display in its inactivity
    check: the handlers restart the timer first, so with a blanking
    delay that is not negative the check of lines 288-289 does
    nothing. *)
Theorem input_defers_blanking (s : Sys) :
  0 <= blank_after (mgr (world s)) ->
  PinHandler._value (_button (mgr (world s))) <> button_value (hw (world s))
  \/ touch_pending (hw (world s)) <> None ->
  (poll_button impl;; poll_touch impl;; check_blank impl) s =
  (poll_button impl;; poll_touch impl) s.
Proof.
  intros Hb Hin.
  assert (Hend : forall s1,
    ensures (poll_touch impl) s1 (fun _ s' => rested (world s')) ->
    (poll_touch impl;; check_blank impl) s1 = poll_touch impl s1).
  { intros s1 Hr. unfold bind at 1.
    destruct (poll_touch impl s1) as [[] s2| |] eqn:E2; try reflexivity.
    apply check_blank_rested. exact (Hr _ _ E2). }
  change ((poll_button impl;; poll_touch impl;; check_blank impl) s)
    with (match poll_button impl s with
          | Ok _ s1 => (poll_touch impl;; check_blank impl) s1
          | Raise e => Raise e
          | Diverge => Diverge
          end).
  change ((poll_button impl;; poll_touch impl) s)
    with (match poll_button impl s with
          | Ok _ s1 => poll_touch impl s1
          | Raise e => Raise e
          | Diverge => Diverge
          end).
  destruct (poll_button impl s) as [[] s1| |] eqn:E1; try reflexivity.
  apply Hend.
  destruct (Bool.eqb (PinHandler._value (_button (mgr (world s))))
                     (button_value (hw (world s)))) eqn:Hedge.
  - apply Bool.eqb_prop in Hedge.
    destruct Hin as [Hne | Hpending]; [now elim Hne |].
    rewrite (poll_button_idle s Hedge) in E1. injection E1 as <-.
    now apply poll_touch_rests.
  - intros r s2 E2. refine (poll_touch_rested s1 _ _ _ E2).
    refine (poll_button_rests s _ Hb _ _ E1).
    intros Heq. rewrite Heq, Bool.eqb_reflx in Hedge. discriminate.
Qed.

End Rested.

(** ** The ring, the other way round *)

Section Mirror.

(** The navigation ring of the manager at hand: pairwise distinct
    applications that can be brought to the foreground and whose lifecycle
    methods are steady. *)
Variable ring : list AppId.

Hypothesis ring_distinct : NoDup ring.
Hypothesis ring_foreground :
  forall a, In a ring -> App.foreground (impl a) <> None.
Hypothesis foreground_steady :
  forall a h, In a ring -> App.foreground (impl a) = Some h -> steady a h.
Hypothesis background_steady :
  forall a h, In a ring -> App.background (impl a) = Some h -> steady a h.

Lemma after_before n i : (i < n)%nat -> after n (before n i) = i.
Proof.
  unfold after, before. intros Hi. destruct i as [|j].
  - destruct (Nat.ltb_spec (S (n - 1)) n); lia.
  - destruct (Nat.ltb_spec (S j) n); lia.
Qed.

Lemma before_mod n i : (i < n)%nat -> before n i = ((i + (n - 1)) mod n)%nat.
Proof.
  unfold before. intros Hi. destruct i as [|j].
  - cbn [Nat.add]. rewrite Nat.mod_small; lia.
  - replace (S j + (n - 1))%nat with (j + 1 * n)%nat by lia.
    rewrite Nat.Div0.mod_add, Nat.mod_small; lia.
Qed.

Lemma right_round :
  forall (k i : nat) (a : AppId) (s : Sys),
  started (mgr (world s)) ->
  applications (mgr (world s)) = ring ->
  nth_error ring i = Some a ->
  app (mgr (world s)) = Some a ->
  returns (times k (navigate impl EventType.RIGHT)) s
    (fun _ s' => applications (mgr (world s')) = ring /\
                 app (mgr (world s')) =
                 nth_error ring
                   ((i + k * (length ring - 1)) mod length ring)).
Proof.
  induction k as [|k IH]; intros i a s Hst Hl Ha Hcur.
  - cbn [times]. apply returns_ret. split; [exact Hl |].
    rewrite Nat.mul_0_l, Nat.add_0_r, Nat.mod_small, Ha; [exact Hcur |].
    apply nth_error_Some. congruence.
  - cbn [times]. apply returns_bind.
    eapply returns_weaken.
    + apply (navigate_ring ring ring_foreground foreground_steady
               background_steady EventType.RIGHT before i a s); auto.
    + cbn beta. intros _ s1 (Hst1 & Hl1 & b & Hb & Hcur1).
      eapply returns_weaken; [exact (IH _ b s1 Hst1 Hl1 Hb Hcur1) |].
      cbn beta. intros _ s2 [Hl2 Hcur2]. split; [exact Hl2 |].
      rewrite Hcur2. f_equal.
      assert (Hi : (i < length ring)%nat)
        by (apply nth_error_Some; congruence).
      rewrite (before_mod _ _ Hi), Nat.Div0.add_mod_idemp_l.
      f_equal. lia.
Qed.

(** X20: the ring closes to the right as it does to the left.  On a
    started manager whose ring holds pairwise distinct applications that
    have [foreground] and steady lifecycle methods, and from an
    application on the ring, [navigate(RIGHT)] followed by
    [navigate(LEFT)] returns to the starting application, and so does
    [navigate(RIGHT)] repeated [len(applications)] times. *)
Theorem right_mirrors_left (s : Sys) (a : AppId) :
  started (mgr (world s)) ->
  applications (mgr (world s)) = ring ->
  In a ring ->
  app (mgr (world s)) = Some a ->
  (exists s',
     (navigate impl EventType.RIGHT;; navigate impl EventType.LEFT) s
       = Ok tt s' /\
     app (mgr (world s')) = Some a /\
     applications (mgr (world s')) = ring) /\
  (exists s',
     times (length ring) (navigate impl EventType.RIGHT) s = Ok tt s' /\
     app (mgr (world s')) = Some a /\
     applications (mgr (world s')) = ring).
Proof.
  intros Hst Hl Hin Hcur.
  destruct (In_nth_error _ _ Hin) as (i & Hi).
  assert (Hlt : (i < length ring)%nat)
    by (apply nth_error_Some; congruence).
  split.
  - destruct (navigate_ring ring ring_foreground foreground_steady
                background_steady EventType.RIGHT before i a s
                (or_intror (conj eq_refl eq_refl)) ring_distinct Hst Hl Hi
                Hcur)
      as ([] & s1 & E1 & Hst1 & Hl1 & b & Hb & Hcur1).
    destruct (navigate_ring ring ring_foreground foreground_steady
                background_steady EventType.LEFT after _ b s1
                (or_introl (conj eq_refl eq_refl)) ring_distinct Hst1 Hl1 Hb
                Hcur1)
      as ([] & s2 & E2 & _ & Hl2 & c & Hc & Hcur2).
    exists s2. split; [now rewrite (bind_ok _ _ _ _ _ E1) |].
    split; [| exact Hl2].
    rewrite (after_before _ _ Hlt) in Hc. congruence.
  - destruct (right_round (length ring) i a s Hst Hl Hi Hcur)
      as ([] & s' & E & Hl' & Happ).
    exists s'. split; [exact E |]. split; [| exact Hl'].
    rewrite Happ.
    replace ((i + length ring * (length ring - 1)) mod length ring)%nat
      with i; [exact Hi |].
    rewrite (Nat.mul_comm (length ring)), Nat.Div0.mod_add.
    now rewrite Nat.mod_small.
Qed.

End Mirror.

(** X21: from outside the ring, left and right both lead to the first
    application.  When the current application is not registered (the
    launcher, or none yet), [navigate(LEFT)] and [navigate(RIGHT)] are
    both [switch(applications[0])]. *)
Theorem off_ring_goes_first (first : AppId) (rest : list AppId) (s : Sys) :
  applications (mgr (world s)) = first :: rest ->
  (forall a, app (mgr (world s)) = Some a -> ~ In a (first :: rest)) ->
  navigate impl EventType.LEFT s = switch impl first s /\
  navigate impl EventType.RIGHT s = switch impl first s.
Proof.
  intros Hl Hoff.
  assert (Hnone : forall a l, ~ In a l -> index a l = None).
  { intros a l. induction l as [|y l IH]; intros Hn; [reflexivity |].
    cbn [index]. destruct (Nat.eqb_spec y a) as [-> | _].
    - elim Hn. now left.
    - rewrite IH; [reflexivity |]. intros Hin. apply Hn. now right. }
  assert (Hfirst : switch_index impl (first :: rest) 0 = switch impl first).
  { reflexivity. }
  unfold navigate, bind, gets. rewrite Hl. cbn [Z.eqb Pos.eqb EventType.LEFT
    EventType.RIGHT]. unfold next_index, prev_index, contains.
  destruct (app (mgr (world s))) as [a|] eqn:Ha.
  - rewrite (Hnone a _ (Hoff a eq_refl)). now rewrite Hfirst.
  - now rewrite Hfirst.
Qed.

End Properties.

(** * The example applications at work *)

(** ** The contracts hold of the examples *)

Ltac demo_method :=
  intros;
  repeat match goal with
         | E : Some _ = Some _ |- _ => injection E as <-
         | E : None = Some _ |- _ => discriminate E
         end.

Ltac demo_run E :=
  unfold quiet, service, request_event, request_tick, rtc_get_uptime_ms,
    bind, getattr, gets, modify_mgr in E; cbn in E.

Lemma demo_keeps_power (a : AppId) :
  app_keeps unit (power_inv unit) (Demo.apps a).
Proof.
  do 5 (try destruct a as [|a]); cbn [Demo.apps];
    refine (conj _ (conj _ (conj _ (conj _ (conj _ (conj _ (conj _ _)))))));
    unfold method_keeps; cbn; demo_method;
    match goal with
    | HI : power_inv unit ?w, E : _ = Ok _ _ |- _ =>
        demo_run E;
        try (destruct (event_mask (mgr w)); [discriminate E |]);
        injection E as _ <-; exact HI
    end.
Qed.

(** ** Runs *)

Lemma power_state_invariant_witness :
  discriminated (mgr (world demo_booted)) /\
  (forall o s', perform unit Demo.apps o demo_booted = Ok tt s' ->
                discriminated (mgr (world s'))).
Proof.
  apply (power_state_invariant unit Demo.apps demo_keeps_power demo_booted).
  apply (reach_start unit Demo.apps Demo.fresh demo_booted).
  - reflexivity.
  - split; cbn; lia.
  - vm_compute. reflexivity.
Defined.

Lemma tick_catch_up_witness :
  exists s', _tick Demo.apps demo_late = Ok tt s' /\
    tick_expiry (mgr (world s')) = Bound (Some (1000 + 3000)) /\
    trace s' = [RtcUpdate; AppCall Demo.clock_id (Tick 3); ButtonValue;
                TouchGetEvent; GcCollect].
Proof.
  destruct (tick_catch_up unit Demo.apps demo_late (Some 90) Demo.clock_id
              (fun _ => quiet tt) 1000 1000 3
              eq_refl eq_refl eq_refl eq_refl ltac:(lia) eq_refl eq_refl
              eq_refl ltac:(lia) ltac:(cbn; lia)) as [Hrun _].
  rewrite Hrun. vm_compute. eexists. repeat split.
Defined.

(** With [k] whole periods elapsed past the expiry the application is told
    of [k + 1] ticks and the expiry moves on by [k + 1] periods: four for
    three, two for one. *)
Lemma whole_periods_past_expiry :
  (4000 = 1000 + 3 * 1000 /\
   exists s', _tick Demo.apps demo_three_past = Ok tt s' /\
     tick_expiry (mgr (world s')) = Bound (Some (1000 + 4 * 1000)) /\
     trace s' = [RtcUpdate; AppCall Demo.clock_id (Tick 4); ButtonValue;
                 TouchGetEvent; GcCollect]) /\
  (2000 = 1000 + 1 * 1000 /\
   exists s', _tick Demo.apps demo_one_past = Ok tt s' /\
     tick_expiry (mgr (world s')) = Bound (Some (1000 + 2 * 1000)) /\
     trace s' = [RtcUpdate; AppCall Demo.clock_id (Tick 2); ButtonValue;
                 TouchGetEvent; GcCollect]).
Proof.
  split; (split; [reflexivity |]); eexists; vm_compute; repeat split.
Qed.

(** The launcher subscribes to touch events as it comes up, and the clock
    arms its tick: after [switch] returns the configuration is not
    blank. *)
Lemma switch_keeps_foreground_requests :
  (exists s', switch Demo.apps Demo.launcher_id demo_booted = Ok tt s' /\
              event_mask (mgr (world s')) <> Bound 0) /\
  (exists s', switch Demo.apps Demo.clock_id Demo.fresh = Ok tt s' /\
              tick_expiry (mgr (world s')) <> Bound None).
Proof.
  split; eexists; (split; [vm_compute; reflexivity | vm_compute; discriminate]).
Qed.

Lemma switch_clean_slate_witness :
  exists fg w0 w1 before,
    App.foreground (Demo.apps Demo.launcher_id) = Some fg /\
    app (mgr w0) = Some Demo.launcher_id /\
    event_mask (mgr w0) = Bound 0 /\
    tick_period_ms (mgr w0) = Bound 0 /\
    tick_expiry (mgr w0) = Bound None /\
    fg w0 = Ok tt w1 /\
    mgr (world demo_launched) = mgr w1 /\
    trace demo_launched =
      trace demo_booted ++ before ++
      [DisplayMute true; DrawableReset;
       AppCall Demo.launcher_id Foreground; DisplayMute false] /\
    forallb (fun c => negb (foreground_call c)) before = true.
Proof.
  apply (switch_clean_slate unit Demo.apps Demo.launcher_id demo_booted
           demo_launched).
  vm_compute. reflexivity.
Defined.


Example demo_busy_trace :
  trace (outcome (_tick Demo.apps demo_busy)) =
  [RtcUpdate; AppCall Demo.test_id (Tick 1); ButtonValue;
   AppCall Demo.test_id (Press EventType.HOME true); TouchGetEvent;
   AppCall Demo.test_id
     (Touch {| ev_kind := EventType.TOUCH; ev_x := 120; ev_y := 120 |});
   GcCollect].
Proof. vm_compute. reflexivity. Qed.

Lemma switch_to_current_repeats_witness :
  exists s',
    navigate Demo.apps EventType.UP demo_launcher = Ok tt s' /\
    event_mask (mgr (world demo_launcher)) = Bound 1 /\
    trace s' = [DisplayMute true; DrawableReset;
                AppCall Demo.launcher_id Foreground; DisplayMute false] /\
    switch Demo.apps Demo.flashlight_id demo_flashlight =
    Ok tt {| world := unmuted unit
                        (entering unit Demo.flashlight_id
                                  (world demo_flashlight));
             trace := [AppCall Demo.flashlight_id Background;
                       DisplayMute true; DrawableReset;
                       AppCall Demo.flashlight_id Foreground;
                       DisplayMute false] |}.
Proof.
  destruct (switch_to_current_repeats unit Demo.apps Demo.launcher_id
              (service (request_event EventMask.TOUCH)) demo_launcher
              eq_refl eq_refl) as (_ & Hnone & Hup & _).
  destruct (switch_to_current_repeats unit Demo.apps Demo.flashlight_id
              (quiet tt) demo_flashlight eq_refl eq_refl) as (Hbg & _).
  rewrite (Hup eq_refl), (Hnone eq_refl).
  rewrite (Hbg (quiet tt) (world demo_flashlight) eq_refl eq_refl).
  vm_compute. eexists. repeat split.
Defined.

Lemma button_press_wakes_witness :
  _tick Demo.apps demo_asleep =
    Ok tt {| world := woken unit (powered_on unit (world demo_asleep));
             trace := [RtcUpdate; BatteryCharging; ButtonValue;
                       DisplayPoweron; AppCall Demo.clock_id Wake;
                       BacklightSet 2; TouchGetEvent] |} /\
  display_on (hw (powered_on unit (world demo_asleep))) = true /\
  backlight_level
    (hw (woken unit (powered_on unit (world demo_asleep)))) = 2 /\
  touch_pending
    (hw (woken unit (powered_on unit (world demo_asleep)))) = None /\
  sleep_at (mgr (woken unit (powered_on unit (world demo_asleep)))) =
    Bound (Some (7 + 15)) /\
  power_state (mgr (woken unit (powered_on unit (world demo_asleep)))) =
    Some AWAKE.
Proof.
  apply (button_press_wakes unit Demo.apps demo_asleep None Demo.clock_id
           (quiet tt) (powered_on unit (world demo_asleep))).
  - reflexivity.
  - reflexivity.
  - reflexivity.
  - reflexivity.
  - reflexivity.
  - reflexivity.
  - reflexivity.
  - cbn. lia.
  - cbn. lia.
Defined.

(** The napper sleeps in place and has no [wake()]: put to sleep by a
    poll step, it cannot be woken by the button. *)
Lemma press_without_wake_raises :
  exists s,
    _tick Demo.apps demo_napping = Ok tt s /\
    power_state (mgr (world s)) = Some ASLEEP /\
    app (mgr (world s)) = Some Demo.napper_id /\
    App.wake (Demo.apps Demo.napper_id) = None /\
    PinHandler._value (_button (mgr (world (press_button s)))) = false /\
    button_value (hw (world (press_button s))) = true /\
    _tick Demo.apps (press_button s) = Raise AttributeError.
Proof.
  eexists. split; [vm_compute; reflexivity |]. repeat split.
Qed.

Lemma sleep_sequence_witness :
  (exists s', sleep Demo.apps demo_clock = Ok tt s' /\
     app (mgr (world s')) = Some Demo.clock_id /\
     trace s' = [BacklightSet 0; AppCall Demo.clock_id Sleep;
                 DisplayPoweroff; BatteryCharging]) /\
  (exists s', sleep Demo.apps demo_flashlight = Ok tt s' /\
     app (mgr (world s')) = Some Demo.clock_id /\
     trace s' = [BacklightSet 0; AppCall Demo.flashlight_id Background;
                 DisplayMute true; DrawableReset;
                 AppCall Demo.clock_id Foreground; DisplayMute false;
                 AppCall Demo.clock_id Sleep; DisplayPoweroff;
                 BatteryCharging]).
Proof.
  split.
  - destruct (sleep_sequence unit Demo.apps demo_clock) as (Hstay & _ & _).
    rewrite (Hstay Demo.clock_id (quiet true)
               (dimmed unit (world demo_clock)) eq_refl eq_refl eq_refl).
    eexists. repeat split.
  - destruct (sleep_sequence unit Demo.apps demo_flashlight)
      as (_ & Hfall & _).
    rewrite (Hfall
               {| world := dimmed unit (world demo_flashlight);
                  trace := trace demo_flashlight ++ [BacklightSet 0] |}
               Demo.clock_id
               (outcome (switch Demo.apps Demo.clock_id
                  {| world := dimmed unit (world demo_flashlight);
                     trace := trace demo_flashlight ++ [BacklightSet 0] |}))
               (quiet true) true
               (world (outcome (switch Demo.apps Demo.clock_id
                  {| world := dimmed unit (world demo_flashlight);
                     trace := trace demo_flashlight ++ [BacklightSet 0] |})))).
    + vm_compute. eexists. repeat split.
    + left. split; reflexivity.
    + reflexivity.
    + vm_compute. reflexivity.
    + reflexivity.
    + reflexivity.
    + reflexivity.
Defined.

(** ** Round the ring *)

Lemma demo_foreground (a : AppId) : App.foreground (Demo.apps a) <> None.
Proof. do 5 (try destruct a as [|a]); discriminate. Qed.

Lemma demo_foreground_steady (a : AppId) (h : H unit unit) :
  App.foreground (Demo.apps a) = Some h -> steady unit a h.
Proof.
  do 5 (try destruct a as [|a]); cbn; intros E; injection E as <-;
    first [ apply quiet_steady | apply request_event_steady
          | apply request_tick_steady ].
Qed.

Lemma demo_background_steady (a : AppId) (h : H unit unit) :
  App.background (Demo.apps a) = Some h -> steady unit a h.
Proof.
  do 5 (try destruct a as [|a]); cbn; intros E; try discriminate E;
    injection E as <-; apply quiet_steady.
Qed.

Lemma demo_wide_ring_distinct : NoDup demo_wide_ring.
Proof.
  repeat constructor; cbn; intuition discriminate.
Qed.

Lemma ring_closure_witness :
  exists s',
    times unit (length (applications (mgr (world demo_wide))))
          (navigate Demo.apps EventType.LEFT) demo_wide = Ok tt s' /\
    app (mgr (world s')) = Some Demo.flashlight_id /\
    applications (mgr (world s')) =
    applications (mgr (world demo_wide)).
Proof.
  apply (ring_closure unit Demo.apps demo_wide_ring
           (fun a _ => demo_foreground a)
           (fun a h _ => demo_foreground_steady a h)
           (fun a h _ => demo_background_steady a h)
           demo_wide Demo.flashlight_id).
  - repeat split; eexists; reflexivity.
  - reflexivity.
  - exact demo_wide_ring_distinct.
  - cbn. auto.
  - reflexivity.
Defined.

Lemma left_then_right_witness :
  exists s',
    (navigate Demo.apps EventType.LEFT;; navigate Demo.apps EventType.RIGHT)
      demo_wide = Ok tt s' /\
    app (mgr (world s')) = Some Demo.flashlight_id /\
    applications (mgr (world s')) =
    applications (mgr (world demo_wide)).
Proof.
  apply (left_then_right unit Demo.apps demo_wide_ring
           (fun a _ => demo_foreground a)
           (fun a h _ => demo_foreground_steady a h)
           (fun a h _ => demo_background_steady a h)
           demo_wide Demo.flashlight_id).
  - repeat split; eexists; reflexivity.
  - reflexivity.
  - exact demo_wide_ring_distinct.
  - cbn. auto.
  - reflexivity.
Defined.

(** From the launcher, which is off the ring, three steps to the left end
    on the last ring application; with an application registered twice,
    four steps from the test application end on the flashlight. *)
Lemma ring_closure_fails :
  (exists s',
     times unit (length (applications (mgr (world demo_launcher))))
           (navigate Demo.apps EventType.LEFT) demo_launcher = Ok tt s' /\
     app (mgr (world demo_launcher)) = Some Demo.launcher_id /\
     app (mgr (world s')) = Some Demo.test_id) /\
  (exists s',
     times unit (length (applications (mgr (world demo_twice))))
           (navigate Demo.apps EventType.LEFT) demo_twice = Ok tt s' /\
     app (mgr (world demo_twice)) = Some Demo.test_id /\
     app (mgr (world s')) = Some Demo.flashlight_id).
Proof.
  split; eexists; (split; [vm_compute; reflexivity | split; reflexivity]).
Qed.

(** From the launcher, left then right ends on the last ring application;
    with an application registered twice, left then right from the
    flashlight ends on the clock. *)
Lemma left_then_right_fails :
  (exists s',
     (navigate Demo.apps EventType.LEFT;; navigate Demo.apps EventType.RIGHT)
       demo_launcher = Ok tt s' /\
     app (mgr (world demo_launcher)) = Some Demo.launcher_id /\
     app (mgr (world s')) = Some Demo.test_id) /\
  (exists s',
     (navigate Demo.apps EventType.LEFT;; navigate Demo.apps EventType.RIGHT)
       (outcome (switch Demo.apps Demo.flashlight_id demo_twice)) = Ok tt s' /\
     app (mgr (world (outcome (switch Demo.apps Demo.flashlight_id
                                 demo_twice)))) = Some Demo.flashlight_id /\
     app (mgr (world s')) = Some Demo.test_id).
Proof.
  split; eexists; (split; [vm_compute; reflexivity | split; reflexivity]).
Qed.

(** ** Absent capabilities *)

Lemma subscribed_lor_touch (mask bit : Z) :
  Z.land EventMask.TOUCH bit = 0 ->
  subscribed (Z.lor mask EventMask.TOUCH) bit = subscribed mask bit.
Proof.
  intros Hbit. unfold subscribed.
  now rewrite Z.land_lor_distr_l, Hbit, Z.lor_0_r.
Qed.

Lemma quiet_orderly {A : Type} (a : AppId) (x : A) :
  orderly unit Demo.apps a (quiet x).
Proof.
  intros w Ha Hd. exists x, w.
  split; [reflexivity | split; assumption].
Qed.

Lemma launcher_foreground_orderly :
  orderly unit Demo.apps Demo.launcher_id
    (service (request_event EventMask.TOUCH)).
Proof.
  intros w Ha Hd.
  destruct Hd as ((mask & Hmask & Hb & Hs & Ht) & Htick & Hrest).
  unfold service, request_event, bind, getattr, modify_mgr.
  cbn [world]. rewrite Hmask. eexists tt, _. split; [reflexivity |].
  split; [| exact Ha]. split; [| split; [exact Htick | exact Hrest]].
  exists (Z.lor mask EventMask.TOUCH).
  cbn [mgr world event_mask with_event_mask app].
  split; [reflexivity |]. rewrite !subscribed_lor_touch by reflexivity.
  split; [exact Hb |]. split; [exact Hs |].
  intros _. rewrite Ha. reflexivity.
Qed.

Lemma clock_foreground_orderly :
  orderly unit Demo.apps Demo.clock_id (service (request_tick 1000)).
Proof.
  intros w Ha Hd.
  destruct Hd as (Hmask & Htick & Hrest).
  eexists tt, _. split; [reflexivity |].
  split; [| exact Ha]. split; [exact Hmask |]. split; [| exact Hrest].
  eexists _, 1000. cbn. split; [reflexivity |]. split; [reflexivity |].
  intros _. rewrite Ha. reflexivity.
Qed.

Lemma demo_orderly (a : AppId) : app_orderly unit Demo.apps a.
Proof.
  do 5 (try destruct a as [|a]); cbn [Demo.apps];
    refine (conj _ (conj _ (conj _ (conj _ (conj _ (conj _ (conj _ _)))))));
    cbn; demo_method;
    first [ apply quiet_orderly
          | apply launcher_foreground_orderly
          | apply clock_foreground_orderly ].
Qed.

Lemma demo_contract (a : AppId) (mask period : Z) (expiry deadline : option Z)
    (w : Watch) :
  (subscribed mask EventMask.BUTTON = true ->
   provides Demo.apps (@App.press unit) (Some a) = true) ->
  (subscribed mask EventMask.SWIPE_UPDOWN = true \/
   subscribed mask EventMask.SWIPE_LEFTRIGHT = true ->
   provides Demo.apps (@App.swipe unit) (Some a) = true) ->
  (subscribed mask EventMask.TOUCH = true ->
   provides Demo.apps (@App.touch unit) (Some a) = true) ->
  (truthy expiry = true ->
   provides Demo.apps (@App.tick unit) (Some a) = true) ->
  disciplined unit Demo.apps
    (world (Demo.showing a mask period expiry deadline w)).
Proof.
  intros Hb Hs Ht Htick. split; [| split; [| split; [| split; [| split]]]].
  - exists mask. cbn. auto.
  - exists expiry, period. cbn. auto.
  - exists deadline. reflexivity.
  - exists Demo.clock_id, [Demo.flashlight_id; Demo.test_id]. now split.
  - cbn. intros x [<- | [<- | [<- | []]]]; reflexivity.
  - reflexivity.
Qed.



(** ** Scenarios of the specification *)

(** Three applications registered in order; with no current application,
    [navigate(LEFT)] starts the first, a second one moves to the next,
    [navigate(RIGHT)] from there returns to the first, and once more wraps
    to the last. *)
Example scenario_ring :
  app (mgr (world (outcome (navigate Demo.apps EventType.LEFT Demo.fresh))))
    = Some Demo.clock_id /\
  app (mgr (world (outcome
    ((navigate Demo.apps EventType.LEFT;;
      navigate Demo.apps EventType.LEFT) Demo.fresh))))
    = Some Demo.flashlight_id /\
  app (mgr (world (outcome
    ((navigate Demo.apps EventType.LEFT;;
      navigate Demo.apps EventType.LEFT;;
      navigate Demo.apps EventType.RIGHT) Demo.fresh))))
    = Some Demo.clock_id /\
  app (mgr (world (outcome
    ((navigate Demo.apps EventType.LEFT;;
      navigate Demo.apps EventType.LEFT;;
      navigate Demo.apps EventType.RIGHT;;
      navigate Demo.apps EventType.RIGHT) Demo.fresh))))
    = Some Demo.test_id.
Proof. vm_compute. repeat split. Qed.

(** Awake with a blanking delay of 15 s and the deadline passed: the next
    poll step dims the backlight, powers the display off and leaves the
    device asleep. *)
Example scenario_blanking :
  let s := Demo.showing Demo.clock_id 0 0 None (Some 15)
             (demo_watch false 16 16000 None false) in
  let s' := outcome (_tick Demo.apps s) in
  power_state (mgr (world s)) = Some AWAKE /\
  power_state (mgr (world s')) = Some ASLEEP /\
  display_on (hw (world s')) = false /\
  backlight_level (hw (world s')) = 0 /\
  trace s' = [RtcUpdate; ButtonValue; TouchGetEvent; BacklightSet 0;
              AppCall Demo.clock_id Sleep; DisplayPoweroff; BatteryCharging;
              GcCollect].
Proof. vm_compute. repeat split. Qed.

(** The default application in the foreground receives [HOME]: the device
    goes to sleep, no switch is made. *)
Example scenario_home_sleeps :
  let s' := outcome (navigate Demo.apps EventType.HOME demo_clock) in
  power_state (mgr (world s')) = Some ASLEEP /\
  trace s' = [BacklightSet 0; AppCall Demo.clock_id Sleep; DisplayPoweroff;
              BatteryCharging].
Proof. vm_compute. repeat split. Qed.

(** A period of zero: the loop of lines 275-277 does not end. *)
Example scenario_zero_period :
  _tick Demo.apps
    (Demo.showing Demo.clock_id 0 0 (Some 1000) (Some 90)
       (demo_watch true 2 2000 None false)) = Diverge.
Proof. vm_compute. reflexivity. Qed.

(** ** The services and the handlers on the examples *)

Lemma demo_keeps_rested (a : AppId) :
  app_keeps unit (rested unit) (Demo.apps a).
Proof.
  do 5 (try destruct a as [|a]); cbn [Demo.apps];
    refine (conj _ (conj _ (conj _ (conj _ (conj _ (conj _ (conj _ _)))))));
    unfold method_keeps; cbn; demo_method;
    match goal with
    | HI : rested unit ?w, E : _ = Ok _ _ |- _ =>
        demo_run E;
        try (destruct (event_mask (mgr w)); [discriminate E |]);
        injection E as _ <-; exact HI
    end.
Qed.

Lemma request_event_accumulates_witness :
  (request_event EventMask.SWIPE_LEFTRIGHT;;
   request_event EventMask.BUTTON) demo_launcher =
    Ok tt (on_mgr unit (with_event_mask 11) demo_launcher) /\
  (request_event EventMask.SWIPE_LEFTRIGHT;;
   request_event EventMask.BUTTON) demo_launcher =
  (request_event EventMask.BUTTON;;
   request_event EventMask.SWIPE_LEFTRIGHT) demo_launcher /\
  subscribed (Z.lor 1 EventMask.SWIPE_LEFTRIGHT) EventMask.TOUCH = true.
Proof.
  destruct (request_event_accumulates unit demo_launcher 1
              EventMask.SWIPE_LEFTRIGHT EventMask.BUTTON eq_refl)
    as (Hsum & Hcomm & _ & Hold & _).
  split; [exact Hsum |]. split; [exact Hcomm |].
  apply Hold. reflexivity.
Defined.

Lemma nonpositive_period_hangs_witness :
  _tick Demo.apps demo_stuck = Diverge /\
  catch_up 5000 3200 0 (logged unit RtcUpdate demo_stuck) = Diverge.
Proof.
  destruct (nonpositive_period_hangs unit Demo.apps demo_stuck (Some 90)
              1000 0 eq_refl eq_refl eq_refl eq_refl eq_refl ltac:(lia))
    as [Hloop Hstep].
  split; [exact Hstep | apply Hloop].
Defined.

Lemma no_tick_unless_due_witness :
  deliver_ticks Demo.apps demo_early = Ok tt (logged unit RtcUpdate demo_early) /\
  exists rest,
    trace (outcome (_tick Demo.apps demo_early)) =
      trace demo_early ++ RtcUpdate :: rest /\
    forallb (fun c => negb (tick_delivery c)) rest = true.
Proof.
  destruct (no_tick_unless_due unit Demo.apps demo_early (Some 90)
              (Some 6000) eq_refl eq_refl eq_refl eq_refl) as [Hrun Hnone].
  split; [exact Hrun |]. apply Hnone. vm_compute. reflexivity.
Defined.

Lemma keep_awake_is_not_wake_witness :
  exists s',
    keep_awake demo_asleep = Ok tt s' /\
    power_state (mgr (world s')) = Some AWAKE /\
    display_on (hw (world s')) = false /\
    trace s' = [].
Proof.
  destruct (keep_awake_is_not_wake unit demo_asleep
              ltac:(split; cbn; lia))
    as (s' & E & _ & Hps & Hhw & Htr & _).
  exists s'. split; [exact E |]. split; [exact Hps |].
  split; [now rewrite Hhw | exact Htr].
Defined.

Lemma blanking_is_strict_witness :
  exists s1,
    keep_awake demo_clock = Ok tt s1 /\
    check_blank Demo.apps (on_hw unit (at_uptime 20) s1) =
      Ok tt (on_hw unit (at_uptime 20) s1) /\
    check_blank Demo.apps (on_hw unit (at_uptime 21) s1) =
      sleep Demo.apps (on_hw unit (at_uptime 21) s1).
Proof.
  destruct (blanking_is_strict unit Demo.apps demo_clock
              ltac:(split; cbn; lia)) as (s1 & E & Hcheck).
  exists s1. split; [exact E |]. split.
  - apply (Hcheck 20). cbn. lia.
  - apply (Hcheck 21). cbn. lia.
Defined.

Lemma first_switch_boots_witness :
  exists w1,
    switch Demo.apps Demo.clock_id Demo.fresh =
      Ok tt {| world := unmuted unit w1;
               trace := [DisplayPoweron; DisplayMute true; BacklightSet 2;
                         DisplayMute true; DrawableReset;
                         AppCall Demo.clock_id Foreground;
                         DisplayMute false] |} /\
    sleep_at (mgr w1) = Bound (Some 90) /\
    tick_expiry (mgr w1) = Bound (Some 1000).
Proof.
  eexists.
  split; [| split];
    [ apply (first_switch_boots unit Demo.apps Demo.clock_id
               (service (request_tick 1000)) Demo.fresh _
               eq_refl eq_refl eq_refl)
    | reflexivity | reflexivity ].
Defined.

Lemma later_switch_keeps_power_witness :
  exists calls,
    trace (outcome (switch Demo.apps Demo.clock_id demo_flashlight)) =
      trace demo_flashlight ++ calls /\
    forallb (fun c => negb (power_call c)) calls = true.
Proof.
  apply (later_switch_keeps_power unit Demo.apps Demo.clock_id
           Demo.flashlight_id demo_flashlight _ eq_refl).
  vm_compute. reflexivity.
Defined.

Lemma empty_ring_raises_witness :
  navigate Demo.apps EventType.HOME demo_empty = Raise IndexError /\
  navigate Demo.apps EventType.UP demo_empty =
    switch Demo.apps Demo.launcher_id demo_empty /\
  sleep Demo.apps demo_empty = Raise IndexError.
Proof.
  destruct (empty_ring_raises unit Demo.apps demo_empty EventType.HOME eq_refl)
    as (Hnav & Hup & _ & Hsleep).
  split; [| split].
  - apply Hnav. cbn. auto.
  - exact Hup.
  - apply Hsleep. reflexivity.
Defined.

Lemma touch_dispatch_witness :
  _handle_touch Demo.apps
    {| ev_kind := EventType.TOUCH; ev_x := 120; ev_y := 120 |} demo_launcher =
    Ok tt {| world := world (refreshed unit demo_launcher);
             trace := [AppCall Demo.launcher_id
                         (Touch {| ev_kind := EventType.TOUCH;
                                   ev_x := 120; ev_y := 120 |})] |} /\
  _handle_touch Demo.apps {| ev_kind := 6; ev_x := 0; ev_y := 0 |}
    demo_launcher = Ok tt (refreshed unit demo_launcher) /\
  _handle_touch Demo.apps
    {| ev_kind := EventType.TOUCH; ev_x := 120; ev_y := 120 |} demo_clock =
    Ok tt (refreshed unit demo_clock).
Proof.
  split; [| split].
  - destruct (touch_dispatch unit Demo.apps demo_launcher
                {| ev_kind := EventType.TOUCH; ev_x := 120; ev_y := 120 |}
                1 eq_refl) as [_ Htouch].
    exact (Htouch eq_refl eq_refl Demo.launcher_id (fun _ => quiet tt)
             (world (refreshed unit demo_launcher))
             eq_refl eq_refl eq_refl).
  - destruct (touch_dispatch unit Demo.apps demo_launcher
                {| ev_kind := 6; ev_x := 0; ev_y := 0 |} 1 eq_refl)
      as [Hstray _].
    exact (Hstray eq_refl).
  - destruct (touch_dispatch unit Demo.apps demo_clock
                {| ev_kind := EventType.TOUCH; ev_x := 120; ev_y := 120 |}
                0 eq_refl) as [Hstray _].
    exact (Hstray eq_refl).
Defined.

Lemma swipe_veto_witness :
  _handle_touch Demo.apps
    {| ev_kind := EventType.LEFT; ev_x := 0; ev_y := 0 |} demo_clock =
    navigate Demo.apps EventType.LEFT (refreshed unit demo_clock) /\
  _handle_touch Demo.apps
    {| ev_kind := EventType.UP; ev_x := 0; ev_y := 0 |} demo_busy =
    navigate Demo.apps EventType.UP
      {| world := world (refreshed unit demo_busy);
         trace := [AppCall Demo.test_id
                     (Swipe {| ev_kind := EventType.UP;
                               ev_x := 0; ev_y := 0 |})] |}.
Proof.
  split.
  - destruct (swipe_veto unit Demo.apps demo_clock
                {| ev_kind := EventType.LEFT; ev_x := 0; ev_y := 0 |}
                0 eq_refl eq_refl) as [Hfree _].
    exact (Hfree eq_refl).
  - destruct (swipe_veto unit Demo.apps demo_busy
                {| ev_kind := EventType.UP; ev_x := 0; ev_y := 0 |}
                15 eq_refl eq_refl) as [_ Hasked].
    exact (Hasked eq_refl Demo.test_id (fun _ => quiet true) true
             (world (refreshed unit demo_busy)) eq_refl eq_refl eq_refl).
Defined.

Lemma button_dispatch_witness :
  _handle_button Demo.apps false demo_clock =
    Ok tt (refreshed unit demo_clock) /\
  _handle_button Demo.apps true demo_clock =
    navigate Demo.apps EventType.HOME (refreshed unit demo_clock) /\
  _handle_button Demo.apps true demo_busy =
    Ok tt {| world := world (refreshed unit demo_busy);
             trace := [AppCall Demo.test_id (Press EventType.HOME true)] |}.
Proof.
  destruct (button_dispatch unit Demo.apps demo_clock 0 eq_refl)
    as [Hplain _].
  destruct (button_dispatch unit Demo.apps demo_busy 15 eq_refl)
    as [_ Hasked].
  destruct (Hplain eq_refl) as [Hup Hdown].
  split; [exact Hup |]. split; [exact Hdown |].
  exact (Hasked eq_refl true Demo.test_id (fun _ _ => quiet false) false
           (world (refreshed unit demo_busy)) eq_refl eq_refl eq_refl).
Defined.

Lemma asleep_poll_wakes_iff_witness :
  exists s2,
    _tick Demo.apps demo_dozing = Ok tt s2 /\
    trace s2 = [RtcUpdate; BatteryCharging; ButtonValue] /\
    power_state (mgr (world s2)) = Some ASLEEP /\
    touch_pending (hw (world s2)) =
      Some {| ev_kind := EventType.TOUCH; ev_x := 1; ev_y := 1 |}.
Proof.
  destruct (asleep_poll_wakes_iff unit Demo.apps demo_dozing None
              eq_refl eq_refl)
    as (r & s2 & _ & Hiff & _ & Hstay & Htr & Hhw & Hsa & _).
  exists s2. split; [| split; [| split]].
  - apply Hstay; [| reflexivity].
    intros Hr. apply Hiff in Hr. destruct Hr as [Hr _]. discriminate Hr.
  - exact Htr.
  - unfold power_state. now rewrite Hsa.
  - now rewrite Hhw.
Defined.

Lemma down_goes_home_witness :
  exists s1,
    navigate Demo.apps EventType.DOWN demo_launcher = Ok tt s1 /\
    app (mgr (world s1)) = Some Demo.clock_id /\
    applications (mgr (world s1)) = demo_ring /\
    navigate Demo.apps EventType.DOWN s1 =
      Ok tt (on_hw unit
               (fun w => with_vibrator_pulses (S (vibrator_pulses w)) w)
               (logged unit VibratorPulse s1)).
Proof.
  apply (down_goes_home unit Demo.apps Demo.clock_id
           [Demo.flashlight_id; Demo.test_id] demo_launcher
           (demo_foreground Demo.clock_id)
           (demo_foreground_steady Demo.clock_id)
           (fun a h _ => demo_background_steady a h)).
  - intros _. repeat split; eexists; reflexivity.
  - reflexivity.
Defined.

Lemma input_defers_blanking_witness :
  (poll_button Demo.apps;; poll_touch Demo.apps;; check_blank Demo.apps)
    demo_overdue =
  (poll_button Demo.apps;; poll_touch Demo.apps) demo_overdue.
Proof.
  apply (input_defers_blanking unit Demo.apps demo_keeps_rested demo_overdue).
  - cbn. lia.
  - right. discriminate.
Defined.

Lemma right_mirrors_left_witness :
  (exists s',
     (navigate Demo.apps EventType.RIGHT;; navigate Demo.apps EventType.LEFT)
       demo_wide = Ok tt s' /\
     app (mgr (world s')) = Some Demo.flashlight_id /\
     applications (mgr (world s')) = demo_wide_ring) /\
  (exists s',
     times unit (length demo_wide_ring) (navigate Demo.apps EventType.RIGHT)
       demo_wide = Ok tt s' /\
     app (mgr (world s')) = Some Demo.flashlight_id /\
     applications (mgr (world s')) = demo_wide_ring).
Proof.
  apply (right_mirrors_left unit Demo.apps demo_wide_ring
           demo_wide_ring_distinct
           (fun a _ => demo_foreground a)
           (fun a h _ => demo_foreground_steady a h)
           (fun a h _ => demo_background_steady a h)
           demo_wide Demo.flashlight_id).
  - repeat split; eexists; reflexivity.
  - reflexivity.
  - cbn. auto.
  - reflexivity.
Defined.

Lemma off_ring_goes_first_witness :
  navigate Demo.apps EventType.LEFT demo_launcher =
    switch Demo.apps Demo.clock_id demo_launcher /\
  navigate Demo.apps EventType.RIGHT demo_launcher =
    switch Demo.apps Demo.clock_id demo_launcher.
Proof.
  apply (off_ring_goes_first unit Demo.apps Demo.clock_id
           [Demo.flashlight_id; Demo.test_id] demo_launcher eq_refl).
  intros a E. injection E as <-. cbn. intuition discriminate.
Defined.
